(** * boWatt2-RAG: the retrieval pipeline, embedded in Rocq

    A shallow embedding of the Go sources of the retrieval core
    ([services/chunker.go], [services/embedder.go], [services/retriever.go],
    [storage/mongodb.go], the query handler of the controller) together with
    the parts of the Go standard library they call, followed by the theorems
    that settle the properties stated about them; then the packages around
    the core (the configuration, the generator, the two handlers of the
    controller, the evaluation) and the properties of the pipeline as a
    whole.

    Conventions of the embedding.
    - A Go [string] is a sequence of bytes: [gostring := list ascii].
      [len(s)] is the number of bytes, [s[i]] a byte, [s[a:b]] a byte slice.
    - A Go [int] is a 64-bit two's complement integer, modelled as a [Z];
      [wrap64] is written wherever a sum or difference of configuration
      values may leave the 64-bit range.  Indices and lengths of strings
      that fit in memory never do, and are plain [Z] arithmetic.
    - A Go [float32] is an IEEE 754 binary32 number: a [spec_float] of the
      standard library with precision 24 and maximal exponent 128, every
      operation rounded on its own to nearest-even (no fused multiply-add).
    - A run-time panic (slice bounds out of range, integer division by
      zero) is a result of its own, never confused with a returned value. *)

From Stdlib Require Import ZArith Lia Bool Ascii String Floats.SpecFloat.
From stdpp Require Import base list strings sorting.

Local Open Scope Z_scope.

(* ====================================================================== *)
(** * Go values                                                            *)
(* ====================================================================== *)

Abbreviation gostring := (list ascii).

(** A string literal of the source, as bytes. *)
Definition str (s : string) : gostring := list_ascii_of_string s.

(** The numeric value of a byte, 0..255. *)
Definition code (c : ascii) : Z := Z.of_N (N_of_ascii c).

(** [len(s)] *)
Definition len {A} (s : list A) : Z := Z.of_nat (length s).

(** [s[i]] for an index in range, where it is the byte read; outside the
    string, where Go panics, it is 0.  [index_at] below is [s[i]] with the
    index check; the definitions that read with [byte_at] are used with
    indices in range only. *)
Definition byte_at (s : gostring) (i : Z) : Z :=
  if i <? 0 then 0
  else match s !! Z.to_nat i with Some c => code c | None => 0 end.

(** [s[i]] with its index check: [None] is the panic "index out of
    range". *)
Definition index_at (s : gostring) (i : Z) : option Z :=
  if i <? 0 then None
  else match s !! Z.to_nat i with Some c => Some (code c) | None => None end.

(** [s[lo:hi]]: panics unless [0 <= lo <= hi <= len(s)]. *)
Definition slice {A} (s : list A) (lo hi : Z) : option (list A) :=
  if (0 <=? lo) && (lo <=? hi) && (hi <=? len s)
  then Some (take (Z.to_nat (hi - lo)) (drop (Z.to_nat lo) s))
  else None.

(** Wrap-around of 64-bit signed arithmetic. *)
Definition wrap64 (z : Z) : Z := (z + 2^63) mod 2^64 - 2^63.

(** The outcome of a call that may panic. *)
Inductive outcome (A : Type) : Type :=
| Returned (a : A)
| Panicked.
Arguments Returned {A} a.
Arguments Panicked {A}.

(** Go errors, with the wrapping done by [fmt.Errorf("...: %w", err)]. *)
Inductive error : Type :=
| ErrExternal (msg : gostring)    (* reported by the store or the remote service *)
| ErrEmptyEmbedding               (* "received empty embedding from ollama" *)
| ErrChunk (i : Z) (e : error)    (* "failed to generate embedding for chunk %d: %w" *)
| ErrFetchChunks (e : error)      (* "failed to fetch chunks: %w" *)
| ErrDecodeChunks (e : error)     (* "failed to decode chunks: %w" *)
| ErrQueryEmbedding (e : error)   (* "failed to generate query embedding: %w" *)
| ErrVectorSearch (e : error).    (* "vector search failed: %w" *)

(** The outcome of a call that returns [(value, error)]. *)
Inductive result (A : Type) : Type :=
| Ok (a : A)
| Err (e : error).
Arguments Ok {A} a.
Arguments Err {A} e.

(* ====================================================================== *)
(** * Package unicode/utf8                                                 *)
(* ====================================================================== *)

Module utf8.

Definition RuneError : Z := 0xFFFD.
Definition RuneSelf : Z := 0x80.
Definition UTFMax : Z := 4.

(** Continuation bytes are 10xxxxxx. *)
Definition is_cont (b : Z) : bool := (0x80 <=? b) && (b <=? 0xBF).

(** [RuneStart(b)]: [b&0xC0 != 0x80]. *)
Definition RuneStart (b : Z) : bool := negb (is_cont b).

(** The table [first] of the library together with [acceptRanges]:
    for a leading byte, the size of the sequence and the range accepted
    for its second byte; [None] for a byte that cannot lead a sequence
    of two or more bytes. *)
Definition lead (b0 : Z) : option (Z * Z * nat) :=
  if (0xC2 <=? b0) && (b0 <=? 0xDF) then Some (0x80, 0xBF, 2%nat)
  else if b0 =? 0xE0 then Some (0xA0, 0xBF, 3%nat)
  else if (0xE1 <=? b0) && (b0 <=? 0xEC) then Some (0x80, 0xBF, 3%nat)
  else if b0 =? 0xED then Some (0x80, 0x9F, 3%nat)
  else if (0xEE <=? b0) && (b0 <=? 0xEF) then Some (0x80, 0xBF, 3%nat)
  else if b0 =? 0xF0 then Some (0x90, 0xBF, 4%nat)
  else if (0xF1 <=? b0) && (b0 <=? 0xF3) then Some (0x80, 0xBF, 4%nat)
  else if b0 =? 0xF4 then Some (0x80, 0x8F, 4%nat)
  else None.

(** [DecodeRuneInString]: the first rune of [s] and its width in bytes;
    [(RuneError, 0)] for the empty string, [(RuneError, 1)] for an
    encoding that is invalid or cut short. *)
Definition DecodeRuneInString (s : gostring) : Z * nat :=
  match s with
  | [] => (RuneError, 0%nat)
  | c0 :: s1 =>
    let b0 := code c0 in
    if b0 <? RuneSelf then (b0, 1%nat)
    else match lead b0 with
    | None => (RuneError, 1%nat)
    | Some (lo, hi, sz) =>
      if (length s <? sz)%nat then (RuneError, 1%nat)
      else match s1 with
      | [] => (RuneError, 1%nat)
      | c1 :: s2 =>
        let b1 := code c1 in
        if (b1 <? lo) || (hi <? b1) then (RuneError, 1%nat)
        else if (sz <=? 2)%nat
        then (Z.lor (Z.shiftl (Z.land b0 0x1F) 6) (Z.land b1 0x3F), 2%nat)
        else match s2 with
        | [] => (RuneError, 1%nat)
        | c2 :: s3 =>
          let b2 := code c2 in
          if negb (is_cont b2) then (RuneError, 1%nat)
          else if (sz <=? 3)%nat
          then (Z.lor (Z.lor (Z.shiftl (Z.land b0 0x0F) 12)
                             (Z.shiftl (Z.land b1 0x3F) 6))
                      (Z.land b2 0x3F), 3%nat)
          else match s3 with
          | [] => (RuneError, 1%nat)
          | c3 :: _ =>
            let b3 := code c3 in
            if negb (is_cont b3) then (RuneError, 1%nat)
            else (Z.lor (Z.lor (Z.lor (Z.shiftl (Z.land b0 0x07) 18)
                                      (Z.shiftl (Z.land b1 0x3F) 12))
                               (Z.shiftl (Z.land b2 0x3F) 6))
                        (Z.land b3 0x3F), 4%nat)
          end
        end
      end
    end
  end.

(** The backward scan of [DecodeLastRuneInString]:
    [for start--; start >= lim; start-- { if RuneStart(s[start]) { break } }],
    entered with [start] already decremented. *)
Fixpoint scan_back (s : gostring) (lim : Z) (fuel : nat) (start : Z) : Z :=
  match fuel with
  | O => start
  | S fuel' =>
    if start <? lim then start
    else if RuneStart (byte_at s start) then start
    else scan_back s lim fuel' (start - 1)
  end.

(** [DecodeLastRuneInString]: the last rune of [s] and its width. *)
Definition DecodeLastRuneInString (s : gostring) : Z * nat :=
  let end_ := len s in
  if end_ =? 0 then (RuneError, 0%nat)
  else
    let r := byte_at s (end_ - 1) in
    if r <? RuneSelf then (r, 1%nat)
    else
      let lim := Z.max (end_ - UTFMax) 0 in
      let start := scan_back s lim 4 (end_ - 2) in
      let start := Z.max start 0 in
      let '(r, size) := DecodeRuneInString (drop (Z.to_nat start) s) in
      if start + Z.of_nat size =? end_ then (r, size) else (RuneError, 1%nat).

(** [for _, r := range s]: the runes of [s] front to back, each with the
    bytes it was decoded from (one byte for an invalid encoding). *)
Fixpoint range_fuel (fuel : nat) (s : gostring) : list (Z * gostring) :=
  match fuel with
  | O => []
  | S fuel' =>
    match s with
    | [] => []
    | _ :: _ =>
      let '(r, w) := DecodeRuneInString s in
      (r, take w s) :: range_fuel fuel' (drop w s)
    end
  end.

Definition range (s : gostring) : list (Z * gostring) :=
  range_fuel (length s) s.

(** [RuneCountInString]: the number of runes of [s], an invalid byte
    counting as one rune of width 1. *)
Definition RuneCountInString (s : gostring) : Z := len (range s).

(** [ValidString]: [s] consists of valid encodings only.  The encoding of
    [RuneError] itself is three bytes wide, so an invalid byte is a
    [RuneError] decoded from one byte. *)
Definition ValidString (s : gostring) : bool :=
  forallb (fun rb => negb ((fst rb =? RuneError) && (length (snd rb) =? 1)%nat))
          (range s).

End utf8.

(* ====================================================================== *)
(** * Package unicode                                                      *)
(* ====================================================================== *)

Module unicode.

(** [IsSpace]: the Latin-1 switch, then the [White_Space] range table. *)
Definition IsSpace (r : Z) : bool :=
  if (0 <=? r) && (r <=? 0xFF)
  then ((0x09 <=? r) && (r <=? 0x0D)) || (r =? 0x20) || (r =? 0x85) || (r =? 0xA0)
  else (r =? 0x1680) || ((0x2000 <=? r) && (r <=? 0x200A))
       || (r =? 0x2028) || (r =? 0x2029) || (r =? 0x202F)
       || (r =? 0x205F) || (r =? 0x3000).

End unicode.

(* ====================================================================== *)
(** * Package strings                                                      *)
(* ====================================================================== *)

Module strings.

(** [TrimLeftFunc(s, unicode.IsSpace)]: drop leading white-space runes. *)
Fixpoint TrimLeft_fuel (fuel : nat) (s : gostring) : gostring :=
  match fuel with
  | O => s
  | S fuel' =>
    match s with
    | [] => []
    | _ :: _ =>
      let '(r, w) := utf8.DecodeRuneInString s in
      if unicode.IsSpace r then TrimLeft_fuel fuel' (drop w s) else s
    end
  end.

Definition TrimLeftSpace (s : gostring) : gostring :=
  TrimLeft_fuel (length s) s.

(** [TrimRightFunc(s, unicode.IsSpace)]: drop trailing white-space runes,
    found from the end with [DecodeLastRuneInString]. *)
Fixpoint TrimRight_fuel (fuel : nat) (s : gostring) : gostring :=
  match fuel with
  | O => s
  | S fuel' =>
    match s with
    | [] => []
    | _ :: _ =>
      let '(r, w) := utf8.DecodeLastRuneInString s in
      if unicode.IsSpace r
      then TrimRight_fuel fuel' (take (length s - w)%nat s)
      else s
    end
  end.

Definition TrimRightSpace (s : gostring) : gostring :=
  TrimRight_fuel (length s) s.

(** [TrimSpace]: leading, then trailing white space removed.  (The
    library's fast path for ASCII computes the same string.) *)
Definition TrimSpace (s : gostring) : gostring :=
  TrimRightSpace (TrimLeftSpace s).

(** [FieldsFunc(s, unicode.IsSpace)] over the runes of [s]: [cur] is the
    span opened at [start], [infield] is [start >= 0]. *)
Fixpoint fields_go (rs : list (Z * gostring)) (cur : gostring) (infield : bool)
  : list gostring :=
  match rs with
  | [] => if infield then [cur] else []
  | (r, bs) :: rs' =>
    if unicode.IsSpace r
    then (if infield then cur :: fields_go rs' [] false
          else fields_go rs' [] false)
    else fields_go rs' (cur ++ bs) true
  end.

(** [Fields]: the maximal runs of non-space runes. *)
Definition Fields (s : gostring) : list gostring :=
  fields_go (utf8.range s) [] false.

(** [Split(s, sep)] for a separator of one byte. *)
Fixpoint Split (s : gostring) (sep : ascii) : list gostring :=
  match s with
  | [] => [[]]
  | c :: s' =>
    if decide (c = sep) then [] :: Split s' sep
    else match Split s' sep with
         | l :: ls => (c :: l) :: ls
         | [] => [[c]]
         end
  end.

(** [Join(elems, sep)] *)
Fixpoint Join (elems : list gostring) (sep : gostring) : gostring :=
  match elems with
  | [] => []
  | [e] => e
  | e :: es => e ++ sep ++ Join es sep
  end.

(** [Trim(s, cutset)] for a cutset of ASCII bytes: bytes of the cutset are
    removed from both ends. *)
Fixpoint trimLeftASCII (s : gostring) (cutset : gostring) : gostring :=
  match s with
  | [] => []
  | c :: s' => if bool_decide (c ∈ cutset) then trimLeftASCII s' cutset else s
  end.

Definition trimRightASCII (s : gostring) (cutset : gostring) : gostring :=
  reverse (trimLeftASCII (reverse s) cutset).

Definition Trim (s : gostring) (cutset : gostring) : gostring :=
  trimLeftASCII (trimRightASCII s cutset) cutset.

(** [ToLower]: the library maps ASCII strings byte by byte; a string with
    a byte of 0x80 or more goes through the Unicode case tables, which are
    not part of the repository and are taken as a parameter. *)
Definition isASCII (s : gostring) : bool :=
  forallb (fun c => code c <? utf8.RuneSelf) s.

Definition lower_byte (c : ascii) : ascii :=
  if (code "A" <=? code c) && (code c <=? code "Z")
  then ascii_of_N (N_of_ascii c + 32) else c.

Definition ToLower (unicode_lower : gostring -> gostring) (s : gostring)
  : gostring :=
  if isASCII s then map lower_byte s else unicode_lower s.

(** [HasPrefix(s, prefix)] and [Contains(s, substr)]: [substr] occurs at
    some byte offset of [s]; the empty string occurs in every string. *)
Fixpoint HasPrefix (s prefix : gostring) : bool :=
  match prefix with
  | [] => true
  | p :: prefix' =>
    match s with
    | [] => false
    | c :: s' => bool_decide (c = p) && HasPrefix s' prefix'
    end
  end.

Fixpoint Contains (s substr : gostring) : bool :=
  HasPrefix s substr
  || match s with
     | [] => false
     | _ :: s' => Contains s' substr
     end.

End strings.

(* ====================================================================== *)
(** * Package strconv                                                      *)
(* ====================================================================== *)

Module strconv.

Definition digit (d : Z) : ascii := ascii_of_N (Z.to_N (48 + d)).

Definition is_digit (c : ascii) : bool := (48 <=? code c) && (code c <=? 57).

(** The decimal digits of an unsigned number, last digit first into
    [acc]; a 64-bit number has at most 20 of them. *)
Fixpoint format_fuel (fuel : nat) (u : Z) (acc : gostring) : gostring :=
  match fuel with
  | O => acc
  | S fuel' =>
    let acc := digit (u mod 10) :: acc in
    if u <? 10 then acc else format_fuel fuel' (u / 10) acc
  end.

Definition formatUint (u : Z) : gostring := format_fuel 20 u [].

(** [Itoa(i)], which is also how package fmt prints an [int] for [%d]. *)
Definition Itoa (i : Z) : gostring :=
  if i <? 0 then "-"%char :: formatUint (- i) else formatUint i.

(** The loop of [Atoi] over the bytes after the sign:
    [n = n*10 + int(ch - '0')], a syntax error at a byte that is no digit. *)
Fixpoint parse_digits (s : gostring) (n : Z) : option Z :=
  match s with
  | [] => Some n
  | ch :: s' =>
    if is_digit ch then parse_digits s' (n * 10 + (code ch - 48)) else None
  end.

(** [Atoi(s)]: an optional sign and at least one decimal digit; [None] for
    a syntax error and for a value outside the 64-bit range (the fast path
    for short strings and [ParseInt(s, 10, 0)] agree on this). *)
Definition Atoi (s : gostring) : option Z :=
  match s with
  | [] => None
  | c0 :: rest =>
    let digits :=
      if bool_decide (c0 = "-"%char) || bool_decide (c0 = "+"%char)
      then rest else s in
    match digits with
    | [] => None
    | _ :: _ =>
      match parse_digits digits 0 with
      | None => None
      | Some n =>
        let v := if bool_decide (c0 = "-"%char) then - n else n in
        if (- 2^63 <=? v) && (v <? 2^63) then Some v else None
      end
    end
  end.

End strconv.


(* ====================================================================== *)
(** * Package services: chunker.go                                         *)
(* ====================================================================== *)

Module chunker.

Record Chunker := NewChunker { ChunkSize : Z; ChunkOverlap : Z }.

(** [cleanText]: every line trimmed, blank lines dropped, the fields of a
    line joined by one space, the lines joined by one space. *)
Definition clean_line (line : gostring) : list gostring :=
  let line := strings.TrimSpace line in
  if decide (line = []) then []
  else [strings.Join (strings.Fields line) (str " ")].

Definition cleanText (text : gostring) : gostring :=
  let lines := strings.Split text "010"%char in
  let cleanedLines := concat (map clean_line lines) in
  strings.Join cleanedLines (str " ").

(** A loop [for i := hi; i > start; i-- { if found(i) { return r } }],
    run for [n] iterations. *)
Fixpoint scan_down (found : Z -> option Z) (n : nat) (i : Z) : option Z :=
  match n with
  | O => None
  | S n' =>
    match found i with
    | Some r => Some r
    | None => scan_down found n' (i - 1)
    end
  end.

(** The runes '.', '!', '?', and the full-width '。', '！', '？'. *)
Definition sentenceEnders : list Z := [46; 33; 63; 0x3002; 0xFF01; 0xFF1F].

(** First loop: [char := rune(text[i])] is compared with every ender; a
    match followed by the end of the text or by white space returns. *)
Definition sentence_at (text : gostring) (i : Z) : option Z :=
  let char := byte_at text i in
  if existsb (Z.eqb char) sentenceEnders
     && ((len text <=? i + 1) || unicode.IsSpace (byte_at text (i + 1)))
  then Some (i + 1) else None.

(** Second loop: a paragraph break, two newline bytes. *)
Definition paragraph_at (text : gostring) (i : Z) : option Z :=
  if (i + 1 <? len text) && (byte_at text i =? 10) && (byte_at text (i + 1) =? 10)
  then Some (i + 2) else None.

(** Third loop: any white-space byte. *)
Definition space_at (text : gostring) (i : Z) : option Z :=
  if unicode.IsSpace (byte_at text i) then Some (i + 1) else None.

(** [findSentenceBoundary], the boundary it returns; the reads are
    [byte_at], so this is the function on the calls that do not panic
    ([findSentenceBoundary_checked] below has the index checks). *)
Definition findSentenceBoundary (text : gostring) (start end_ : Z) : Z :=
  if end_ <=? start then end_
  else
    let n := Z.to_nat (end_ - 1 - start) in
    match scan_down (sentence_at text) n (end_ - 1) with
    | Some r => r
    | None =>
      match scan_down (paragraph_at text) n (end_ - 1) with
      | Some r => r
      | None =>
        match scan_down (space_at text) n (end_ - 1) with
        | Some r => r
        | None => end_
        end
      end
    end.

(** [findSentenceBoundary] with the index checks of [text[i]].  The three
    loops read the same positions, [end - 1] down to [start + 1], and the
    first loop reads every one of them unless it returns, so the call
    panics in the first loop or not at all.  [findSentenceBoundary] above
    is the boundary returned when every position read lies in the text,
    that is for [-1 <= start] and [end <= len(text)], which is how
    [ChunkText] calls it ([0 <= start] and [end < len(text)]). *)
Fixpoint scan_down_checked (found : Z -> outcome (option Z)) (n : nat) (i : Z)
  : outcome (option Z) :=
  match n with
  | O => Returned None
  | S n' =>
    match found i with
    | Panicked => Panicked
    | Returned (Some r) => Returned (Some r)
    | Returned None => scan_down_checked found n' (i - 1)
    end
  end.

Definition sentence_at_checked (text : gostring) (i : Z) : outcome (option Z) :=
  match index_at text i with
  | None => Panicked
  | Some char =>
    if existsb (Z.eqb char) sentenceEnders
    then if len text <=? i + 1 then Returned (Some (i + 1))
         else match index_at text (i + 1) with
              | None => Panicked
              | Some next =>
                Returned (if unicode.IsSpace next then Some (i + 1) else None)
              end
    else Returned None
  end.

Definition paragraph_at_checked (text : gostring) (i : Z) : outcome (option Z) :=
  if i + 1 <? len text
  then match index_at text i with
       | None => Panicked
       | Some b =>
         if b =? 10
         then match index_at text (i + 1) with
              | None => Panicked
              | Some next => Returned (if next =? 10 then Some (i + 2) else None)
              end
         else Returned None
       end
  else Returned None.

Definition space_at_checked (text : gostring) (i : Z) : outcome (option Z) :=
  match index_at text i with
  | None => Panicked
  | Some b => Returned (if unicode.IsSpace b then Some (i + 1) else None)
  end.

Definition findSentenceBoundary_checked (text : gostring) (start end_ : Z)
  : outcome Z :=
  if end_ <=? start then Returned end_
  else
    let n := Z.to_nat (end_ - 1 - start) in
    match scan_down_checked (sentence_at_checked text) n (end_ - 1) with
    | Panicked => Panicked
    | Returned (Some r) => Returned r
    | Returned None =>
      match scan_down_checked (paragraph_at_checked text) n (end_ - 1) with
      | Panicked => Panicked
      | Returned (Some r) => Returned r
      | Returned None =>
        match scan_down_checked (space_at_checked text) n (end_ - 1) with
        | Panicked => Panicked
        | Returned (Some r) => Returned r
        | Returned None => Returned end_
        end
      end
    end.

(** The variables of the loop of [ChunkText].  [windows] is a ghost field:
    the bounds [start, end) of the window each emitted chunk was cut from,
    in the order of [chunks]. *)
Record loop_state := mk_state {
  start : Z;
  iteration : Z;
  chunks : list gostring;
  windows : list (Z * Z)
}.

Inductive step :=
| Next (st : loop_state)     (* the body ran to its end *)
| Break (st : loop_state)    (* a [break] left the loop *)
| Panic.                     (* slice bounds out of range *)

(** [minChunkSize] and [maxIterations], computed before the loop. *)
Definition minChunkSize (c : Chunker) : Z :=
  let m := wrap64 (ChunkSize c - ChunkOverlap c) in
  if m <=? 0 then 1 else m.

Definition maxIterations (c : Chunker) (text : gostring) : Z :=
  Z.quot (len text) (minChunkSize c) + 1000.

(** The end of the window that opens at [start]: the raw end
    [min(start + ChunkSize, len(text))], moved to the sentence boundary
    when the window stops short of the text and the boundary lies beyond
    [start + ChunkOverlap]. *)
Definition window_end (c : Chunker) (text : gostring) (start : Z) : Z :=
  let end_ := start + ChunkSize c in
  let end_ := if len text <? end_ then len text else end_ in
  if end_ <? len text then
    let sentenceEnd := findSentenceBoundary text start end_ in
    if wrap64 (start + ChunkOverlap c) <? sentenceEnd then sentenceEnd else end_
  else end_.

(** The next [start]: [end - ChunkOverlap], not below 0, and forced to
    [oldStart + 1] when that would not advance. *)
Definition next_start (c : Chunker) (oldStart end_ : Z) : Z :=
  let start := wrap64 (end_ - ChunkOverlap c) in
  let start := if start <? 0 then 0 else start in
  if start <=? oldStart then oldStart + 1 else start.

(** One run of the loop body, entered with [start < len(text)]. *)
Definition loop_body (c : Chunker) (text : gostring) (st : loop_state) : step :=
  let iteration := iteration st + 1 in
  if maxIterations c text <? iteration
  then Break (mk_state (start st) iteration (chunks st) (windows st))
  else
    let end_ := window_end c text (start st) in
    match slice text (start st) end_ with
    | None => Panic
    | Some window =>
      let chunk := strings.TrimSpace window in
      let '(chunks, windows) :=
        if 0 <? len chunk
        then (chunks st ++ [chunk], windows st ++ [(start st, end_)])
        else (chunks st, windows st) in
      let start := next_start c (start st) end_ in
      let st' := mk_state start iteration chunks windows in
      if end_ <=? start then Break st'
      else if len text <=? start then Break st'
      else Next st'
    end.

(** [for start < len(text) { body }]; [None] when [fuel] runs of the body
    did not reach the end of the loop. *)
Fixpoint loop (c : Chunker) (text : gostring) (fuel : nat) (st : loop_state)
  : option (outcome loop_state) :=
  if len text <=? start st then Some (Returned st)
  else match fuel with
  | O => None
  | S fuel' =>
    match loop_body c text st with
    | Next st' => loop c text fuel' st'
    | Break st' => Some (Returned st')
    | Panic => Some Panicked
    end
  end.

(** The state the call ends in.  The loop counts its own iterations and
    leaves when the count passes [maxIterations], so [maxIterations + 1]
    runs of the body are all it can make. *)
Definition ChunkText_run (c : Chunker) (text : gostring)
  : option (outcome loop_state) :=
  let text := cleanText text in
  if len text =? 0 then Some (Returned (mk_state 0 0 [] []))
  else if len text <=? ChunkSize c
  then Some (Returned (mk_state 0 0 [text] [(0, len text)]))
  else loop c text (Z.to_nat (maxIterations c text) + 1) (mk_state 0 0 [] []).

(** [ChunkText]: the chunks returned. *)
Definition ChunkText (c : Chunker) (text : gostring)
  : option (outcome (list gostring)) :=
  match ChunkText_run c text with
  | Some (Returned st) => Some (Returned (chunks st))
  | Some Panicked => Some Panicked
  | None => None
  end.

End chunker.

(* ====================================================================== *)
(** * float32 and float64                                                  *)
(* ====================================================================== *)

Module float32.

Definition prec : Z := 24.
Definition emax : Z := 128.

Definition zero : spec_float := S754_zero false.

(** [float32(n)] for an integer [n] *)
Definition of_int (n : Z) : spec_float := binary_normalize prec emax n 0 false.

Definition add : spec_float -> spec_float -> spec_float := SFadd prec emax.
Definition mul : spec_float -> spec_float -> spec_float := SFmul prec emax.
Definition div : spec_float -> spec_float -> spec_float := SFdiv prec emax.

(** [x == y], [x > y] *)
Definition eqb : spec_float -> spec_float -> bool := SFeqb.
Definition gtb (x y : spec_float) : bool := SFltb y x.

End float32.

Module float64.

Definition prec : Z := 53.
Definition emax : Z := 1024.

(** [float64(x)] for a float32 [x]: the same number in binary64. *)
Definition of_float32 (x : spec_float) : spec_float :=
  match x with
  | S754_finite s m e => binary_normalize prec emax (cond_Zopp s (Zpos m)) e s
  | _ => x
  end.

(** [x > y] *)
Definition gtb (x y : spec_float) : bool := SFltb y x.

(** [0.0], [float64(n)] for an integer [n], and the arithmetic of
    binary64. *)
Definition zero : spec_float := S754_zero false.
Definition of_int (n : Z) : spec_float := binary_normalize prec emax n 0 false.
Definition add : spec_float -> spec_float -> spec_float := SFadd prec emax.
Definition mul : spec_float -> spec_float -> spec_float := SFmul prec emax.
Definition div : spec_float -> spec_float -> spec_float := SFdiv prec emax.

End float64.

(* ====================================================================== *)
(** * Package services: the metrics of chunker.go                          *)
(* ====================================================================== *)

Module chunk_metrics.

Record ChunkMetrics := {
  TotalChunks : Z;
  AvgChunkSize : spec_float;    (* a float64 *)
  MinChunkSize : Z;
  MaxChunkSize : Z;
  OriginalSize : Z
}.

(** One run of the loop body over [totalSize, minSize, maxSize]. *)
Definition measure (acc : Z * Z * Z) (chunk : gostring) : Z * Z * Z :=
  let '(totalSize, minSize, maxSize) := acc in
  let size := len chunk in
  (totalSize + size,
   if size <? minSize then size else minSize,
   if maxSize <? size then size else maxSize).

Definition CalculateMetrics (chunks : list gostring) (originalText : gostring)
  : ChunkMetrics :=
  match chunks with
  | [] =>
    {| TotalChunks := 0; AvgChunkSize := float64.zero; MinChunkSize := 0;
       MaxChunkSize := 0; OriginalSize := len originalText |}
  | first :: _ =>
    let '(totalSize, minSize, maxSize) :=
      foldl measure (0, len first, len first) chunks in
    {| TotalChunks := len chunks;
       AvgChunkSize := float64.div (float64.of_int totalSize)
                                   (float64.of_int (len chunks));
       MinChunkSize := minSize;
       MaxChunkSize := maxSize;
       OriginalSize := len originalText |}
  end.

End chunk_metrics.

(** The helper [sqrt] is defined twice in the repository, with the same
    body, in [services/embedder.go] and in [storage/mongodb.go]: ten steps
    of Newton's iteration from [z = x]. *)
Fixpoint newton (n : nat) (x z : spec_float) : spec_float :=
  match n with
  | O => z
  | S n' =>
    newton n' x (float32.div (float32.add z (float32.div x z)) (float32.of_int 2))
  end.

Definition sqrt (x : spec_float) : spec_float :=
  if float32.eqb x float32.zero then float32.zero else newton 10 x x.

(* ====================================================================== *)
(** * Package models                                                       *)
(* ====================================================================== *)

Module models.

Record ChunkMetadata := {
  BookTitle : gostring;
  BookAuthor : gostring;
  CharacterStart : Z;
  CharacterEnd : Z;
  MetaChunkSize : Z
}.

Record Chunk := {
  ID : gostring;
  BookID : gostring;
  ChunkIndex : Z;
  Text : gostring;
  Embedding : list spec_float;
  Metadata : ChunkMetadata;
  CreatedAt : Z
}.

Record SearchResult := mkSearchResult {
  SRChunk : Chunk;
  Score : spec_float      (* a float64 *)
}.

Record QueryRequest := {
  Question : gostring;
  ReqBookID : gostring;
  ReqTopK : Z
}.

Record UploadBookResponse := {
  UploadedBookID : gostring;
  UploadedTitle : gostring;
  UploadedAuthor : gostring;
  UploadedTotalChunks : Z;
  UploadProcessingTimeMs : Z;
  UploadStatus : gostring
}.

Record SourceChunk := {
  SourceChunkID : gostring;
  SourceText : gostring;
  SourceScore : spec_float;     (* a float64 *)
  SourceMetadata : ChunkMetadata
}.

Record QueryResponse := {
  Answer : gostring;
  Sources : list SourceChunk;
  QueryProcessingTimeMs : Z
}.

End models.

(* ====================================================================== *)
(** * Package storage: mongodb.go                                          *)
(* ====================================================================== *)

Module storage.
Import models.

(** The collection behind a [MongoStore]: the documents it holds, or the
    error its driver reports, from [Find] or later from [cursor.All].
    [Find] with the filter [{"book_id": id}] is the driver's equality match
    on that field, with the empty filter it returns every document; the
    driver is not part of the repository. *)
Inductive MongoStore :=
| Serving (docs : list Chunk)
| FindFails (e : error)
| DecodeFails (e : error).

Inductive Cursor :=
| Rows (docs : list Chunk)
| Corrupt (e : error).

Definition Find (s : MongoStore) (query : option gostring) : result Cursor :=
  match s with
  | FindFails e => Err e
  | DecodeFails e => Ok (Corrupt e)
  | Serving docs =>
    match query with
    | None => Ok (Rows docs)
    | Some id => Ok (Rows (filter (fun c => BookID c = id) docs))
    end
  end.

Definition All (cursor : Cursor) : result (list Chunk) :=
  match cursor with
  | Rows docs => Ok docs
  | Corrupt e => Err e
  end.

(** [cosineSimilarity]: the loop accumulates the dot product and the two
    squared norms. *)
Fixpoint cosine_loop (a b : list spec_float) (acc : spec_float * spec_float * spec_float)
  : spec_float * spec_float * spec_float :=
  match a, b with
  | x :: a', y :: b' =>
    let '(dotProduct, normA, normB) := acc in
    cosine_loop a' b'
      (float32.add dotProduct (float32.mul x y),
       float32.add normA (float32.mul x x),
       float32.add normB (float32.mul y y))
  | _, _ => acc
  end.

Definition cosineSimilarity (a b : list spec_float) : spec_float :=
  if negb (length a =? length b)%nat then float32.zero
  else
    let '(dotProduct, normA, normB) :=
      cosine_loop a b (float32.zero, float32.zero, float32.zero) in
    if float32.eqb normA float32.zero || float32.eqb normB float32.zero
    then float32.zero
    else float32.div dotProduct (float32.mul (sqrt normA) (sqrt normB)).

(** The sort of [SimpleVectorSearch]:
    [if results[j].Score > results[i].Score { swap }]
    for [i] in [0, len-1) and [j] in [i+1, len). *)
Definition swap_if_greater (i j : nat) (results : list SearchResult)
  : list SearchResult :=
  match results !! i, results !! j with
  | Some ri, Some rj =>
    if float64.gtb (Score rj) (Score ri)
    then <[i := rj]> (<[j := ri]> results)
    else results
  | _, _ => results
  end.

Definition sort_inner (i : nat) (results : list SearchResult) : list SearchResult :=
  foldl (fun rs j => swap_if_greater i j rs) results
        (seq (S i) (length results - S i)).

Definition sort_results (results : list SearchResult) : list SearchResult :=
  foldl (fun rs i => sort_inner i rs) results (seq 0 (length results - 1)).

(** The candidates that are scored: those whose vector has the length of
    the query vector. *)
Definition score_chunks (queryEmbedding : list spec_float) (chunks : list Chunk)
  : list SearchResult :=
  omap (fun chunk =>
          if negb (length (Embedding chunk) =? length queryEmbedding)%nat
          then None
          else Some (mkSearchResult chunk
                       (float64.of_float32 (cosineSimilarity queryEmbedding (Embedding chunk)))))
       chunks.

Definition SimpleVectorSearch (s : MongoStore) (queryEmbedding : list spec_float)
    (limit : Z) (bookID : gostring) : outcome (result (list SearchResult)) :=
  let query := if decide (bookID = []) then None else Some bookID in
  match Find s query with
  | Err e => Returned (Err (ErrFetchChunks e))
  | Ok cursor =>
    match All cursor with
    | Err e => Returned (Err (ErrDecodeChunks e))
    | Ok chunks =>
      let results := score_chunks queryEmbedding chunks in
      let results := sort_results results in
      if limit <? len results
      then match slice results 0 limit with
           | Some results => Returned (Ok results)
           | None => Panicked
           end
      else Returned (Ok results)
    end
  end.

(** The errors of [InsertChunks], with their wrapping. *)
Inductive store_error :=
| ErrNoChunks                      (* "no chunks to insert" *)
| ErrInsertChunks (e : error).     (* "failed to insert chunks: %w" *)

(** [InsertChunks]: [insertMany] is the driver's [InsertMany] on the
    collection, which reports an error or nothing. *)
Definition InsertChunks (insertMany : list Chunk -> option error)
    (chunks : list Chunk) : option store_error :=
  if len chunks =? 0 then Some ErrNoChunks
  else
    let docs := chunks in
    match insertMany docs with
    | Some e => Some (ErrInsertChunks e)
    | None => None
    end.

End storage.

(* ====================================================================== *)
(** * Package services: embedder.go                                        *)
(* ====================================================================== *)

Module embedder.

Record Embedder := NewEmbedder { BaseURL : gostring; Model : gostring }.

(** What the embedder takes from outside the repository: the Unicode case
    tables behind [strings.ToLower], and the exchange with the remote
    embedding endpoint (base URL, model, prompt), which ends in the decoded
    vector or in an error. *)
Record runtime := {
  unicode_lower : gostring -> gostring;
  ollama : gostring -> gostring -> gostring -> result (list spec_float)
}.

(** The map [wordCounts] holds one entry per distinct word, here in the
    order of first insertion.  [for word, count := range wordCounts] visits
    the entries in an order chosen by the Go runtime at every loop: a
    [map_order] is that choice. *)
Definition wordmap := list (gostring * Z).
Definition map_order := wordmap -> wordmap.

(** [wordCounts[word]++] *)
Fixpoint incr (word : gostring) (m : wordmap) : wordmap :=
  match m with
  | [] => [(word, 1)]
  | (w, n) :: m' =>
    if decide (w = word) then (w, n + 1) :: m' else (w, n) :: incr word m'
  end.

(** The cutset of [strings.Trim]: full stop, comma, exclamation and
    question mark, semicolon, colon, double quote (byte 34), single quote,
    and the round, square and curly brackets. *)
Definition cutset : gostring :=
  str ".,!?;:" ++ ["034"%char; "039"%char] ++ str "()[]{}".

Definition count_words (words : list gostring) : wordmap :=
  foldl (fun m word =>
           let word := strings.Trim word cutset in
           if 0 <? len word then incr word m else m)
        [] words.

(** [for _, char := range word { hash = hash*31 + int(char) }] *)
Definition hash_word (word : gostring) : Z :=
  foldl (fun hash char => wrap64 (hash * 31 + char)) 0
        (map fst (utf8.range word)).

Definition bucket (word : gostring) : nat :=
  Z.to_nat (Z.rem (Z.land (hash_word word) 0x7FFFFFFF) 128).

(** [embedding[pos] += float32(count) / float32(len(words))] *)
Definition add_word (nwords : Z) (embedding : list spec_float)
    (entry : gostring * Z) : list spec_float :=
  alter (fun v => float32.add v
                    (float32.div (float32.of_int (snd entry)) (float32.of_int nwords)))
        (bucket (fst entry)) embedding.

Definition generateSimpleEmbedding (rt : runtime) (order : map_order)
    (text : gostring) : list spec_float :=
  let text := strings.ToLower (unicode_lower rt) text in
  let words := strings.Fields text in
  let embedding := replicate 128 float32.zero in
  let wordCounts := count_words words in
  let embedding := foldl (add_word (len words)) embedding (order wordCounts) in
  let norm := foldl (fun norm val => float32.add norm (float32.mul val val))
                    float32.zero embedding in
  if float32.gtb norm float32.zero
  then let norm := sqrt norm in map (fun v => float32.div v norm) embedding
  else embedding.

Definition GenerateEmbedding (rt : runtime) (order : map_order) (e : Embedder)
    (text : gostring) : result (list spec_float) :=
  if decide (Model e = str "simple")
  then Ok (generateSimpleEmbedding rt order text)
  else match ollama rt (BaseURL e) (Model e) text with
       | Err err => Err err
       | Ok embedding =>
         if len embedding =? 0 then Err ErrEmptyEmbedding else Ok embedding
       end.

(** The sequential loop shared by [GenerateEmbeddings] and by the remote
    path of [GenerateEmbeddingsBatch]; [orders i] is the map order of the
    call made for item [i]. *)
Fixpoint embed_from (rt : runtime) (orders : nat -> map_order) (e : Embedder)
    (i : nat) (texts : list gostring) : result (list (list spec_float)) :=
  match texts with
  | [] => Ok []
  | text :: texts' =>
    match GenerateEmbedding rt (orders i) e text with
    | Err err => Err (ErrChunk (Z.of_nat i) err)
    | Ok embedding =>
      match embed_from rt orders e (S i) texts' with
      | Err err => Err err
      | Ok embeddings => Ok (embedding :: embeddings)
      end
    end
  end.

Definition GenerateEmbeddings (rt : runtime) (orders : nat -> map_order)
    (e : Embedder) (texts : list gostring) : result (list (list spec_float)) :=
  embed_from rt orders e 0 texts.

(** [GenerateEmbeddingsBatch].  In simple mode one goroutine per text
    computes its embedding and stores it in [embeddings[idx]] inside the
    critical section of the mutex; [sched] is the order in which the
    goroutines enter that section before [wg.Wait()] returns, a permutation
    of the indices.  The log line written after the wait divides the
    elapsed time by [time.Duration(len(texts))], an integer division. *)
Definition GenerateEmbeddingsBatch (rt : runtime) (orders : nat -> map_order)
    (sched : list nat) (e : Embedder) (texts : list gostring) (batchSize : Z)
  : outcome (result (list (list spec_float))) :=
  let embeddings := replicate (length texts) [] in
  if decide (Model e = str "simple") then
    let embeddings :=
      foldl (fun embs idx =>
               <[idx := generateSimpleEmbedding rt (orders idx)
                          (default [] (texts !! idx))]> embs)
            embeddings sched in
    if len texts =? 0 then Panicked      (* integer divide by zero *)
    else Returned (Ok embeddings)
  else Returned (embed_from rt orders e 0 texts).

(** [GetEmbeddingDimension]: the length of the embedding of ["test"]. *)
Definition GetEmbeddingDimension (rt : runtime) (order : map_order) (e : Embedder)
  : result Z :=
  match GenerateEmbedding rt order e (str "test") with
  | Err err => Err err
  | Ok testEmbed => Ok (len testEmbed)
  end.

End embedder.

(* ====================================================================== *)
(** * Package services: retriever.go                                       *)
(* ====================================================================== *)

Module retriever.
Import models.

Record Retriever := NewRetriever {
  store : storage.MongoStore;
  embedder_ : embedder.Embedder
}.

Definition Retrieve (rt : embedder.runtime) (order : embedder.map_order)
    (r : Retriever) (query : gostring) (topK : Z) (bookID : gostring)
  : outcome (result (list SearchResult)) :=
  match embedder.GenerateEmbedding rt order (embedder_ r) query with
  | Err err => Returned (Err (ErrQueryEmbedding err))
  | Ok queryEmbedding =>
    match storage.SimpleVectorSearch (store r) queryEmbedding topK bookID with
    | Returned (Err err) => Returned (Err (ErrVectorSearch err))
    | Returned (Ok results) => Returned (Ok results)
    | Panicked => Panicked
    end
  end.

End retriever.

(* ====================================================================== *)
(** * Package config and the query handler of the controller               *)
(* ====================================================================== *)

Module controller.
Import models.

Record Config := { ChunkSize : Z; ChunkOverlap : Z; TopK : Z }.

(** [topK := req.TopK; if topK <= 0 { topK = rc.config.TopK }] *)
Definition QueryBook_topK (cfg : Config) (req : QueryRequest) : Z :=
  if ReqTopK req <=? 0 then TopK cfg else ReqTopK req.

Inductive retrieval :=
| BadRequest                       (* "book_id is required" *)
| Retrieved (r : outcome (result (list SearchResult))).

(** [QueryBook], from the validated request to the call of the retriever. *)
Definition QueryBook_retrieve (rt : embedder.runtime) (order : embedder.map_order)
    (cfg : Config) (r : retriever.Retriever) (req : QueryRequest) : retrieval :=
  if decide (ReqBookID req = []) then BadRequest
  else Retrieved (retriever.Retrieve rt order r (Question req)
                    (QueryBook_topK cfg req) (ReqBookID req)).

End controller.

(* ====================================================================== *)
(** * Package config                                                       *)
(* ====================================================================== *)

Module config.

Record Config := {
  MongoURI : gostring;
  MongoDatabase : gostring;
  MongoCollection : gostring;
  OllamaURL : gostring;
  OllamaEmbedModel : gostring;
  OllamaLLMModel : gostring;
  Port : gostring;
  Environment : gostring;
  ChunkSize : Z;
  ChunkOverlap : Z;
  TopK : Z
}.

(** The process environment [env] stands for [os.Getenv]: the value of a
    variable, the empty string when it is not set. *)
Definition getEnv (env : gostring -> gostring) (key defaultValue : gostring)
  : gostring :=
  let value := env key in
  if decide (value = []) then defaultValue else value.

Definition getEnvInt (env : gostring -> gostring) (key : gostring)
    (defaultValue : Z) : Z :=
  let valueStr := env key in
  if decide (valueStr = []) then defaultValue
  else match strconv.Atoi valueStr with
       | None => defaultValue
       | Some value => value
       end.

Definition Load (env : gostring -> gostring) : Config :=
  {| MongoURI := getEnv env (str "MONGO_URI") (str "mongodb://localhost:27017");
     MongoDatabase := getEnv env (str "MONGO_DATABASE") (str "rag_db");
     MongoCollection := getEnv env (str "MONGO_COLLECTION") (str "chunks");
     OllamaURL := getEnv env (str "OLLAMA_URL") (str "http://localhost:11434");
     OllamaEmbedModel := getEnv env (str "OLLAMA_EMBEDDING_MODEL") (str "simple");
     OllamaLLMModel := getEnv env (str "OLLAMA_LLM_MODEL") (str "llama3.2:3b");
     Port := getEnv env (str "PORT") (str "8080");
     Environment := getEnv env (str "ENVIRONMENT") (str "development");
     ChunkSize := getEnvInt env (str "CHUNK_SIZE") 500;
     ChunkOverlap := getEnvInt env (str "CHUNK_OVERLAP") 50;
     TopK := getEnvInt env (str "TOP_K") 5 |}.

End config.

(* ====================================================================== *)
(** * Package services: the generator                                      *)
(* ====================================================================== *)

Module generator.

Record Generator := NewGenerator { BaseURL : gostring; Model : gostring }.

(** The exchange with the generation endpoint, which is not part of the
    repository: [post url model prompt] is the HTTP POST of the request
    [{model, prompt, stream: false}], ending in a transport error or in a
    status code with a body; [decode body] is the field [response] of the
    JSON body, or the error of the decoder. *)
Record transport := {
  post : gostring -> gostring -> gostring -> (Z * gostring) + error;
  decode : gostring -> gostring + error
}.

Inductive gen_error :=
| ErrCall (e : error)                       (* "failed to call Ollama API: %w" *)
| ErrStatus (code : Z) (body : gostring)    (* "Ollama API error (status %d): %s" *)
| ErrDecodeResponse (e : error)             (* "failed to decode response: %w" *)
| ErrEmptyResponse.                         (* "received empty response from Ollama" *)

Definition nl : gostring := ["010"%char].
Definition quote : gostring := ["034"%char].

(** The four lines of the system instruction. *)
Definition instruction : gostring :=
  str "You are a helpful assistant answering questions about a book." ++ nl
  ++ str "Use ONLY the following context passages to answer the question." ++ nl
  ++ str "If the answer cannot be found in the context, say " ++ quote
  ++ str "I cannot find this information in the provided text." ++ quote ++ nl
  ++ str "Be concise and accurate. Cite specific details from the context when possible."
  ++ nl ++ nl.

(** [fmt.Sprintf("[%d] %s\n\n", i+1, context)] *)
Definition passage (i : Z) (context : gostring) : gostring :=
  str "[" ++ strconv.Itoa (i + 1) ++ str "] " ++ context ++ nl ++ nl.

(** The loop [for i, context := range contexts] on the builder [sb]. *)
Fixpoint write_passages (sb : gostring) (i : Z) (contexts : list gostring)
  : gostring :=
  match contexts with
  | [] => sb
  | context :: contexts' =>
    write_passages (sb ++ passage i context) (i + 1) contexts'
  end.

Definition buildPrompt (query : gostring) (contexts : list gostring) : gostring :=
  let sb := instruction in
  let sb := sb ++ str "Context:" ++ nl in
  let sb := sb ++ str "---" ++ nl in
  let sb := write_passages sb 0 contexts in
  let sb := sb ++ str "---" ++ nl ++ nl in
  let sb := sb ++ str "Question: " ++ query ++ nl ++ nl in
  sb ++ str "Answer:".

(** The request and the checks on the reply: the decoded field
    [response] of a reply with status 200. *)
Definition generate (tr : transport) (g : Generator) (prompt : gostring)
  : gostring + gen_error :=
  match post tr (BaseURL g ++ str "/api/generate") (Model g) prompt with
  | inr e => inr (ErrCall e)
  | inl (code, body) =>
    if negb (code =? 200) then inr (ErrStatus code body)
    else match decode tr body with
         | inr e => inr (ErrDecodeResponse e)
         | inl response => inl response
         end
  end.

Definition GenerateResponse (tr : transport) (g : Generator)
    (query : gostring) (contexts : list gostring) : gostring + gen_error :=
  let prompt := buildPrompt query contexts in
  match generate tr g prompt with
  | inr e => inr e
  | inl response =>
    if decide (response = []) then inr ErrEmptyResponse
    else inl (strings.TrimSpace response)
  end.

End generator.

(* ====================================================================== *)
(** * Package controllers: the two handlers                                *)
(* ====================================================================== *)

Module controllers.
Import models.

Record RAGController := {
  config_ : config.Config;
  store : storage.MongoStore;
  chunker_ : chunker.Chunker;
  embedder_ : embedder.Embedder;
  generator_ : generator.Generator;
  retriever_ : retriever.Retriever
}.

(** [NewRAGController]; the two connection tests only write to the log. *)
Definition NewRAGController (cfg : config.Config) (store : storage.MongoStore)
  : RAGController :=
  let chunker := chunker.NewChunker (config.ChunkSize cfg) (config.ChunkOverlap cfg) in
  let embedder := embedder.NewEmbedder (config.OllamaURL cfg) (config.OllamaEmbedModel cfg) in
  let generator := generator.NewGenerator (config.OllamaURL cfg) (config.OllamaLLMModel cfg) in
  let retriever := retriever.NewRetriever store embedder in
  {| config_ := cfg; store := store; chunker_ := chunker; embedder_ := embedder;
     generator_ := generator; retriever_ := retriever |}.

(** The fields of the configuration the query handler reads. *)
Definition query_config (cfg : config.Config) : controller.Config :=
  {| controller.ChunkSize := config.ChunkSize cfg;
     controller.ChunkOverlap := config.ChunkOverlap cfg;
     controller.TopK := config.TopK cfg |}.

(** [c.JSON(status, body)] *)
Inductive response (A : Type) : Type :=
| StatusOK (body : A)
| StatusBadRequest (msg : gostring)
| StatusNotFound (msg : gostring)
| StatusInternalServerError (msg : gostring).
Arguments StatusOK {A} body.
Arguments StatusBadRequest {A} msg.
Arguments StatusNotFound {A} msg.
Arguments StatusInternalServerError {A} msg.

(** What the web framework hands to [UploadBook]: a form that does not
    bind, a missing file, a file that cannot be opened or read, or the
    title, the author and the content of the file. *)
Inductive upload :=
| BindFails
| NoFile
| OpenFails
| ReadFails
| Uploaded (title author content : gostring).

(** What [UploadBook] takes from outside the repository: [oid k] is the
    [k]-th object identifier generated during the call, in hexadecimal;
    [now i] the time at which document [i] is built; [insertMany] the
    driver's insertion; [elapsed] the processing time in milliseconds. *)
Record upload_env := {
  oid : nat -> gostring;
  now : nat -> Z;
  insertMany : list Chunk -> option error;
  elapsed : Z
}.

(** The loop that builds [chunkDocs]; [None] when [embeddings[i]] is out
    of range. *)
Fixpoint chunk_docs (env : upload_env) (bookID title author : gostring)
    (embeddings : list (list spec_float)) (i : nat) (chunks : list gostring)
  : option (list Chunk) :=
  match chunks with
  | [] => Some []
  | chunkText :: chunks' =>
    match embeddings !! i with
    | None => None
    | Some embedding =>
      match chunk_docs env bookID title author embeddings (S i) chunks' with
      | None => None
      | Some docs =>
        Some ({| ID := oid env (S i);
                 BookID := bookID;
                 ChunkIndex := Z.of_nat i;
                 Text := chunkText;
                 Embedding := embedding;
                 Metadata := {| BookTitle := title;
                                BookAuthor := author;
                                CharacterStart := 0;
                                CharacterEnd := len chunkText;
                                MetaChunkSize := len chunkText |};
                 CreatedAt := now env i |} :: docs)
      end
    end
  end.

(** [UploadBook]: the response, and the documents the handler has handed
    to the driver's [InsertMany], the empty list when it returns before
    that call ([InsertChunks] never calls the driver with no document).
    When the driver reports no error these are the documents it has
    stored; when it reports one, how many of them it wrote before failing
    is the driver's matter, and the handler removes nothing.  [None]
    stands for a chunking loop that has not ended. *)
Definition UploadBook (rt : embedder.runtime) (orders : nat -> embedder.map_order)
    (sched : list nat) (env : upload_env) (rc : RAGController) (input : upload)
  : option (outcome (response UploadBookResponse * list Chunk)) :=
  match input with
  | BindFails => Some (Returned (StatusBadRequest (str "Invalid request"), []))
  | NoFile => Some (Returned (StatusBadRequest (str "No file uploaded"), []))
  | OpenFails =>
    Some (Returned (StatusInternalServerError (str "Failed to open file"), []))
  | ReadFails =>
    Some (Returned (StatusInternalServerError (str "Failed to read file"), []))
  | Uploaded title author text =>
    if len text =? 0
    then Some (Returned (StatusBadRequest (str "File is empty"), []))
    else
      match chunker.ChunkText (chunker_ rc) text with
      | None => None
      | Some Panicked => Some Panicked
      | Some (Returned chunks) =>
        if len chunks =? 0
        then Some (Returned (StatusBadRequest (str "Failed to chunk text"), []))
        else
          let bookID := oid env 0 in
          match embedder.GenerateEmbeddingsBatch rt orders sched (embedder_ rc)
                  chunks 1 with
          | Panicked => Some Panicked
          | Returned (Err _) =>
            Some (Returned (StatusInternalServerError
                              (str "Failed to generate embeddings"), []))
          | Returned (Ok embeddings) =>
            match chunk_docs env bookID title author embeddings 0 chunks with
            | None => Some Panicked
            | Some chunkDocs =>
              match storage.InsertChunks (insertMany env) chunkDocs with
              | Some _ =>
                Some (Returned (StatusInternalServerError
                                  (str "Failed to store chunks"), chunkDocs))
              | None =>
                Some (Returned
                  (StatusOK {| UploadedBookID := bookID;
                               UploadedTitle := title;
                               UploadedAuthor := author;
                               UploadedTotalChunks := len chunks;
                               UploadProcessingTimeMs := elapsed env;
                               UploadStatus := str "success" |},
                   chunkDocs))
              end
            end
          end
      end
  end.

(** [QueryBook], the whole handler; [None] is a request body that does
    not bind, [elapsed] the processing time in milliseconds. *)
Definition QueryBook (rt : embedder.runtime) (order : embedder.map_order)
    (tr : generator.transport) (elapsed : Z) (rc : RAGController)
    (input : option QueryRequest) : outcome (response QueryResponse) :=
  match input with
  | None => Returned (StatusBadRequest (str "Invalid request"))
  | Some req =>
    match controller.QueryBook_retrieve rt order (query_config (config_ rc))
            (retriever_ rc) req with
    | controller.BadRequest =>
      Returned (StatusBadRequest (str "book_id is required"))
    | controller.Retrieved Panicked => Panicked
    | controller.Retrieved (Returned (Err _)) =>
      Returned (StatusInternalServerError (str "Failed to retrieve chunks"))
    | controller.Retrieved (Returned (Ok results)) =>
      if len results =? 0
      then Returned (StatusNotFound (str "No relevant chunks found"))
      else
        let contexts := map (fun result => Text (SRChunk result)) results in
        match generator.GenerateResponse tr (generator_ rc) (Question req)
                contexts with
        | inr _ =>
          Returned (StatusInternalServerError (str "Failed to generate response"))
        | inl answer =>
          let sources :=
            map (fun result =>
                   {| SourceChunkID := ID (SRChunk result);
                      SourceText := Text (SRChunk result);
                      SourceScore := Score result;
                      SourceMetadata := Metadata (SRChunk result) |})
                results in
          Returned (StatusOK {| Answer := answer;
                                Sources := sources;
                                QueryProcessingTimeMs := elapsed |})
        end
    end
  end.

End controllers.

(* ====================================================================== *)
(** * Package evaluation                                                   *)
(* ====================================================================== *)

Module evaluation.
Import models.

Record Question := {
  QuestionID : Z;
  QuestionText : gostring;
  GroundTruth : gostring;
  RelevantKeywords : list gostring;
  BookSection : gostring;
  Notes : gostring
}.

Record EvaluationResult := {
  ResultQuestionID : Z;
  ResultQuestion : gostring;
  ResultAnswer : gostring;
  RetrievedChunks : Z;
  RelevantRetrieved : Z;
  ResponseTimeMs : Z;
  KeywordsFound : list gostring;
  Success : bool;
  FScore : spec_float          (* a float64 *)
}.

Record Metrics := {
  TotalQuestions : Z;
  SuccessfulQueries : Z;
  RetrievalAccuracy : spec_float;
  AvgResponseTime : spec_float;
  AvgChunksRetrieved : spec_float;
  AvgRelevantChunks : spec_float;
  AvgFScore : spec_float;
  Timestamp : gostring;
  Configuration : Z * Z * Z * gostring * gostring
}.

Record EvaluationReport := {
  ReportMetrics : Metrics;
  ReportResults : list EvaluationResult
}.

Record Evaluator := {
  config_ : config.Config;
  store : storage.MongoStore;
  retriever_ : retriever.Retriever;
  generator_ : generator.Generator
}.

Definition NewEvaluator (cfg : config.Config) (store : storage.MongoStore)
  : Evaluator :=
  let embedder := embedder.NewEmbedder (config.OllamaURL cfg) (config.OllamaEmbedModel cfg) in
  let generator := generator.NewGenerator (config.OllamaURL cfg) (config.OllamaLLMModel cfg) in
  let retriever := retriever.NewRetriever store embedder in
  {| config_ := cfg; store := store; retriever_ := retriever;
     generator_ := generator |}.

(** [containsKeyword]; [lower] is the table behind [strings.ToLower]. *)
Definition containsKeyword (lower : gostring -> gostring) (text keyword : gostring)
  : bool :=
  let text := strings.ToLower lower text in
  let keyword := strings.ToLower lower keyword in
  strings.Contains text keyword.

(** The inner loop of [checkKeywords], left by [break] at the first
    result that holds the keyword. *)
Fixpoint found_in (lower : gostring -> gostring) (keyword : gostring)
    (results : list SearchResult) : bool :=
  match results with
  | [] => false
  | result :: results' =>
    if containsKeyword lower (Text (SRChunk result)) keyword then true
    else found_in lower keyword results'
  end.

Definition checkKeywords (lower : gostring -> gostring) (keywords : list gostring)
    (results : list SearchResult) : list gostring :=
  foldl (fun found keyword =>
           if found_in lower keyword results then found ++ [keyword] else found)
        [] keywords.

(** One run of the loop of [CalculateFScore] over
    [truePositives, falsePositives, falseNegatives]. *)
Definition count_keyword (lower : gostring -> gostring)
    (predictedLower groundTruthLower : gostring) (acc : Z * Z * Z)
    (keyword : gostring) : Z * Z * Z :=
  let '(truePositives, falsePositives, falseNegatives) := acc in
  let keywordLower := strings.ToLower lower keyword in
  let inPredicted := strings.Contains predictedLower keywordLower in
  let inGroundTruth := strings.Contains groundTruthLower keywordLower in
  if inPredicted && inGroundTruth
  then (truePositives + 1, falsePositives, falseNegatives)
  else if inPredicted && negb inGroundTruth
  then (truePositives, falsePositives + 1, falseNegatives)
  else if negb inPredicted && inGroundTruth
  then (truePositives, falsePositives, falseNegatives + 1)
  else (truePositives, falsePositives, falseNegatives).

Definition keyword_counts (lower : gostring -> gostring)
    (predictedAnswer groundTruth : gostring) (keywords : list gostring)
  : Z * Z * Z :=
  let predictedLower := strings.ToLower lower predictedAnswer in
  let groundTruthLower := strings.ToLower lower groundTruth in
  foldl (count_keyword lower predictedLower groundTruthLower) (0, 0, 0) keywords.

(** [numerator / denominator] as float64, [0.0] for a denominator that
    is not positive. *)
Definition ratio (numerator denominator : Z) : spec_float :=
  if 0 <? denominator
  then float64.div (float64.of_int numerator) (float64.of_int denominator)
  else float64.zero.

Definition CalculateFScore (lower : gostring -> gostring)
    (predictedAnswer groundTruth : gostring) (keywords : list gostring)
  : spec_float :=
  let '(truePositives, falsePositives, falseNegatives) :=
    keyword_counts lower predictedAnswer groundTruth keywords in
  let precision := ratio truePositives (truePositives + falsePositives) in
  let recall := ratio truePositives (truePositives + falseNegatives) in
  if float64.gtb (float64.add precision recall) float64.zero
  then float64.div (float64.mul (float64.of_int 2) (float64.mul precision recall))
                   (float64.add precision recall)
  else float64.zero.

(** What [Evaluate] takes from outside the repository: the runtime of the
    embedder and the map order of the call for question [i], the exchange
    with the generation endpoint, the time question [i] took in
    milliseconds, and the time stamp of the report. *)
Record eval_env := {
  rt : embedder.runtime;
  orders : nat -> embedder.map_order;
  tr : generator.transport;
  elapsed : nat -> Z;
  timestamp : gostring
}.

(** The variables of the loop of [Evaluate]. *)
Record totals := mk_totals {
  results : list EvaluationResult;
  totalResponseTime : Z;
  totalRetrievedChunks : Z;
  totalRelevantChunks : Z;
  successfulQueries : Z
}.

(** One run of the loop body, for question [i]; a failed retrieval or a
    failed generation leaves the loop variables as they are ([continue]). *)
Definition evaluate_question (env : eval_env) (e : Evaluator) (bookID : gostring)
    (i : nat) (q : Question) (acc : totals) : outcome totals :=
  match retriever.Retrieve (rt env) (orders env i) (retriever_ e) (QuestionText q)
          (config.TopK (config_ e)) bookID with
  | Panicked => Panicked
  | Returned (Err _) => Returned acc
  | Returned (Ok searchResults) =>
    let contexts := map (fun result => Text (SRChunk result)) searchResults in
    match generator.GenerateResponse (tr env) (generator_ e) (QuestionText q)
            contexts with
    | inr _ => Returned acc
    | inl answer =>
      let responseTime := elapsed env i in
      let keywordsFound :=
        checkKeywords (embedder.unicode_lower (rt env)) (RelevantKeywords q)
                      searchResults in
      let relevantChunks := len keywordsFound in
      let success := 0 <? relevantChunks in
      let fScore :=
        CalculateFScore (embedder.unicode_lower (rt env)) answer (GroundTruth q)
                        (RelevantKeywords q) in
      let result :=
        {| ResultQuestionID := QuestionID q;
           ResultQuestion := QuestionText q;
           ResultAnswer := answer;
           RetrievedChunks := len searchResults;
           RelevantRetrieved := relevantChunks;
           ResponseTimeMs := responseTime;
           KeywordsFound := keywordsFound;
           Success := success;
           FScore := fScore |} in
      Returned (mk_totals (results acc ++ [result])
                  (wrap64 (totalResponseTime acc + responseTime))
                  (totalRetrievedChunks acc + len searchResults)
                  (totalRelevantChunks acc + relevantChunks)
                  (if success then successfulQueries acc + 1
                   else successfulQueries acc))
    end
  end.

Fixpoint evaluate_from (env : eval_env) (e : Evaluator) (bookID : gostring)
    (i : nat) (questions : list Question) (acc : totals) : outcome totals :=
  match questions with
  | [] => Returned acc
  | q :: questions' =>
    match evaluate_question env e bookID i q acc with
    | Panicked => Panicked
    | Returned acc' => evaluate_from env e bookID (S i) questions' acc'
    end
  end.

(** [Evaluate]: the error it returns is always [nil]. *)
Definition Evaluate (env : eval_env) (e : Evaluator) (questions : list Question)
    (bookID : gostring) : outcome EvaluationReport :=
  match evaluate_from env e bookID 0 questions (mk_totals [] 0 0 0 0) with
  | Panicked => Panicked
  | Returned acc =>
    let totalQuestions := len (results acc) in
    let totalFScore :=
      foldl (fun total result => float64.add total (FScore result))
            float64.zero (results acc) in
    Returned
      {| ReportMetrics :=
           {| TotalQuestions := totalQuestions;
              SuccessfulQueries := successfulQueries acc;
              RetrievalAccuracy := ratio (successfulQueries acc) totalQuestions;
              AvgResponseTime := ratio (totalResponseTime acc) totalQuestions;
              AvgChunksRetrieved := ratio (totalRetrievedChunks acc) totalQuestions;
              AvgRelevantChunks := ratio (totalRelevantChunks acc) totalQuestions;
              AvgFScore := if 0 <? totalQuestions
                           then float64.div totalFScore (float64.of_int totalQuestions)
                           else float64.zero;
              Timestamp := timestamp env;
              Configuration :=
                (config.ChunkSize (config_ e), config.ChunkOverlap (config_ e),
                 config.TopK (config_ e), config.OllamaEmbedModel (config_ e),
                 config.OllamaLLMModel (config_ e)) |};
         ReportResults := results acc |}
  end.

End evaluation.

(* ====================================================================== *)
(** * Predicates of the statements                                         *)
(* ====================================================================== *)

Section Predicates.
Import utf8 strings chunker.

(** A string that is exactly the encoding of one white-space rune. *)
Definition space_enc (e : gostring) : Prop :=
  exists r, DecodeRuneInString e = (r, length e) /\ unicode.IsSpace r = true.

(** The shape of a decoded rune: either one byte, or a valid sequence
    of [w >= 2] bytes, a leading byte followed by continuation bytes, that
    decodes the same way whatever follows it. *)
Definition wide (s : gostring) (r : Z) (w : nat) : Prop :=
  (2 <= w <= length s)%nat /\
  (exists c0, s !! 0%nat = Some c0 /\ 0xC2 <= code c0) /\
  (forall i, (1 <= i < w)%nat -> exists c, s !! i = Some c /\ is_cont (code c) = true) /\
  (forall t, DecodeRuneInString (take w s ++ t) = (r, w)).

Definition bytes (rs : list (Z * gostring)) : gostring := concat (map snd rs).

Definition nonspace (x : Z * gostring) : Prop := unicode.IsSpace (fst x) = false.

(** No white-space rune is encoded anywhere inside [g]. *)
Definition spacefree (g : gostring) : Prop :=
  forall h e t, g = h ++ e ++ t -> ~ space_enc e.

(** No white-space rune at the front, none at the back. *)
Definition lead_ok (s : gostring) : Prop :=
  forall e t, s = e ++ t -> ~ space_enc e.

Definition trail_ok (s : gostring) : Prop :=
  forall h e, s = h ++ e -> ~ space_enc e.

Definition right_trimmed (s : gostring) : Prop :=
  s = [] \/ unicode.IsSpace (fst (DecodeLastRuneInString s)) = false.

Definition tight (s : gostring) : Prop := s <> [] /\ lead_ok s /\ trail_ok s.

(** What one emitted chunk is: the trimmed, non-empty content of its
    window of the text. *)
Definition emitted (t : gostring) (chunk : gostring) (win : Z * Z) : Prop :=
  exists w, slice t (fst win) (snd win) = Some w
            /\ chunk = TrimSpace w /\ chunk <> [].

(** What one run of the body does to the state. *)
Definition body_post (c : Chunker) (t : gostring) (st st' : loop_state) : Prop :=
  iteration st' = iteration st + 1 /\
  ((maxIterations c t < iteration st' /\ start st' = start st
    /\ chunks st' = chunks st /\ windows st' = windows st)
   \/ (iteration st' <= maxIterations c t /\ start st < start st'
       /\ exists e, start st <= e <= len t
          /\ (0 <= ChunkSize c -> "010"%char ∉ t -> e <= start st + ChunkSize c)
          /\ ((chunks st' = chunks st /\ windows st' = windows st)
              \/ (exists chunk, emitted t chunk (start st, e)
                  /\ chunks st' = chunks st ++ [chunk]
                  /\ windows st' = windows st ++ [(start st, e)])))).

(** The invariant of the loop. *)
Definition inv (c : Chunker) (t : gostring) (st : loop_state) : Prop :=
  0 <= start st
  /\ Forall2 (emitted t) (chunks st) (windows st)
  /\ StronglySorted Z.lt (map fst (windows st))
  /\ Forall (fun w => fst w < start st) (windows st)
  /\ (0 <= ChunkSize c -> "010"%char ∉ t ->
      Forall (fun w => snd w - fst w <= ChunkSize c) (windows st)).

End Predicates.

Section SearchPredicates.
Import models storage embedder retriever controller.

(** No result among the first [m] is followed by one with a greater score. *)
Definition desc (m : nat) (rs : list SearchResult) : Prop :=
  forall i j ri rj, (i < m)%nat -> (i < j)%nat ->
    rs !! i = Some ri -> rs !! j = Some rj ->
    float64.gtb (Score rj) (Score ri) = false.

(** The invariant of the inner loop at [j = k]. *)
Definition inner_inv (n i k : nat) (rs : list SearchResult) : Prop :=
  length rs = n /\ desc i rs
  /\ forall j ri rj, (i < j < k)%nat ->
       rs !! i = Some ri -> rs !! j = Some rj ->
       float64.gtb (Score rj) (Score ri) = false.

(** The dot product and the squared L2 norm, as sums from the left. *)
Definition dot (a b : list spec_float) : spec_float :=
  foldl (fun acc p => float32.add acc (float32.mul (fst p) (snd p)))
        float32.zero (zip a b).

Definition sqnorm (a : list spec_float) : spec_float :=
  foldl (fun acc x => float32.add acc (float32.mul x x)) float32.zero a.

(** [cosineSimilarity] on vectors of one length, its loop written as the
    three sums: what the code computes, square roots by the helper [sqrt]
    of the repository included. *)
Definition cosine_of_sums (a b : list spec_float) : spec_float :=
  if float32.eqb (sqnorm a) float32.zero || float32.eqb (sqnorm b) float32.zero
  then float32.zero
  else float32.div (dot a b) (float32.mul (sqrt (sqnorm a)) (sqrt (sqnorm b))).

(** The L2 norm of a vector: the square root of the sum of its squares,
    rounded once to the nearest float32 as IEEE 754 defines the square
    root. *)
Definition l2norm (a : list spec_float) : spec_float :=
  SFsqrt float32.prec float32.emax (sqnorm a).

(** Cosine similarity as the specification words it, not as the code
    computes it: the dot product divided by the product of the two L2
    norms, zero when either norm is zero. *)
Definition cosine_spec (a b : list spec_float) : spec_float :=
  if float32.eqb (l2norm a) float32.zero || float32.eqb (l2norm b) float32.zero
  then float32.zero
  else float32.div (dot a b) (float32.mul (l2norm a) (l2norm b)).

(** The chunks the search looks at: all of them for the empty filter,
    those of the requested book otherwise. *)
Definition candidates (docs : list Chunk) (bookID : gostring) : list Chunk :=
  if decide (bookID = []) then docs
  else filter (fun c => BookID c = bookID) docs.

(** A scored candidate. *)
Definition scored (q : list spec_float) (c : Chunk) : SearchResult :=
  mkSearchResult c (float64.of_float32 (cosineSimilarity q (Embedding c))).

(** A map order the runtime may choose visits every entry once. *)
Definition valid_order (order : map_order) : Prop :=
  forall m, order m ≡ₚ m.

(** The iteration that starts at the second entry and wraps around. *)
Definition from_second : map_order := rotate 1.

(** Data of the examples. *)
Definition ex_chunk (book : string) (idx : Z) (emb : list Z) : Chunk :=
  {| ID := []; BookID := str book; ChunkIndex := idx; Text := [];
     Embedding := map float32.of_int emb;
     Metadata := {| BookTitle := []; BookAuthor := []; CharacterStart := 0;
                    CharacterEnd := 0; MetaChunkSize := 0 |};
     CreatedAt := 0 |}.

Definition ex_docs : list Chunk :=
  [ex_chunk "b1" 0 [1; 0]; ex_chunk "b2" 0 [1; 1]; ex_chunk "b1" 1 [1; 2; 3];
   ex_chunk "b1" 2 [3; 4]].

Definition ex_query : list spec_float := map float32.of_int [3; 4].

(** A store with the vector [1000, 0] and the vector [3, 1], and the query
    [1000, 0]. *)
Definition far_docs : list Chunk :=
  [ex_chunk "b1" 0 [1000; 0]; ex_chunk "b1" 1 [3; 1]].

Definition far_query : list spec_float := map float32.of_int [1000; 0].

(** Three words that fall into bucket 33, with counts 1, 2 and 3 among
    seven words. *)
Definition colliding_text : gostring := str "ab ef ef ij ij ij z".

(** One word followed by 4095 tokens that are punctuation only. *)
Definition sparse_text : gostring := str "a" ++ concat (replicate 4095 (str " .")).

Definition ex_runtime : runtime :=
  {| unicode_lower := id; ollama := fun _ _ _ => Err (ErrExternal []) |}.

Definition ex_request : QueryRequest :=
  {| Question := str "What is the capital of France?";
     ReqBookID := str "b1"; ReqTopK := 0 |}.

Definition ex_config : Config := {| ChunkSize := 500; ChunkOverlap := 50; TopK := 5 |}.



(** Three times the letter e with an acute accent, U+00E9, which UTF-8
    writes as the two bytes C3 A9: three characters in six bytes. *)
Definition accented_text : gostring :=
  ["195"; "169"; "195"; "169"; "195"; "169"]%char.

End SearchPredicates.

(* ====================================================================== *)
(** * Predicates and data of the further theorems                          *)
(* ====================================================================== *)

Section WideStore.
Import models storage embedder retriever.
(** Three chunks of two books with vectors of 128 components. *)
Definition wide_docs : list Chunk :=
  [ex_chunk "b1" 0 (replicate 128 1); ex_chunk "b2" 0 (replicate 128 2);
   ex_chunk "b1" 1 (replicate 128 3)].

Definition wide_retriever : Retriever :=
  NewRetriever (Serving wide_docs) (NewEmbedder [] (str "simple")).

End WideStore.

Section EchoEndpoint.
Import generator.
(** An endpoint that answers every request with status 200 and the body
    it was built with, decoded as it stands. *)
Definition echo_transport (body : gostring) : transport :=
  {| post := fun _ _ _ => inl (200, body);
     decode := fun body => inl body |}.
End EchoEndpoint.

Section UploadData.
Import models embedder controllers.
(** A driver that stores what it is given, identifiers "id0", "id1", ...,
    and a clock that stands still. *)
Definition ex_upload_env : upload_env :=
  {| oid := fun k => str "id" ++ strconv.Itoa (Z.of_nat k);
     now := fun _ => 0;
     insertMany := fun _ => None;
     elapsed := 0 |}.

(** The controller of the default configuration over an empty store. *)
Definition ex_controller : RAGController :=
  NewRAGController (config.Load (fun _ => [])) (storage.Serving []).

(** The document built for chunk [i]. *)
Definition chunk_doc (rt : runtime) (orders : nat -> map_order) (env : upload_env)
    (title author : gostring) (i : nat) (chunk : gostring) : Chunk :=
  {| ID := oid env (S i);
     BookID := oid env 0;
     ChunkIndex := Z.of_nat i;
     Text := chunk;
     Embedding := generateSimpleEmbedding rt (orders i) chunk;
     Metadata := {| BookTitle := title;
                    BookAuthor := author;
                    CharacterStart := 0;
                    CharacterEnd := len chunk;
                    MetaChunkSize := len chunk |};
     CreatedAt := now env i |}.
End UploadData.

Section QueryData.
Import models controllers.
(** The controller of the default configuration over [wide_docs]. *)
Definition wide_controller : RAGController :=
  NewRAGController (config.Load (fun _ => [])) (storage.Serving wide_docs).

(** The answer of [wide_controller] to [ex_request] when the generation
    endpoint replies "Paris." *)
Definition wide_response : QueryResponse :=
  match QueryBook ex_runtime id (echo_transport (str "Paris.")) 7
                  wide_controller (Some ex_request) with
  | Returned (StatusOK resp) => resp
  | _ => {| Answer := []; Sources := []; QueryProcessingTimeMs := 0 |}
  end.
End QueryData.

(** The float64 values that are a zero or not a number. *)
Definition zero_or_nan (x : spec_float) : Prop :=
  match x with
  | S754_zero _ | S754_nan => True
  | _ => False
  end.

Section EvaluationData.
Import models evaluation.

(** What every entry of a report satisfies. *)
Definition result_ok (r : EvaluationResult) : Prop :=
  RelevantRetrieved r = len (KeywordsFound r)
  /\ Success r = (0 <? RelevantRetrieved r)
  /\ 0 <= RetrievedChunks r.

(** What the loop of [Evaluate] obtains for question [i]: the results of
    the retrieval and the answer of the generator, or nothing when one of
    the two calls fails. *)
Definition completion (env : eval_env) (e : Evaluator) (bookID : gostring)
    (i : nat) (q : Question) : option (list SearchResult * gostring) :=
  match retriever.Retrieve (rt env) (orders env i) (retriever_ e) (QuestionText q)
          (config.TopK (config_ e)) bookID with
  | Returned (Ok searchResults) =>
    match generator.GenerateResponse (tr env) (generator_ e) (QuestionText q)
            (map (fun result => Text (SRChunk result)) searchResults) with
    | inl answer => Some (searchResults, answer)
    | inr _ => None
    end
  | _ => None
  end.

(** The entry [r] of the report is the one of question [q], asked at
    position [i], with the results [searchResults] and the answer
    [answer]. *)
Definition entry_of (env : eval_env) (i : nat) (q : Question)
    (searchResults : list SearchResult) (answer : gostring)
    (r : EvaluationResult) : Prop :=
  ResultQuestionID r = QuestionID q
  /\ ResultQuestion r = QuestionText q
  /\ ResultAnswer r = answer
  /\ RetrievedChunks r = len searchResults
  /\ ResponseTimeMs r = elapsed env i
  /\ KeywordsFound r
     = checkKeywords (embedder.unicode_lower (rt env)) (RelevantKeywords q)
                     searchResults
  /\ FScore r
     = CalculateFScore (embedder.unicode_lower (rt env)) answer (GroundTruth q)
                       (RelevantKeywords q)
  /\ result_ok r.

(** The questions that complete, from position [i] on, each with its
    position, its results and its answer. *)
Fixpoint completed_from (env : eval_env) (e : Evaluator) (bookID : gostring)
    (i : nat) (questions : list Question)
  : list (nat * Question * list SearchResult * gostring) :=
  match questions with
  | [] => []
  | q :: questions' =>
    match completion env e bookID i q with
    | Some (searchResults, answer) =>
      (i, q, searchResults, answer) :: completed_from env e bookID (S i) questions'
    | None => completed_from env e bookID (S i) questions'
    end
  end.

(** An endpoint that answers status 500 to every prompt in which [word]
    occurs, and status 200 with [body] to the others. *)
Definition refusing_transport (word body : gostring) : generator.transport :=
  {| generator.post := fun _ _ prompt =>
       if strings.Contains prompt word then inl (500, str "overloaded")
       else inl (200, body);
     generator.decode := fun body => inl body |}.

(** Three questions asked of [wide_docs], each in 7 ms; the generation
    endpoint answers "Paris." to the first and the third and fails on the
    second. *)
Definition ex_questions : list Question :=
  [{| QuestionID := 1; QuestionText := str "What is the capital of France?";
      GroundTruth := str "The capital is Paris.";
      RelevantKeywords := [str "Paris"]; BookSection := []; Notes := [] |};
   {| QuestionID := 2; QuestionText := str "Who wrote it?";
      GroundTruth := str "Nobody knows.";
      RelevantKeywords := []; BookSection := []; Notes := [] |};
   {| QuestionID := 3; QuestionText := str "Where is Paris?";
      GroundTruth := str "In France.";
      RelevantKeywords := []; BookSection := []; Notes := [] |}].

Definition ex_eval_env : eval_env :=
  {| rt := ex_runtime; orders := fun _ => id;
     tr := refusing_transport (str "Who wrote it?") (str "Paris.");
     elapsed := fun _ => 7;
     timestamp := str "2025-01-01T00:00:00Z" |}.

Definition ex_evaluator : Evaluator :=
  NewEvaluator (config.Load (fun _ => [])) (storage.Serving wide_docs).

Definition ex_report : EvaluationReport :=
  match Evaluate ex_eval_env ex_evaluator ex_questions (str "b1") with
  | Returned report => report
  | Panicked =>
    {| ReportMetrics :=
         {| TotalQuestions := 0; SuccessfulQueries := 0;
            RetrievalAccuracy := float64.zero; AvgResponseTime := float64.zero;
            AvgChunksRetrieved := float64.zero; AvgRelevantChunks := float64.zero;
            AvgFScore := float64.zero; Timestamp := [];
            Configuration := (0, 0, 0, [], []) |};
       ReportResults := [] |}
  end.
End EvaluationData.

Section RemoteModel.
Import models embedder controllers.
(** A remote embedding model that answers every prompt with a vector of
    three components, and the controller configured for it over
    [wide_docs], whose vectors have 128 components. *)
Definition remote_runtime : runtime :=
  {| unicode_lower := id;
     ollama := fun _ _ _ => Ok (map float32.of_int [1; 2; 3]) |}.

Definition remote_controller : RAGController :=
  NewRAGController
    (config.Load (fun key => if decide (key = str "OLLAMA_EMBEDDING_MODEL")
                             then str "nomic-embed-text" else []))
    (storage.Serving wide_docs).
End RemoteModel.

(* ====================================================================== *)
(** * UTF-8 decoding and the white-space functions of package strings      *)
(* ====================================================================== *)


Section Utf8Facts.
Import utf8.

Lemma code_range c : 0 <= code c < 256.
Proof.
  unfold code. pose proof (N_ascii_bounded c) as H. lia.
Qed.

Lemma lead_spec b lo hi sz :
  lead b = Some (lo, hi, sz) ->
  0xC2 <= b <= 0xF4 /\ 0x80 <= lo /\ hi <= 0xBF /\ (2 <= sz <= 4)%nat.
Proof.
  unfold lead.
  repeat (case_match; [ intros [= <- <- <-]; lia | ]).
  discriminate.
Qed.

Lemma IsSpace_RuneError : unicode.IsSpace RuneError = false.
Proof. reflexivity. Qed.

Lemma space_enc_nonempty e : space_enc e -> e <> [].
Proof. intros [r [H Hs]] ->. cbn in H. injection H as <-. discriminate. Qed.


Lemma decode_cases s r w :
  DecodeRuneInString s = (r, w) ->
  (s = [] /\ w = 0%nat /\ r = RuneError)
  \/ (s <> [] /\ w = 1%nat /\ r = RuneError)
  \/ (exists c s', s = c :: s' /\ code c < 0x80 /\ w = 1%nat /\ r = code c)
  \/ wide s r w.
Proof.
  destruct s as [|c0 s1]; [intros [= <- <-]; auto|].
  unfold DecodeRuneInString.
  destruct (code c0 <? RuneSelf) eqn:E0.
  { intros [= <- <-]. right; right; left. exists c0, s1.
    apply Z.ltb_lt in E0. unfold RuneSelf in E0. auto. }
  destruct (lead (code c0)) as [[[lo hi] sz]|] eqn:El;
    [|intros [= <- <-]; right; left; auto].
  apply lead_spec in El as El'. destruct El' as (Hb & Hlo & Hhi & Hsz).
  destruct (length (c0 :: s1) <? sz)%nat eqn:Elen;
    [intros [= <- <-]; right; left; auto|].
  apply Nat.ltb_ge in Elen.
  destruct s1 as [|c1 s2]; [intros [= <- <-]; right; left; auto|].
  destruct ((code c1 <? lo) || (hi <? code c1)) eqn:E1;
    [intros [= <- <-]; right; left; auto|].
  apply orb_false_iff in E1 as [E1a E1b].
  apply Z.ltb_ge in E1a, E1b.
  assert (Hc1 : is_cont (code c1) = true).
  { unfold is_cont. apply andb_true_iff. split; apply Z.leb_le; lia. }
  destruct (sz <=? 2)%nat eqn:E2.
  { intros [= <- <-]. right; right; right. apply Nat.leb_le in E2.
    assert (sz = 2%nat) as -> by lia.
    split; [cbn; lia|]. split; [exists c0; split; [done|lia]|].
    split.
    - intros i Hi. assert (i = 1%nat) as -> by lia. exists c1. done.
    - intros t. cbn [take app]. unfold DecodeRuneInString.
      rewrite E0, El. cbn [length]. 
      replace (S (S (length t)) <? 2)%nat with false by (symmetry; apply Nat.ltb_ge; lia).
      replace ((code c1 <? lo) || (hi <? code c1)) with false
        by (symmetry; apply orb_false_iff; split; apply Z.ltb_ge; lia).
      done. }
  apply Nat.leb_gt in E2.
  destruct s2 as [|c2 s3]; [intros [= <- <-]; right; left; auto|].
  destruct (negb (is_cont (code c2))) eqn:Ec2;
    [intros [= <- <-]; right; left; auto|].
  apply negb_false_iff in Ec2.
  destruct (sz <=? 3)%nat eqn:E3.
  { intros [= <- <-]. right; right; right. apply Nat.leb_le in E3.
    assert (sz = 3%nat) as -> by lia.
    split; [cbn; lia|]. split; [exists c0; split; [done|lia]|].
    split.
    - intros i Hi. assert (i = 1%nat \/ i = 2%nat) as [-> | ->] by lia;
        [exists c1|exists c2]; done.
    - intros t. cbn [take app]. unfold DecodeRuneInString.
      rewrite E0, El. cbn [length].
      replace (S (S (S (length t))) <? 3)%nat with false by (symmetry; apply Nat.ltb_ge; lia).
      replace ((code c1 <? lo) || (hi <? code c1)) with false
        by (symmetry; apply orb_false_iff; split; apply Z.ltb_ge; lia).
      rewrite Ec2. done. }
  apply Nat.leb_gt in E3.
  destruct s3 as [|c3 s4]; [intros [= <- <-]; right; left; auto|].
  destruct (negb (is_cont (code c3))) eqn:Ec3;
    [intros [= <- <-]; right; left; auto|].
  apply negb_false_iff in Ec3.
  intros [= <- <-]. right; right; right.
  assert (sz = 4%nat) as -> by lia.
  split; [cbn; lia|]. split; [exists c0; split; [done|lia]|].
  split.
  - intros i Hi. assert (i = 1%nat \/ i = 2%nat \/ i = 3%nat) as [-> | [-> | ->]] by lia;
      [exists c1|exists c2|exists c3]; done.
  - intros t. cbn [take app]. unfold DecodeRuneInString.
    rewrite E0, El. cbn [length].
    replace (S (S (S (S (length t)))) <? 4)%nat with false by (symmetry; apply Nat.ltb_ge; lia).
    replace ((code c1 <? lo) || (hi <? code c1)) with false
      by (symmetry; apply orb_false_iff; split; apply Z.ltb_ge; lia).
    rewrite Ec2, Ec3. done.
Qed.


Lemma decode_width s r w :
  s <> [] -> DecodeRuneInString s = (r, w) -> (1 <= w <= length s)%nat.
Proof.
  intros Hs H. apply decode_cases in H as [H|[H|[H|H]]].
  - by destruct H.
  - destruct H as (_ & -> & _). destruct s; [done|cbn; lia].
  - destruct H as (c & s' & -> & _ & -> & _). cbn; lia.
  - destruct H as (H & _). lia.
Qed.

(** A rune that is white space was decoded from a valid encoding. *)
Lemma decode_space s r w :
  DecodeRuneInString s = (r, w) -> unicode.IsSpace r = true ->
  (exists c s', s = c :: s' /\ code c < 0x80 /\ w = 1%nat /\ r = code c)
  \/ wide s r w.
Proof.
  intros H Hs.
  apply decode_cases in H as [(_ & _ & ->)|[(_ & _ & ->)|[H|H]]]; auto;
    rewrite IsSpace_RuneError in Hs; done.
Qed.

Lemma decode_ascii c t : code c < 0x80 -> DecodeRuneInString (c :: t) = (code c, 1%nat).
Proof.
  intros H. unfold DecodeRuneInString.
  replace (code c <? RuneSelf) with true; [done|].
  symmetry. apply Z.ltb_lt. done.
Qed.

Lemma space_enc_shape e :
  space_enc e ->
  (exists c, e = [c] /\ code c < 0x80 /\ unicode.IsSpace (code c) = true)
  \/ (exists r, wide e r (length e) /\ unicode.IsSpace r = true).
Proof.
  intros (r & H & Hs).
  destruct (decode_space _ _ _ H Hs) as [(c & s' & -> & Hc & Hw & ->)|Hw].
  - left. exists c. destruct s'; [done|cbn in Hw; lia].
  - right. eauto.
Qed.

Lemma space_enc_stable e t :
  space_enc e -> exists r, DecodeRuneInString (e ++ t) = (r, length e) /\ unicode.IsSpace r = true.
Proof.
  intros He. destruct (space_enc_shape _ He) as [(c & -> & Hc & Hs)|(r & Hw & Hs)].
  - exists (code c). split; [|done]. cbn [app]. by apply decode_ascii.
  - exists r. split; [|done]. destruct Hw as (_ & _ & _ & Hst).
    specialize (Hst t). by rewrite firstn_all in Hst.
Qed.

(** The first byte of such an encoding is not a continuation byte, the
    others all are. *)
Lemma space_enc_head e :
  space_enc e -> exists c e', e = c :: e' /\ RuneStart (code c) = true.
Proof.
  intros He. destruct (space_enc_shape _ He) as [(c & -> & Hc & Hs)|(r & Hw & Hs)].
  - exists c, []. split; [done|]. unfold RuneStart, is_cont.
    apply negb_true_iff, andb_false_iff. left. apply Z.leb_gt. lia.
  - destruct Hw as (_ & (c0 & H0 & Hc0) & _). destruct e as [|c e']; [done|].
    injection H0 as ->. exists c0, e'. split; [done|].
    unfold RuneStart, is_cont. apply negb_true_iff, andb_false_iff. right.
    apply Z.leb_gt. lia.
Qed.

Lemma space_enc_tail e i c :
  space_enc e -> (1 <= i)%nat -> e !! i = Some c -> is_cont (code c) = true.
Proof.
  intros He Hi Hc. destruct (space_enc_shape _ He) as [(c' & -> & _)|(r & Hw & Hs)].
  - destruct i; [lia|]. done.
  - destruct Hw as (_ & _ & Hk & _).
    apply lookup_lt_Some in Hc as Hlt.
    destruct (Hk i) as (c' & Hc' & Hcont); [lia|]. congruence.
Qed.

Lemma decode_space_enc s r w :
  DecodeRuneInString s = (r, w) -> unicode.IsSpace r = true ->
  (1 <= w <= length s)%nat /\ space_enc (take w s).
Proof.
  intros H Hs.
  destruct (decode_space _ _ _ H Hs) as [(c & s' & -> & Hc & -> & ->)|Hw].
  - split; [cbn; lia|]. exists (code c). cbn. split; [|done]. by apply decode_ascii.
  - destruct Hw as ((H1 & H2) & _ & _ & Hst). split; [lia|].
    exists r. split; [|done]. specialize (Hst []). rewrite app_nil_r in Hst.
    rewrite Hst. f_equal. rewrite length_take. lia.
Qed.


Lemma range_fuel_enough n m s :
  (length s <= n)%nat -> (length s <= m)%nat -> range_fuel n s = range_fuel m s.
Proof.
  revert m s. induction n as [|n IH]; intros m s Hn Hm.
  - destruct s; [|cbn in Hn; lia]. by destruct m.
  - destruct s as [|c s']; [by destruct m|].
    destruct m as [|m]; [cbn in Hm; lia|].
    cbn [range_fuel].
    destruct (DecodeRuneInString (c :: s')) as [r w] eqn:E.
    apply decode_width in E as Hw; [|done].
    f_equal. apply IH; rewrite length_drop; cbn in *; lia.
Qed.

Lemma range_nil : range [] = [].
Proof. reflexivity. Qed.

Lemma range_cons s r w :
  s <> [] -> DecodeRuneInString s = (r, w) ->
  range s = (r, take w s) :: range (drop w s).
Proof.
  intros Hs E. destruct s as [|c s']; [done|].
  unfold range at 1. cbn [length range_fuel]. rewrite E. f_equal.
  apply decode_width in E as Hw; [|done].
  apply range_fuel_enough; rewrite length_drop; cbn in *; lia.
Qed.

(** The bytes of the runes, put together, are the string. *)
Lemma range_bytes s : concat (map snd (range s)) = s.
Proof.
  remember (length s) as n eqn:Hn. revert s Hn.
  induction n as [n IH] using lt_wf_ind. intros s Hn.
  destruct s as [|c s']; [done|].
  destruct (DecodeRuneInString (c :: s')) as [r w] eqn:E.
  rewrite (range_cons _ r w) by done.
  apply decode_width in E as Hw; [|done].
  cbn [map concat snd].
  rewrite (IH (length (drop w (c :: s')))); [apply take_drop| |done].
  rewrite length_drop. subst n. cbn in *. lia.
Qed.

(** Every byte that is not a continuation byte starts a rune. *)
Lemma range_split h v :
  (v = [] \/ exists c v', v = c :: v' /\ RuneStart (code c) = true) ->
  exists ra, range (h ++ v) = ra ++ range v /\ concat (map snd ra) = h.
Proof.
  intros Hv.
  remember (length h) as n eqn:Hn. revert h Hn.
  induction n as [n IH] using lt_wf_ind. intros h Hn.
  destruct h as [|c h']; [by exists []|].
  destruct (DecodeRuneInString ((c :: h') ++ v)) as [r w] eqn:E.
  rewrite (range_cons _ r w) by done.
  apply decode_width in E as Hw; [|done].
  destruct (decide (w <= length (c :: h'))%nat) as [Hle|Hgt].
  - rewrite take_app_le, drop_app_le by done.
    destruct (IH (length (drop w (c :: h')))) with (h := drop w (c :: h'))
      as (ra & Hra & Hb); [rewrite length_drop; subst n; lia|done|].
    exists ((r, take w (c :: h')) :: ra). rewrite Hra. split; [done|].
    cbn [map concat snd]. rewrite Hb. apply take_drop.
  - exfalso.
    apply decode_cases in E as [E|[E|[E|E]]].
    + by destruct E.
    + destruct E as (_ & -> & _). cbn in Hgt. lia.
    + destruct E as (? & ? & _ & _ & -> & _). cbn in Hgt. lia.
    + destruct E as (_ & _ & Hk & _).
      destruct (Hk (length (c :: h'))) as (c' & Hc' & Hcont); [cbn in *; lia|].
      rewrite lookup_app_r in Hc' by done. rewrite Nat.sub_diag in Hc'.
      destruct Hv as [->|(c'' & v' & -> & Hrs)]; [done|].
      injection Hc' as ->. unfold RuneStart in Hrs. rewrite Hcont in Hrs. done.
Qed.

Lemma range_app_inv s ra rb :
  range s = ra ++ rb ->
  s = concat (map snd ra) ++ concat (map snd rb)
  /\ rb = range (concat (map snd rb)).
Proof.
  revert s. induction ra as [|x ra IH]; intros s H.
  - cbn in *. rewrite <- H, range_bytes. done.
  - destruct s as [|c s']; [done|].
    destruct (DecodeRuneInString (c :: s')) as [r w] eqn:E.
    rewrite (range_cons _ r w) in H by done.
    injection H as <- H. apply IH in H as [H1 H2].
    split; [|done]. cbn [map concat snd]. rewrite <- app_assoc, <- H1.
    symmetry. apply take_drop.
Qed.

End Utf8Facts.

Section StringsFacts.
Import utf8 strings.

Lemma range_rune_nonempty s x : x ∈ range s -> snd x <> [].
Proof.
  remember (length s) as n eqn:Hn. revert s Hn.
  induction n as [n IH] using lt_wf_ind. intros s Hn Hx.
  destruct s as [|c s']; [by apply elem_of_nil in Hx|].
  destruct (DecodeRuneInString (c :: s')) as [r w] eqn:E.
  rewrite (range_cons _ r w) in Hx by done.
  apply decode_width in E as Hw; [|done].
  apply elem_of_cons in Hx as [->|Hx].
  - cbn [snd]. intros H. apply (f_equal length) in H. rewrite length_take in H.
    cbn in *. lia.
  - eapply (IH (length (drop w (c :: s')))); [|done|done].
    rewrite length_drop. subst n. cbn in *. lia.
Qed.

(** A run of non-space runes of a string holds no white space. *)
Lemma run_spacefree s ra run rb :
  range s = ra ++ run ++ rb -> Forall nonspace run -> spacefree (bytes run).
Proof.
  intros Hr Hrun h e t Hg He.
  apply range_app_inv in Hr as [_ Hr].
  (* the suffix of [s] that starts at the run *)
  set (u := concat (map snd (run ++ rb))) in Hr.
  assert (Hu : u = h ++ (e ++ t ++ bytes rb)).
  { unfold u. rewrite map_app, concat_app. fold (bytes run). rewrite Hg.
    by rewrite <- !app_assoc. }
  destruct (space_enc_head _ He) as (c & e' & -> & Hc).
  destruct (range_split h ((c :: e') ++ t ++ bytes rb)) as (ra' & Hsplit & Hb).
  { right. eauto. }
  rewrite <- Hu, <- Hr in Hsplit.
  destruct (space_enc_stable _ (t ++ bytes rb) He) as (r & Hd & Hs).
  rewrite (range_cons _ r (length (c :: e'))) in Hsplit by done.
  rewrite take_app_length in Hsplit.
  (* the white-space rune sits inside the run *)
  assert (Hlen : (length ra' < length run)%nat).
  { destruct (decide (length ra' < length run)%nat) as [|Hge]; [done|exfalso].
    apply (f_equal (take (length run))) in Hsplit.
    rewrite take_app_length in Hsplit.
    rewrite take_app_le in Hsplit by lia.
    assert (Hpre : bytes run `prefix_of` h).
    { rewrite <- Hb, Hsplit. unfold bytes.
      exists (concat (map snd (drop (length run) ra'))).
      rewrite <- concat_app, <- map_app, take_drop. done. }
    apply prefix_length in Hpre. rewrite Hg in Hpre.
    rewrite !length_app in Hpre. cbn in Hpre. lia. }
  assert (Hin : run !! length ra' = Some (r, c :: e')).
  { apply (f_equal (fun l => l !! length ra')) in Hsplit.
    rewrite lookup_app_l in Hsplit by done.
    rewrite lookup_app_r, Nat.sub_diag in Hsplit by done. done. }
  eapply Forall_lookup_1 in Hin; [|done]. unfold nonspace in Hin. cbn in Hin.
  congruence.
Qed.


Lemma fields_go_spec rs cur infield f :
  (infield = false -> cur = []) ->
  f ∈ fields_go rs cur infield ->
  (infield = true /\ exists run rb,
      rs = run ++ rb /\ Forall nonspace run /\ f = cur ++ bytes run)
  \/ (exists ra run rb,
      rs = ra ++ run ++ rb /\ run <> [] /\ Forall nonspace run /\ f = bytes run).
Proof.
  revert cur infield. induction rs as [|[r bs] rs IH]; intros cur infield Hcur Hf.
  - destruct infield; [|by apply elem_of_nil in Hf].
    apply list_elem_of_singleton in Hf as ->. left. split; [done|].
    exists [], []. unfold bytes. cbn. by rewrite app_nil_r.
  - cbn [fields_go] in Hf. destruct (unicode.IsSpace r) eqn:Hr.
    + assert (Hrest : f ∈ fields_go rs [] false ->
        exists ra run rb, (r, bs) :: rs = ra ++ run ++ rb /\ run <> []
                          /\ Forall nonspace run /\ f = bytes run).
      { intros H. apply IH in H; [|done].
        destruct H as [[? _]|(ra & run & rb & -> & ? & ? & ->)]; [done|].
        by exists ((r, bs) :: ra), run, rb. }
      destruct infield.
      * apply elem_of_cons in Hf as [->|Hf]; [|right; auto].
        left. split; [done|]. exists [], ((r, bs) :: rs). unfold bytes. cbn.
        by rewrite app_nil_r.
      * right; auto.
    + apply IH in Hf; [|done].
      destruct Hf as [(_ & run & rb & -> & Hrun & ->)|(ra & run & rb & -> & ? & ? & ->)].
      * assert (Hns : Forall nonspace ((r, bs) :: run)) by (constructor; done).
        destruct infield.
        -- left. split; [done|]. exists ((r, bs) :: run), rb.
           unfold bytes. cbn. by rewrite <- app_assoc.
        -- right. rewrite (Hcur eq_refl). by exists [], ((r, bs) :: run), rb.
      * right. by exists ((r, bs) :: ra), run, rb.
Qed.

(** A field is a non-empty run of non-space runes of the string. *)
Lemma Fields_spec s f :
  f ∈ Fields s ->
  exists ra run rb, range s = ra ++ run ++ rb /\ run <> []
                    /\ Forall nonspace run /\ f = bytes run.
Proof.
  intros H. apply fields_go_spec in H; [|done]. by destruct H as [[? _]|H].
Qed.

Lemma Fields_nonempty_field s f : f ∈ Fields s -> f <> [].
Proof.
  intros (ra & run & rb & Hr & Hrun & _ & ->)%Fields_spec.
  destruct run as [|x run]; [done|].
  assert (Hx : x ∈ range s).
  { rewrite Hr. apply elem_of_app. right. apply elem_of_cons. by left. }
  apply range_rune_nonempty in Hx. unfold bytes. cbn.
  destruct (snd x); done.
Qed.

Lemma Fields_spacefree s f : f ∈ Fields s -> spacefree f.
Proof.
  intros (ra & run & rb & Hr & _ & Hns & ->)%Fields_spec.
  by eapply run_spacefree.
Qed.

(** The bytes of a field are bytes of the string. *)
Lemma Fields_bytes s f c : f ∈ Fields s -> c ∈ f -> c ∈ s.
Proof.
  intros (ra & run & rb & Hr & _ & _ & ->)%Fields_spec Hc.
  rewrite <- (range_bytes s), Hr, !map_app, !concat_app. fold (bytes run).
  apply elem_of_app. right. apply elem_of_app. by left.
Qed.

Lemma fields_go_open rs cur : fields_go rs cur true <> [].
Proof.
  revert cur. induction rs as [|[r bs] rs IH]; intros cur; cbn; [done|].
  destruct (unicode.IsSpace r); [done|apply IH].
Qed.

Lemma Fields_nonempty s r w :
  s <> [] -> DecodeRuneInString s = (r, w) -> unicode.IsSpace r = false ->
  Fields s <> [].
Proof.
  intros Hs E Hr. unfold Fields. rewrite (range_cons _ r w) by done.
  cbn. rewrite Hr. apply fields_go_open.
Qed.


Lemma lead_ok_nil : lead_ok [].
Proof.
  intros e t H He. symmetry in H. apply app_eq_nil in H as [-> _].
  by apply space_enc_nonempty in He.
Qed.

Lemma lead_ok_decode s r w :
  DecodeRuneInString s = (r, w) -> unicode.IsSpace r = false -> lead_ok s.
Proof.
  intros E Hr e t -> He.
  destruct (space_enc_stable _ t He) as (r' & E' & Hs). congruence.
Qed.

Lemma lead_ok_take k s : lead_ok s -> lead_ok (take k s).
Proof.
  intros H e t Ht. apply (H e (t ++ drop k s)).
  by rewrite app_assoc, <- Ht, take_drop.
Qed.

Lemma TrimLeft_fuel_spec n s :
  (length s <= n)%nat ->
  exists k, TrimLeft_fuel n s = drop k s /\ lead_ok (drop k s).
Proof.
  revert s. induction n as [|n IH]; intros s Hn.
  - destruct s; [|cbn in Hn; lia]. exists 0%nat. split; [done|apply lead_ok_nil].
  - destruct s as [|c s']; [exists 0%nat; split; [done|apply lead_ok_nil]|].
    cbn [TrimLeft_fuel].
    destruct (DecodeRuneInString (c :: s')) as [r w] eqn:E.
    apply decode_width in E as Hw; [|done].
    destruct (unicode.IsSpace r) eqn:Hr.
    + destruct (IH (drop w (c :: s'))) as (k & Hk & Hok).
      { rewrite length_drop. cbn in *. lia. }
      rewrite drop_drop in Hk, Hok. exists (w + k)%nat. by rewrite Hk.
    + exists 0%nat. split; [done|]. by eapply lead_ok_decode.
Qed.

Lemma TrimLeft_spec s :
  exists k, TrimLeftSpace s = drop k s /\ lead_ok (drop k s).
Proof. by apply TrimLeft_fuel_spec. Qed.

Lemma TrimLeft_fixed s : lead_ok s -> TrimLeftSpace s = s.
Proof.
  intros Hok. unfold TrimLeftSpace. destruct s as [|c s']; [done|].
  cbn [length TrimLeft_fuel].
  destruct (DecodeRuneInString (c :: s')) as [r w] eqn:E.
  destruct (unicode.IsSpace r) eqn:Hr; [exfalso|done].
  destruct (decode_space_enc _ _ _ E Hr) as [_ He].
  apply (Hok (take w (c :: s')) (drop w (c :: s'))); [|done].
  by rewrite take_drop.
Qed.

Lemma byte_at_last h c : byte_at (h ++ [c]) (len (h ++ [c]) - 1) = code c.
Proof.
  unfold byte_at, len. rewrite length_app. cbn [length].
  replace (Z.of_nat (length h + 1) - 1) with (Z.of_nat (length h)) by lia.
  replace (Z.of_nat (length h) <? 0) with false by (symmetry; apply Z.ltb_ge; lia).
  rewrite Nat2Z.id, lookup_app_r, Nat.sub_diag by done. done.
Qed.

(** A white-space rune found from the end is encoded by the last bytes. *)
Lemma decode_last_space s r w :
  DecodeLastRuneInString s = (r, w) -> unicode.IsSpace r = true ->
  (1 <= w <= length s)%nat /\ space_enc (drop (length s - w) s).
Proof.
  unfold DecodeLastRuneInString. intros H Hs.
  destruct (len s =? 0) eqn:E0.
  { injection H as <- <-. by rewrite IsSpace_RuneError in Hs. }
  apply Z.eqb_neq in E0.
  destruct (byte_at s (len s - 1) <? RuneSelf) eqn:E1.
  { injection H as <- <-. apply Z.ltb_lt in E1.
    destruct (exists_last (l:=s)) as (h & c & ->).
    { intros ->. by apply E0. }
    rewrite byte_at_last in *. rewrite length_app. cbn [length].
    split; [lia|].
    replace (length h + 1 - 1)%nat with (length h) by lia.
    rewrite drop_app_length. exists (code c). split; [|done].
    by apply decode_ascii. }
  set (start := Z.max (scan_back s (Z.max (len s - UTFMax) 0) 4 (len s - 2)) 0) in H.
  destruct (DecodeRuneInString (drop (Z.to_nat start) s)) as [r' size] eqn:Ed.
  destruct (start + Z.of_nat size =? len s) eqn:Ee.
  - injection H as -> ->. apply Z.eqb_eq in Ee. unfold len in Ee.
    assert (0 <= start) by (unfold start; lia).
    destruct (decode_space_enc _ _ _ Ed Hs) as [Hw He].
    rewrite length_drop in Hw.
    split; [lia|].
    replace (length s - w)%nat with (Z.to_nat start) by lia.
    destruct He as (r0 & He & Hs0). exists r0. split; [|done].
    assert (Hall : take w (drop (Z.to_nat start) s) = drop (Z.to_nat start) s).
    { apply take_ge. rewrite length_drop. lia. }
    by rewrite Hall in He.
  - injection H as <- <-. by rewrite IsSpace_RuneError in Hs.
Qed.

Lemma TrimRight_fuel_spec n s :
  (length s <= n)%nat ->
  exists k, TrimRight_fuel n s = take k s /\ right_trimmed (take k s).
Proof.
  revert s. induction n as [|n IH]; intros s Hn.
  - destruct s; [|cbn in Hn; lia]. exists 0%nat. split; [done|by left].
  - destruct s as [|c s']; [exists 0%nat; split; [done|by left]|].
    cbn [TrimRight_fuel].
    destruct (DecodeLastRuneInString (c :: s')) as [r w] eqn:E.
    destruct (unicode.IsSpace r) eqn:Hr.
    + destruct (decode_last_space _ _ _ E Hr) as [Hw _].
      destruct (IH (take (length (c :: s') - w) (c :: s'))) as (k & Hk & Hok).
      { rewrite length_take. cbn in *. lia. }
      rewrite take_take in Hk, Hok. eauto.
    + exists (length (c :: s')). rewrite firstn_all. split; [done|].
      right. by rewrite E.
Qed.

Lemma TrimRight_spec s :
  exists k, TrimRightSpace s = take k s /\ right_trimmed (take k s).
Proof. by apply TrimRight_fuel_spec. Qed.

Lemma TrimRight_right_trimmed s : right_trimmed s -> TrimRightSpace s = s.
Proof.
  intros [->|H]; [done|]. unfold TrimRightSpace.
  destruct s as [|c s']; [done|]. cbn [length TrimRight_fuel].
  destruct (DecodeLastRuneInString (c :: s')) as [r w]. cbn in H. by rewrite H.
Qed.

Lemma trail_ok_right_trimmed s : trail_ok s -> right_trimmed s.
Proof.
  intros Hok. destruct s as [|c s']; [by left|]. right.
  destruct (DecodeLastRuneInString (c :: s')) as [r w] eqn:E. cbn.
  destruct (unicode.IsSpace r) eqn:Hr; [exfalso|done].
  destruct (decode_last_space _ _ _ E Hr) as [_ He].
  eapply (Hok (take (length (c :: s') - w) (c :: s'))); [|exact He].
  by rewrite take_drop.
Qed.

(** [TrimSpace] returns a contiguous part of its argument... *)
Lemma TrimSpace_sub s : exists j k, TrimSpace s = take k (drop j s).
Proof.
  unfold TrimSpace. destruct (TrimLeft_spec s) as (j & -> & _).
  destruct (TrimRight_spec (drop j s)) as (k & -> & _). eauto.
Qed.

Lemma TrimSpace_length s : (length (TrimSpace s) <= length s)%nat.
Proof.
  destruct (TrimSpace_sub s) as (j & k & ->).
  rewrite length_take, length_drop. lia.
Qed.

Lemma TrimSpace_infix s : exists pre post, s = pre ++ TrimSpace s ++ post.
Proof.
  destruct (TrimSpace_sub s) as (j & k & ->).
  exists (take j s), (drop k (drop j s)). by rewrite take_drop, take_drop.
Qed.

(** ... with no white space left at either end. *)
Lemma TrimSpace_trimmed s : lead_ok (TrimSpace s) /\ right_trimmed (TrimSpace s).
Proof.
  unfold TrimSpace. destruct (TrimLeft_spec s) as (j & -> & Hl).
  destruct (TrimRight_spec (drop j s)) as (k & -> & Hr).
  split; [by apply lead_ok_take|done].
Qed.

Lemma TrimSpace_fixed s : lead_ok s -> right_trimmed s -> TrimSpace s = s.
Proof.
  intros Hl Hr. unfold TrimSpace. rewrite (TrimLeft_fixed _ Hl).
  by apply TrimRight_right_trimmed.
Qed.

Lemma TrimSpace_idem s : TrimSpace (TrimSpace s) = TrimSpace s.
Proof. destruct (TrimSpace_trimmed s). by apply TrimSpace_fixed. Qed.


Lemma spacefree_tight f : f <> [] -> spacefree f -> tight f.
Proof.
  intros Hf Hsf. split; [done|]. split.
  - intros e t ->. by apply (Hsf [] e t).
  - intros h e ->. apply (Hsf h e []). by rewrite app_nil_r.
Qed.

Lemma tight_fixed s : tight s -> TrimSpace s = s.
Proof.
  intros (_ & Hl & Ht). apply TrimSpace_fixed; [done|].
  by apply trail_ok_right_trimmed.
Qed.

Lemma space_not_cont : is_cont (code " ") = false.
Proof. reflexivity. Qed.

(** Joining tight strings with single spaces gives a tight string. *)
Lemma Join_tight l : l <> [] -> Forall tight l -> tight (Join l (str " ")).
Proof.
  induction l as [|e l IH]; [done|]. intros _ Hall.
  apply Forall_cons in Hall as [He Hall].
  destruct l as [|e2 l]; [done|].
  specialize (IH ltac:(done) Hall).
  set (J := Join (e2 :: l) (str " ")) in *.
  change (Join (e :: e2 :: l) (str " ")) with (e ++ " "%char :: J).
  destruct He as (Hne & Hel & Het). destruct IH as (HJne & HJl & HJt).
  split; [by destruct e|]. split.
  - intros q t Hq Hsp.
    destruct (decide (length q <= length e)%nat) as [Hle|Hgt].
    + apply (Hel q (drop (length q) e)); [|done].
      apply (f_equal (take (length q))) in Hq.
      rewrite take_app_le, take_app_length in Hq by done.
      transitivity (take (length q) e ++ drop (length q) e);
        [by rewrite take_drop|by rewrite Hq].
    + assert (Hlk : q !! length e = Some " "%char).
      { apply (f_equal (fun x => x !! length e)) in Hq.
        rewrite lookup_app_r, Nat.sub_diag in Hq by done.
        rewrite lookup_app_l in Hq by lia. done. }
      assert (Hpos : (1 <= length e)%nat). { destruct e; [done|cbn [length]; lia]. }
      pose proof (space_enc_tail _ _ _ Hsp Hpos Hlk) as Hc.
      by rewrite space_not_cont in Hc.
  - intros h q Hq Hsp.
    assert (Hlen : (length e + 1 + length J = length h + length q)%nat).
    { apply (f_equal length) in Hq. rewrite !length_app in Hq.
      cbn [length] in Hq. lia. }
    destruct (decide (length q <= length J)%nat) as [Hle|Hgt].
    + apply (HJt (take (length J - length q) J) q); [|done].
      apply (f_equal (drop (length h))) in Hq.
      rewrite drop_app_length in Hq.
      rewrite drop_app_ge in Hq by lia.
      replace (length h - length e)%nat with (S (length J - length q)) in Hq by lia.
      cbn [drop] in Hq.
      pose proof (take_drop (length J - length q) J) as Htd.
      by rewrite Hq in Htd.
    + assert (Hlk : q !! (length e - length h)%nat = Some " "%char).
      { apply (f_equal (fun x => x !! length e)) in Hq.
        rewrite lookup_app_r, Nat.sub_diag in Hq by done.
        rewrite lookup_app_r in Hq by lia. done. }
      destruct (decide (1 <= length e - length h)%nat) as [H1|H0].
      * pose proof (space_enc_tail _ _ _ Hsp H1 Hlk) as Hc.
        by rewrite space_not_cont in Hc.
      * replace (length e - length h)%nat with 0%nat in Hlk by lia.
        destruct (space_enc_shape _ Hsp) as [(c & -> & _)|(r & Hw & _)].
        -- cbn [length] in Hgt. destruct J; [done|cbn [length] in Hgt; lia].
        -- destruct Hw as (_ & (c0 & H0' & Hc0) & _).
           rewrite Hlk in H0'. injection H0' as <-.
           change (code " ") with 32 in Hc0. lia.
Qed.

Lemma lead_ok_Fields s : s <> [] -> lead_ok s -> Fields s <> [].
Proof.
  intros Hs Hok. destruct (DecodeRuneInString s) as [r w] eqn:E.
  apply (Fields_nonempty s r w); [done|done|].
  destruct (unicode.IsSpace r) eqn:Hr; [exfalso|done].
  destruct (decode_space_enc _ _ _ E Hr) as [_ He].
  apply (Hok (take w s) (drop w s)); [|done]. by rewrite take_drop.
Qed.

End StringsFacts.

Section CleanTextFacts.
Import strings chunker.

Lemma clean_line_tight line : Forall tight (clean_line line).
Proof.
  unfold clean_line. case_decide as Hl; [constructor|].
  constructor; [|constructor].
  apply Join_tight.
  - apply lead_ok_Fields; [done|]. apply TrimSpace_trimmed.
  - apply Forall_forall. intros f Hf. apply spacefree_tight.
    + by eapply Fields_nonempty_field.
    + by eapply Fields_spacefree.
Qed.

(** The cleaned text has no white space at either end. *)
Lemma cleanText_trimmed text : TrimSpace (cleanText text) = cleanText text.
Proof.
  unfold cleanText.
  set (ls := concat (map clean_line (Split text "010"%char))).
  assert (Hall : Forall tight ls).
  { apply Forall_concat, Forall_forall. intros l Hl.
    apply list_elem_of_fmap in Hl as (line & -> & _). apply clean_line_tight. }
  destruct ls as [|l ls]; [done|].
  apply tight_fixed, Join_tight; done.
Qed.

Lemma Split_no_sep s sep l : l ∈ Split s sep -> sep ∉ l.
Proof.
  revert l. induction s as [|c s IH]; intros l Hl.
  - apply list_elem_of_singleton in Hl as ->. apply not_elem_of_nil.
  - cbn [Split] in Hl. case_decide as Hc.
    + apply elem_of_cons in Hl as [->|Hl]; [apply not_elem_of_nil|by apply IH].
    + destruct (Split s sep) as [|l0 ls] eqn:E.
      * apply list_elem_of_singleton in Hl as ->. intros H.
        apply list_elem_of_singleton in H. congruence.
      * apply elem_of_cons in Hl as [->|Hl].
        -- intros H. apply elem_of_cons in H as [H|H]; [congruence|].
           revert H. apply IH. apply elem_of_cons. by left.
        -- apply IH. apply elem_of_cons. by right.
Qed.

Lemma Join_bytes l sep c :
  c ∈ Join l sep -> c ∈ sep \/ exists e, e ∈ l /\ c ∈ e.
Proof.
  induction l as [|e l IH]; [by intros H%elem_of_nil|].
  destruct l as [|e2 l].
  - intros H. right. exists e. split; [apply elem_of_cons; by left|done].
  - change (Join (e :: e2 :: l) sep) with (e ++ sep ++ Join (e2 :: l) sep).
    intros H. apply elem_of_app in H as [H|H].
    { right. exists e. split; [apply elem_of_cons; by left|done]. }
    apply elem_of_app in H as [H|H]; [by left|].
    apply IH in H as [H|(e' & He' & H)]; [by left|].
    right. exists e'. split; [apply elem_of_cons; by right|done].
Qed.

Lemma TrimSpace_bytes s c : c ∈ TrimSpace s -> c ∈ s.
Proof.
  destruct (TrimSpace_infix s) as (pre & post & H). intros Hc. rewrite H.
  apply elem_of_app. right. apply elem_of_app. by left.
Qed.

(** The cleaned text holds no newline byte. *)
Lemma cleanText_no_newline text : "010"%char ∉ cleanText text.
Proof.
  unfold cleanText. intros H.
  apply Join_bytes in H as [H|(l & Hl & H)].
  { apply list_elem_of_singleton in H. discriminate. }
  apply list_elem_of_In, in_concat in Hl as (ls & Hls & Hl).
  apply list_elem_of_In in Hls, Hl.
  apply list_elem_of_fmap in Hls as (line & -> & Hline).
  unfold clean_line in Hl. case_decide; [by apply elem_of_nil in Hl|].
  apply list_elem_of_singleton in Hl as ->.
  apply Join_bytes in H as [H|(f & Hf & H)].
  { apply list_elem_of_singleton in H. discriminate. }
  eapply Fields_bytes in H; [|done].
  apply TrimSpace_bytes in H.
  by apply Split_no_sep in Hline.
Qed.

End CleanTextFacts.


(* ====================================================================== *)
(** * The chunker                                                          *)
(* ====================================================================== *)


Section ChunkerFacts.
Import strings chunker.

Lemma wrap64_id z : - 2^63 <= z < 2^63 -> wrap64 z = z.
Proof. intros H. unfold wrap64. rewrite Z.mod_small; lia. Qed.

Lemma wrap64_range z : - 2^63 <= wrap64 z < 2^63.
Proof.
  unfold wrap64. pose proof (Z.mod_pos_bound (z + 2^63) (2^64) ltac:(lia)). lia.
Qed.

Lemma len_nonneg {A} (s : list A) : 0 <= len s.
Proof. unfold len. lia. Qed.

Lemma scan_down_spec found n i r :
  scan_down found n i = Some r ->
  exists k, i - Z.of_nat n < k <= i /\ found k = Some r.
Proof.
  revert i. induction n as [|n IH]; intros i H; [done|].
  cbn [scan_down] in H. destruct (found i) eqn:E.
  - injection H as ->. exists i. split; [lia|done].
  - apply IH in H as (k & Hk & Hf). exists k. split; [lia|done].
Qed.

(** A byte read from a text without newline is not a newline. *)
Lemma byte_at_no_newline t i : "010"%char ∉ t -> byte_at t i <> 10.
Proof.
  intros Hnl. unfold byte_at. destruct (i <? 0); [done|].
  destruct (t !! Z.to_nat i) as [c|] eqn:E; [|done].
  intros Hc. apply Hnl. apply list_elem_of_lookup. exists (Z.to_nat i).
  rewrite E. f_equal. unfold code in Hc.
  rewrite <- (ascii_N_embedding c).
  replace (N_of_ascii c) with 10%N by lia. done.
Qed.

(** The boundary lies beyond [start]; it is at most one position past the
    raw end, and not past it in a text without newline. *)
Lemma findSentenceBoundary_bounds t start end_ :
  start < end_ ->
  start < findSentenceBoundary t start end_ <= end_ + 1
  /\ ("010"%char ∉ t -> findSentenceBoundary t start end_ <= end_)
  /\ (end_ < len t -> findSentenceBoundary t start end_ <= len t).
Proof.
  intros Hlt. unfold findSentenceBoundary.
  replace (end_ <=? start) with false by (symmetry; apply Z.leb_gt; lia).
  set (n := Z.to_nat (end_ - 1 - start)).
  assert (Hn : Z.of_nat n = end_ - 1 - start) by lia.
  destruct (scan_down (sentence_at t) n (end_ - 1)) as [r|] eqn:E1.
  { apply scan_down_spec in E1 as (k & Hk & Hf). unfold sentence_at in Hf.
    case_match; [|done]. injection Hf as <-. lia. }
  destruct (scan_down (paragraph_at t) n (end_ - 1)) as [r|] eqn:E2.
  { apply scan_down_spec in E2 as (k & Hk & Hf). unfold paragraph_at in Hf.
    case_match eqn:Hc; [|done]. injection Hf as <-.
    apply andb_true_iff in Hc as [Hc Hc2]. apply andb_true_iff in Hc as [Hc0 Hc1].
    apply Z.ltb_lt in Hc0. apply Z.eqb_eq in Hc1.
    split; [lia|]. split; [|lia].
    intros Hnl. by apply (byte_at_no_newline t k) in Hnl. }
  destruct (scan_down (space_at t) n (end_ - 1)) as [r|] eqn:E3.
  { apply scan_down_spec in E3 as (k & Hk & Hf). unfold space_at in Hf.
    case_match; [|done]. injection Hf as <-. lia. }
  lia.
Qed.

Lemma findSentenceBoundary_empty t start end_ :
  end_ <= start -> findSentenceBoundary t start end_ = end_.
Proof.
  intros H. unfold findSentenceBoundary.
  by replace (end_ <=? start) with true by (symmetry; apply Z.leb_le; lia).
Qed.

Lemma slice_Some {A} (s : list A) lo hi :
  0 <= lo <= hi -> hi <= len s ->
  slice s lo hi = Some (take (Z.to_nat (hi - lo)) (drop (Z.to_nat lo) s)).
Proof.
  intros H1 H2. unfold slice.
  replace (0 <=? lo) with true by (symmetry; apply Z.leb_le; lia).
  replace (lo <=? hi) with true by (symmetry; apply Z.leb_le; lia).
  replace (hi <=? len s) with true by (symmetry; apply Z.leb_le; lia).
  done.
Qed.

Lemma slice_inv {A} (s : list A) lo hi w :
  slice s lo hi = Some w ->
  0 <= lo <= hi /\ hi <= len s /\ len w = hi - lo
  /\ s = take (Z.to_nat lo) s ++ w ++ drop (Z.to_nat hi) s.
Proof.
  unfold slice. case_match eqn:E; [|done]. intros [= <-].
  apply andb_true_iff in E as [E E3]. apply andb_true_iff in E as [E1 E2].
  apply Z.leb_le in E1, E2, E3. unfold len in *.
  split; [lia|]. split; [lia|]. split.
  - rewrite length_take, length_drop. lia.
  - rewrite <- (take_drop (Z.to_nat lo) s) at 1. f_equal.
    rewrite <- (take_drop (Z.to_nat (hi - lo)) (drop (Z.to_nat lo) s)) at 1.
    f_equal. rewrite drop_drop. f_equal. lia.
Qed.


Lemma window_end_bounds c t s :
  0 <= s < len t -> 0 <= ChunkSize c ->
  s <= window_end c t s <= len t
  /\ ("010"%char ∉ t -> window_end c t s <= s + ChunkSize c).
Proof.
  intros Hs Hsize. unfold window_end.
  set (raw := if len t <? s + ChunkSize c then len t else s + ChunkSize c).
  assert (Hraw : s <= raw <= len t /\ raw <= s + ChunkSize c).
  { unfold raw. case_match eqn:E; [apply Z.ltb_lt in E|apply Z.ltb_ge in E]; lia. }
  destruct (raw <? len t) eqn:E; [apply Z.ltb_lt in E|lia].
  destruct (decide (s < raw)) as [Hlt|Hge].
  - destruct (findSentenceBoundary_bounds t s raw Hlt) as (H1 & H2 & H3).
    specialize (H3 E). case_match; [|lia]. split; [lia|]. intros Hnl.
    specialize (H2 Hnl). lia.
  - rewrite findSentenceBoundary_empty by lia. case_match; lia.
Qed.

Lemma window_end_negative c t s :
  0 <= s < len t -> ChunkSize c < 0 -> window_end c t s < s.
Proof.
  intros Hs Hsize. unfold window_end.
  replace (len t <? s + ChunkSize c) with false by (symmetry; apply Z.ltb_ge; lia).
  replace (s + ChunkSize c <? len t) with true by (symmetry; apply Z.ltb_lt; lia).
  rewrite findSentenceBoundary_empty by lia. case_match; lia.
Qed.

Lemma next_start_advances c oldStart end_ : oldStart < next_start c oldStart end_.
Proof.
  unfold next_start. case_match eqn:E; [lia|]. apply Z.leb_gt in E. lia.
Qed.

Lemma loop_body_spec c t st :
  0 <= start st < len t ->
  match loop_body c t st with
  | Panic => ChunkSize c < 0
  | Next st' => body_post c t st st' /\ iteration st' <= maxIterations c t
  | Break st' => body_post c t st st'
  end.
Proof.
  intros Hs. unfold loop_body.
  destruct (maxIterations c t <? iteration st + 1) eqn:Eg.
  { apply Z.ltb_lt in Eg. split; [done|]. left. done. }
  apply Z.ltb_ge in Eg.
  destruct (slice t (start st) (window_end c t (start st))) as [w|] eqn:Esl.
  2:{ destruct (decide (ChunkSize c < 0)) as [|Hge]; [done|exfalso].
      destruct (window_end_bounds c t (start st) Hs ltac:(lia)) as [Hb _].
      rewrite slice_Some in Esl by lia. done. }
  apply slice_inv in Esl as Hinv. destruct Hinv as (Hlo & Hhi & _ & _).
  pose proof (next_start_advances c (start st) (window_end c t (start st))) as Hadv.
  set (e := window_end c t (start st)) in *.
  set (st' := mk_state (next_start c (start st) e) (iteration st + 1)
                (if 0 <? len (TrimSpace w) then chunks st ++ [TrimSpace w] else chunks st)
                (if 0 <? len (TrimSpace w) then windows st ++ [(start st, e)] else windows st)).
  assert (Hpost : body_post c t st st').
  { split; [done|]. right. split; [done|]. split; [done|].
    exists e. split; [lia|]. split.
    - intros Hsz Hnl. by apply window_end_bounds.
    - unfold st'. cbn [chunks windows]. destruct (0 <? len (TrimSpace w)) eqn:El.
      + right. exists (TrimSpace w). split; [|done].
        exists w. cbn [fst snd]. split; [done|]. split; [done|].
        apply Z.ltb_lt in El. intros Hnil. rewrite Hnil in El. done.
      + by left. }
  assert (Heq : (let '(chunks, windows) :=
              if 0 <? len (TrimSpace w)
              then (chunks st ++ [TrimSpace w], windows st ++ [(start st, e)])
              else (chunks st, windows st) in
            if e <=? next_start c (start st) e
            then Break (mk_state (next_start c (start st) e) (iteration st + 1) chunks windows)
            else if len t <=? next_start c (start st) e
                 then Break (mk_state (next_start c (start st) e) (iteration st + 1) chunks windows)
                 else Next (mk_state (next_start c (start st) e) (iteration st + 1) chunks windows))
          = if e <=? next_start c (start st) e then Break st'
            else if len t <=? next_start c (start st) e then Break st' else Next st').
  { unfold st'. by destruct (0 <? len (TrimSpace w)). }
  rewrite Heq. repeat case_match; done.
Qed.

Lemma loop_body_Next c t st st' :
  loop_body c t st = Next st' ->
  start st < start st' /\ iteration st' = iteration st + 1
  /\ iteration st' <= maxIterations c t.
Proof.
  unfold loop_body. case_match eqn:Eg; [done|]. apply Z.ltb_ge in Eg.
  case_match; [|done].
  pose proof (next_start_advances c (start st) (window_end c t (start st))).
  repeat case_match; try done; intros [= <-]; cbn; lia.
Qed.


Lemma minChunkSize_pos c : 1 <= minChunkSize c.
Proof. unfold minChunkSize. case_match eqn:E; [lia|]. apply Z.leb_gt in E. lia. Qed.

Lemma maxIterations_ge c t : 1000 <= maxIterations c t.
Proof.
  unfold maxIterations. pose proof (minChunkSize_pos c).
  pose proof (Z.quot_pos (len t) (minChunkSize c) (len_nonneg t) ltac:(lia)). lia.
Qed.

(** The loop ends within the iterations its own counter allows... *)
Lemma loop_total_by_count c t fuel st :
  iteration st <= maxIterations c t ->
  maxIterations c t + 1 - iteration st <= Z.of_nat fuel ->
  exists o, loop c t fuel st = Some o.
Proof.
  revert st. induction fuel as [|fuel IH]; intros st Hit Hfuel; [lia|].
  cbn [loop]. destruct (len t <=? start st); [eauto|].
  destruct (loop_body c t st) as [st'|st'|] eqn:Eb; [|eauto|eauto].
  apply loop_body_Next in Eb as (_ & Hi & Hm). apply IH; lia.
Qed.

(** ... and also within [len(text) - start] iterations, because every
    iteration moves [start] forward. *)
Lemma loop_total_by_start c t fuel st :
  len t - start st <= Z.of_nat fuel ->
  exists o, loop c t fuel st = Some o.
Proof.
  revert st. induction fuel as [|fuel IH]; intros st Hfuel.
  - cbn [loop]. replace (len t <=? start st) with true; [eauto|].
    symmetry. apply Z.leb_le. lia.
  - cbn [loop]. destruct (len t <=? start st); [eauto|].
    destruct (loop_body c t st) as [st'|st'|] eqn:Eb; [|eauto|eauto].
    apply loop_body_Next in Eb as (Hs & _). apply IH; lia.
Qed.

(** More fuel does not change the result. *)
Lemma loop_fuel_mono c t n m st o :
  loop c t n st = Some o -> (n <= m)%nat -> loop c t m st = Some o.
Proof.
  revert m st. induction n as [|n IH]; intros m st H Hnm.
  - cbn [loop] in H. destruct m; cbn [loop]; destruct (len t <=? start st); done.
  - destruct m as [|m]; [lia|]. cbn [loop] in *.
    destruct (len t <=? start st); [done|].
    destruct (loop_body c t st); [|done|done]. apply IH; [done|lia].
Qed.

Lemma inv_init c t : inv c t (mk_state 0 0 [] []).
Proof. repeat split; cbn; try constructor; done. Qed.

Lemma inv_step c t st st' :
  inv c t st -> body_post c t st st' -> inv c t st'.
Proof.
  intros (H0 & Hem & Hsorted & Hlt & Hsz) (Hit & [(_ & Hs & Hc & Hw)|(_ & Hs & e & He & Hnl & Hcw)]).
  { unfold inv. rewrite Hs, Hc, Hw. done. }
  assert (Hlt' : Forall (fun w => fst w < start st') (windows st)).
  { eapply Forall_impl; [exact Hlt|]. cbn. intros. lia. }
  destruct Hcw as [(Hc & Hw)|(chunk & Hch & Hc & Hw)].
  { unfold inv. rewrite Hc, Hw. split; [lia|done]. }
  unfold inv. rewrite Hc, Hw. split; [lia|]. split; [|split; [|split]].
  - apply Forall2_app; [done|]. by constructor.
  - rewrite map_app. apply StronglySorted_app. split; [|split].
    + intros x1 x2 Hx1 Hx2. cbn in Hx2. apply list_elem_of_singleton in Hx2 as ->.
      apply list_elem_of_fmap in Hx1 as (w1 & -> & Hw1).
      eapply Forall_forall in Hlt; [|done]. done.
    + done.
    + cbn. repeat constructor.
  - apply Forall_app. split; [done|]. constructor; [cbn; lia|constructor].
  - intros Hsize Hnl'. apply Forall_app. split; [by apply Hsz|].
    constructor; [|constructor]. cbn. specialize (Hnl Hsize Hnl'). lia.
Qed.

Lemma loop_inv c t fuel st o :
  inv c t st -> loop c t fuel st = Some o ->
  match o with
  | Returned st' => inv c t st'
  | Panicked => ChunkSize c < 0
  end.
Proof.
  revert st. induction fuel as [|fuel IH]; intros st Hinv H; cbn [loop] in H;
    destruct (len t <=? start st) eqn:E; try (by injection H as <-); [done|].
  apply Z.leb_gt in E.
  pose proof (loop_body_spec c t st ltac:(destruct Hinv; lia)) as Hb.
  destruct (loop_body c t st) as [st'|st'|].
  - destruct Hb as [Hb _]. eapply IH; [|done]. by eapply inv_step.
  - injection H as <-. by eapply inv_step.
  - by injection H as <-.
Qed.

End ChunkerFacts.

Section ChunkerTheorems.
Import strings chunker.

Lemma emitted_chunk t chunk win :
  emitted t chunk win ->
  chunk <> [] /\ TrimSpace chunk = chunk
  /\ (exists pre post, t = pre ++ chunk ++ post)
  /\ len chunk <= snd win - fst win.
Proof.
  intros (w & Hsl & -> & Hne). split; [done|]. split; [apply TrimSpace_idem|].
  apply slice_inv in Hsl as (_ & _ & Hlen & Ht). split.
  - destruct (TrimSpace_infix w) as (pre & post & Hw).
    exists (take (Z.to_nat (fst win)) t ++ pre), (post ++ drop (Z.to_nat (snd win)) t).
    rewrite Ht at 1. rewrite Hw at 1. by rewrite <- !app_assoc.
  - rewrite <- Hlen. pose proof (TrimSpace_length w). unfold len. lia.
Qed.

(** The run of [ChunkText] always ends, in a state that satisfies the
    invariant of the loop, or in a panic when the chunk size is negative. *)
Lemma ChunkText_run_spec c text :
  exists o, ChunkText_run c text = Some o /\
    match o with
    | Returned st =>
      Forall2 (emitted (cleanText text)) (chunks st) (windows st)
      /\ StronglySorted Z.lt (map fst (windows st))
      /\ (0 <= ChunkSize c ->
          Forall (fun w => snd w - fst w <= ChunkSize c) (windows st))
    | Panicked => ChunkSize c < 0
    end.
Proof.
  unfold ChunkText_run. set (t := cleanText text).
  destruct (len t =? 0) eqn:E0.
  { eexists. split; [done|]. cbn. repeat split; constructor. }
  apply Z.eqb_neq in E0.
  destruct (len t <=? ChunkSize c) eqn:E1.
  { apply Z.leb_le in E1. eexists. split; [done|]. cbn [chunks windows].
    split; [|split].
    - constructor; [|constructor]. exists t. cbn [fst snd].
      split; [|split].
      + rewrite slice_Some by (pose proof (len_nonneg t); lia).
        f_equal. rewrite drop_0. apply take_ge. unfold len. lia.
      + symmetry. apply cleanText_trimmed.
      + intros Ht. rewrite Ht in E0. done.
    - cbn. repeat constructor.
    - intros _. constructor; [cbn; lia|constructor]. }
  destruct (loop_total_by_count c t (Z.to_nat (maxIterations c t) + 1)
              (mk_state 0 0 [] [])) as [o Ho].
  { cbn. pose proof (maxIterations_ge c t). lia. }
  { cbn. lia. }
  exists o. split; [done|].
  pose proof (loop_inv c t _ _ o (inv_init c t) Ho) as Hinv.
  destruct o as [st|]; [|done].
  destruct Hinv as (_ & Hem & Hsorted & _ & Hsz).
  split; [done|]. split; [done|]. intros Hsize. apply Hsz; [done|].
  apply cleanText_no_newline.
Qed.

(** C4.  Whatever the text, the size and the overlap, the call ends, and
    every chunk it emits is non-empty, is left unchanged by [TrimSpace],
    and is a contiguous part of the cleaned text: the trimmed content of
    the window [start, end) it was cut from; the starts of these windows
    are strictly increasing.  The call ends in a panic only for a
    negative chunk size, and then emits nothing. *)
Theorem C4_chunks_trimmed_substrings_increasing (c : Chunker) (text : gostring) :
  match ChunkText_run c text with
  | Some (Returned st) =>
    ChunkText c text = Some (Returned (chunks st))
    /\ Forall2 (emitted (cleanText text)) (chunks st) (windows st)
    /\ Forall (fun chunk =>
                 chunk <> [] /\ TrimSpace chunk = chunk
                 /\ exists pre post, cleanText text = pre ++ chunk ++ post)
              (chunks st)
    /\ StronglySorted Z.lt (map fst (windows st))
  | Some Panicked => ChunkSize c < 0
  | None => False
  end.
Proof.
  destruct (ChunkText_run_spec c text) as (o & Ho & Hspec).
  unfold ChunkText. rewrite Ho. destruct o as [st|]; [|done].
  destruct Hspec as (Hem & Hsorted & _).
  split; [done|]. split; [done|]. split; [|done].
  apply Forall_forall. intros chunk Hin.
  apply list_elem_of_lookup in Hin as (i & Hi).
  destruct (Forall2_lookup_l _ _ _ _ _ Hem Hi) as (win & _ & Hw).
  apply emitted_chunk in Hw as (H1 & H2 & H3 & _). done.
Qed.

(** C5.  The loop of [ChunkText] terminates.  A run of the body that goes
    on to the next iteration has moved [start] forward by at least one
    position, forced to [oldStart + 1] when [end - overlap] does not
    advance; the bound [len / max(size - overlap, 1) + 1000] on the
    number of iterations is enforced by a [break] that keeps the chunks
    made so far; and the call ends with the same outcome for every number
    of body runs allowed beyond [min(len, maxIterations + 1)]. *)
Theorem C5_chunking_terminates (c : Chunker) (text : gostring) :
  let t := cleanText text in
  (forall st st', loop_body c t st = Next st' ->
     start st + 1 <= start st' /\ iteration st' = iteration st + 1)
  /\ (forall oldStart end_,
        oldStart + 1 <= next_start c oldStart end_
        /\ (Z.max (wrap64 (end_ - ChunkOverlap c)) 0 <= oldStart ->
            next_start c oldStart end_ = oldStart + 1))
  /\ maxIterations c t
     = Z.quot (len t) (Z.max (wrap64 (ChunkSize c - ChunkOverlap c)) 1) + 1000
  /\ (forall st, maxIterations c t <= iteration st ->
        loop_body c t st
        = Break (mk_state (start st) (iteration st + 1) (chunks st) (windows st)))
  /\ exists o,
       ChunkText_run c text = Some o
       /\ (len t <> 0 -> ChunkSize c < len t ->
           forall fuel,
             (Z.to_nat (Z.min (len t) (maxIterations c t + 1)) <= fuel)%nat ->
             loop c t fuel (mk_state 0 0 [] []) = Some o).
Proof.
  intros t. split; [|split; [|split; [|split]]].
  - intros st st' H. apply loop_body_Next in H. lia.
  - intros oldStart end_. pose proof (next_start_advances c oldStart end_).
    split; [lia|]. intros Hle. unfold next_start.
    replace ((if wrap64 (end_ - ChunkOverlap c) <? 0 then 0
              else wrap64 (end_ - ChunkOverlap c)) <=? oldStart) with true; [done|].
    symmetry. apply Z.leb_le.
    case_match eqn:E; [apply Z.ltb_lt in E|apply Z.ltb_ge in E]; lia.
  - unfold maxIterations, minChunkSize. f_equal. f_equal.
    case_match eqn:E; [apply Z.leb_le in E|apply Z.leb_gt in E]; lia.
  - intros st Hmax. unfold loop_body.
    by replace (maxIterations c t <? iteration st + 1) with true
      by (symmetry; apply Z.ltb_lt; lia).
  - destruct (ChunkText_run_spec c text) as (o & Ho & _).
    exists o. split; [done|]. intros Hne Hgt fuel Hfuel.
    unfold ChunkText_run in Ho. fold t in Ho.
    replace (len t =? 0) with false in Ho by (symmetry; by apply Z.eqb_neq).
    replace (len t <=? ChunkSize c) with false in Ho
      by (symmetry; apply Z.leb_gt; lia).
    set (n := Z.to_nat (Z.min (len t) (maxIterations c t + 1))) in *.
    pose proof (maxIterations_ge c t) as Hmax.
    assert (Hn : exists o', loop c t n (mk_state 0 0 [] []) = Some o').
    { destruct (Z.le_ge_cases (len t) (maxIterations c t + 1)).
      - apply loop_total_by_start. unfold n. cbn. lia.
      - apply loop_total_by_count; unfold n; cbn; lia. }
    destruct Hn as [o' Ho'].
    assert (Hle : (n <= Z.to_nat (maxIterations c t) + 1)%nat) by (unfold n; lia).
    rewrite (loop_fuel_mono _ _ _ _ _ _ Ho' Hle) in Ho.
    injection Ho as <-. by eapply loop_fuel_mono.
Qed.

(** C10.  With a positive chunk size and a non-negative overlap, every
    chunk returned is at most [ChunkSize] bytes long: the cleaned text
    holds no newline byte, so the search for a paragraph break finds
    nothing, and the boundary returned by [findSentenceBoundary] is not
    past the raw end of the window. *)
Theorem C10_chunk_length_bounded (c : Chunker) (text : gostring) :
  0 < ChunkSize c -> 0 <= ChunkOverlap c ->
  ("010"%char ∉ cleanText text)
  /\ (forall n i, scan_down (paragraph_at (cleanText text)) n i = None)
  /\ (forall start end_,
        findSentenceBoundary (cleanText text) start end_ <= end_)
  /\ exists chunks,
       ChunkText c text = Some (Returned chunks)
       /\ Forall (fun chunk => len chunk <= ChunkSize c) chunks.
Proof.
  intros Hsize Hoverlap.
  pose proof (cleanText_no_newline text) as Hnl.
  split; [done|]. split; [|split].
  - intros n i. destruct (scan_down _ n i) as [r|] eqn:E; [exfalso|done].
    apply scan_down_spec in E as (k & _ & Hk). unfold paragraph_at in Hk.
    case_match eqn:Hc; [|done].
    apply andb_true_iff in Hc as [Hc _]. apply andb_true_iff in Hc as [_ Hc].
    apply Z.eqb_eq in Hc. by apply (byte_at_no_newline _ k) in Hnl.
  - intros s e. destruct (decide (s < e)) as [Hlt|Hge].
    + by apply findSentenceBoundary_bounds.
    + rewrite findSentenceBoundary_empty; lia.
  - destruct (ChunkText_run_spec c text) as (o & Ho & Hspec).
    unfold ChunkText. rewrite Ho. destruct o as [st|]; [|lia].
    destruct Hspec as (Hem & _ & Hsz). specialize (Hsz ltac:(lia)).
    exists (chunks st). split; [done|].
    apply Forall_forall. intros chunk Hin.
    apply list_elem_of_lookup in Hin as (i & Hi).
    destruct (Forall2_lookup_l _ _ _ _ _ Hem Hi) as (win & Hwin & Hw).
    apply emitted_chunk in Hw as (_ & _ & _ & Hlen).
    eapply Forall_lookup_1 in Hsz; [|done]. cbn in Hsz. lia.
Qed.

Lemma C10_chunk_length_witness :
  let c := NewChunker 20 5 in
  let text := str "The cat sat. The dog ran. Birds flew high." in
  0 < ChunkSize c /\ 0 <= ChunkOverlap c
  /\ ("010"%char ∉ cleanText text)
  /\ (forall n i, scan_down (paragraph_at (cleanText text)) n i = None)
  /\ (forall start end_,
        findSentenceBoundary (cleanText text) start end_ <= end_)
  /\ exists chunks,
       ChunkText c text = Some (Returned chunks)
       /\ Forall (fun chunk => len chunk <= ChunkSize c) chunks.
Proof.
  intros c text. split; [cbn; lia|]. split; [cbn; lia|].
  apply (C10_chunk_length_bounded c text); cbn; lia.
Defined.

End ChunkerTheorems.

(* ====================================================================== *)
(** * The similarity search                                                *)
(* ====================================================================== *)


Section FloatOrder.

Lemma SFltb_irrefl x : SFltb x x = false.
Proof.
  unfold SFltb, SFcompare. destruct x as [s|s| |s m e]; try done.
  - by destruct s.
  - destruct s; rewrite Z.compare_refl, Pos.compare_cont_refl; done.
Qed.

Lemma SFltb_trans x y z : SFltb x y = true -> SFltb y z = true -> SFltb x z = true.
Proof.
  unfold SFltb, SFcompare.
  destruct x as [sx|sx| |sx mx ex], y as [sy|sy| |sy my ey], z as [sz|sz| |sz mz ez];
    try done;
    repeat match goal with s : bool |- _ => destruct s end; try done.
  all: change (Pos.compare_cont Eq) with Pos.compare.
  all: repeat match goal with
       | |- context [Z.compare ?a ?b] => destruct (Z.compare_spec a b)
       | |- context [Pos.compare ?a ?b] => destruct (Pos.compare_spec a b)
       end; cbn; try done; try lia.
Qed.

Lemma gtb_trans x y z :
  float64.gtb x y = true -> float64.gtb y z = true -> float64.gtb x z = true.
Proof. unfold float64.gtb. intros H1 H2. by eapply SFltb_trans. Qed.

Lemma gtb_asym x y : float64.gtb x y = true -> float64.gtb y x = false.
Proof.
  intros H. destruct (float64.gtb y x) eqn:E; [|done].
  pose proof (gtb_trans _ _ _ H E) as Hxx. unfold float64.gtb in Hxx.
  by rewrite SFltb_irrefl in Hxx.
Qed.

End FloatOrder.

Section SortFacts.
Import models storage.

(** A loop [for k := a; k < a + n; k++] with an invariant. *)
Lemma foldl_seq_inv {A} (f : A -> nat -> A) (I : nat -> A -> Prop) n a x :
  I a x ->
  (forall k y, (a <= k < a + n)%nat -> I k y -> I (S k) (f y k)) ->
  I (a + n)%nat (foldl f x (seq a n)).
Proof.
  revert a x. induction n as [|n IH]; intros a x Hx Hstep.
  - by rewrite Nat.add_0_r.
  - cbn [seq foldl]. replace (a + S n)%nat with (S a + n)%nat by lia.
    apply IH.
    + apply Hstep; [lia|done].
    + intros k y Hk. apply Hstep. lia.
Qed.

(** Exchanging two elements of a list. *)
Lemma swap_lookup {A} (l : list A) i j x y k :
  l !! i = Some x -> l !! j = Some y ->
  <[i := y]> (<[j := x]> l) !! k
  = l !! (if decide (k = i) then j else if decide (k = j) then i else k).
Proof.
  intros Hi Hj.
  apply lookup_lt_Some in Hi as Hil. apply lookup_lt_Some in Hj as Hjl.
  destruct (decide (k = i)) as [->|Hki].
  - rewrite list_lookup_insert_eq by (rewrite length_insert; lia). done.
  - rewrite list_lookup_insert_ne by done.
    destruct (decide (k = j)) as [->|Hkj].
    + rewrite list_lookup_insert_eq by lia. done.
    + by rewrite list_lookup_insert_ne.
Qed.

Lemma swap_Permutation {A} (l : list A) i j x y :
  l !! i = Some x -> l !! j = Some y -> <[i := y]> (<[j := x]> l) ≡ₚ l.
Proof.
  intros Hi Hj. apply Permutation_inj. split; [by rewrite !length_insert|].
  exists (fun k => if decide (k = i) then j else if decide (k = j) then i else k).
  split.
  - intros a b. repeat case_decide; intros; subst; congruence.
  - intros k. by apply swap_lookup.
Qed.

Lemma swap_if_greater_perm i j rs : swap_if_greater i j rs ≡ₚ rs.
Proof.
  unfold swap_if_greater.
  destruct (rs !! i) as [ri|] eqn:Hi; [|done].
  destruct (rs !! j) as [rj|] eqn:Hj; [|done].
  case_match; [|done]. by apply swap_Permutation.
Qed.

Lemma sort_inner_perm i rs : sort_inner i rs ≡ₚ rs.
Proof.
  unfold sort_inner. generalize (seq (S i) (length rs - S i)). intros js.
  revert rs. induction js as [|j js IH]; intros rs; [done|].
  cbn [foldl]. rewrite IH. apply swap_if_greater_perm.
Qed.

Lemma sort_results_perm rs : sort_results rs ≡ₚ rs.
Proof.
  unfold sort_results. generalize (seq 0 (length rs - 1)). intros ks.
  revert rs. induction ks as [|i ks IH]; intros rs; [done|].
  cbn [foldl]. rewrite IH. apply sort_inner_perm.
Qed.

Lemma swap_if_greater_inv n i k rs :
  (i < k)%nat -> inner_inv n i k rs -> inner_inv n i (S k) (swap_if_greater i k rs).
Proof.
  intros Hik (Hlen & Hdesc & Hin). unfold swap_if_greater.
  destruct (rs !! i) as [ri|] eqn:Hi.
  2:{ split; [done|]. split; [done|]. intros j ri rj _ Hri. congruence. }
  destruct (rs !! k) as [rk|] eqn:Hk.
  2:{ split; [done|]. split; [done|]. intros j ri' rj Hj Hri Hrj.
      destruct (decide (j = k)) as [->|]; [congruence|].
      apply (Hin j ri' rj); [lia|congruence|done]. }
  destruct (float64.gtb (Score rk) (Score ri)) eqn:Hgt.
  - split; [by rewrite !length_insert|]. split.
    + intros a b ra rb Ha Hab. rewrite !(swap_lookup rs i k ri rk) by done.
      repeat case_decide; subst; try lia; intros Hra Hrb;
        (eapply (Hdesc a _ ra rb); [done| |exact Hra|exact Hrb]); lia.
    + intros j ri' rj Hj. rewrite !(swap_lookup rs i k ri rk) by done.
      rewrite decide_True by done. case_decide; [lia|].
      intros Hri Hrj. assert (ri' = rk) as -> by congruence.
      case_decide as Hjk.
      * subst j. assert (rj = ri) as -> by congruence. by apply gtb_asym.
      * destruct (float64.gtb (Score rj) (Score rk)) eqn:E; [exfalso|done].
        pose proof (gtb_trans _ _ _ E Hgt) as Habs.
        rewrite (Hin j ri rj) in Habs; [done|lia|congruence|done].
  - split; [done|]. split; [done|]. intros j ri' rj Hj Hri Hrj.
    destruct (decide (j = k)) as [->|]; [congruence|].
    apply (Hin j ri' rj); [lia|congruence|done].
Qed.

Lemma sort_inner_inv n i rs :
  length rs = n -> desc i rs -> length (sort_inner i rs) = n /\ desc (S i) (sort_inner i rs).
Proof.
  intros Hlen Hdesc. unfold sort_inner. rewrite Hlen.
  pose proof (foldl_seq_inv (fun rs j => swap_if_greater i j rs)
                (fun k rs => inner_inv n i k rs) (n - S i) (S i) rs) as H.
  destruct H as (Hl & Hd & Hin).
  - split; [done|]. split; [done|]. intros j ri rj Hj. lia.
  - intros k y Hk Hy. apply swap_if_greater_inv; [lia|done].
  - split; [done|]. intros a b ra rb Ha Hab Hra Hrb.
    destruct (decide (a = i)) as [->|Hne].
    + apply lookup_lt_Some in Hrb as Hb. apply (Hin b ra rb); [lia|done|done].
    + apply (Hd a b ra rb); [lia|done|done|done].
Qed.

Lemma sort_results_desc rs : desc (length rs) (sort_results rs).
Proof.
  unfold sort_results.
  pose proof (foldl_seq_inv (fun rs i => sort_inner i rs)
                (fun k rs' => length rs' = length rs /\ desc k rs')
                (length rs - 1) 0 rs) as H.
  destruct H as (Hl & Hd).
  - split; [done|]. intros i j ri rj Hi. lia.
  - intros k y Hk [Hy1 Hy2]. by apply sort_inner_inv.
  - cbn [Nat.add] in Hd. intros i j ri rj Hi Hij Hri Hrj.
    apply lookup_lt_Some in Hrj as Hj. apply (Hd i j ri rj); [lia|done|done|done].
Qed.

End SortFacts.

Section CosineFacts.
Import models storage.

Lemma cosine_loop_spec a b d na nb :
  length a = length b ->
  cosine_loop a b (d, na, nb)
  = (foldl (fun acc p => float32.add acc (float32.mul (fst p) (snd p))) d (zip a b),
     foldl (fun acc x => float32.add acc (float32.mul x x)) na a,
     foldl (fun acc x => float32.add acc (float32.mul x x)) nb b).
Proof.
  revert b d na nb. induction a as [|x a IH]; intros [|y b] d na nb Hlen;
    try done.
  cbn [cosine_loop zip zip_with foldl fst snd]. apply IH. by injection Hlen.
Qed.

Lemma cosineSimilarity_sums a b :
  length a = length b -> cosineSimilarity a b = cosine_of_sums a b.
Proof.
  intros Hlen. unfold cosineSimilarity, cosine_of_sums.
  replace (length a =? length b)%nat with true by (symmetry; by apply Nat.eqb_eq).
  cbn [negb]. by rewrite cosine_loop_spec.
Qed.

Lemma cosineSimilarity_mismatch a b :
  length a <> length b -> cosineSimilarity a b = float32.zero.
Proof.
  intros Hlen. unfold cosineSimilarity.
  by replace (length a =? length b)%nat with false
    by (symmetry; by apply Nat.eqb_neq).
Qed.

Lemma mul_comm x y : float32.mul x y = float32.mul y x.
Proof.
  unfold float32.mul, SFmul.
  destruct x as [sx|sx| |sx mx ex], y as [sy|sy| |sy my ey]; try done;
    rewrite (xorb_comm sx sy); try done.
  by rewrite (Pos.mul_comm mx my), (Z.add_comm ex ey).
Qed.

Lemma dot_comm a b : dot a b = dot b a.
Proof.
  unfold dot. generalize float32.zero. revert b.
  induction a as [|x a IH]; intros [|y b] acc; try done.
  cbn [zip zip_with foldl fst snd]. rewrite (mul_comm x y). apply IH.
Qed.

Lemma cosineSimilarity_comm a b : cosineSimilarity a b = cosineSimilarity b a.
Proof.
  destruct (decide (length a = length b)) as [Hlen|Hlen].
  - rewrite !cosineSimilarity_sums by done. unfold cosine_of_sums.
    rewrite (orb_comm (float32.eqb (sqnorm a) _)), (dot_comm a b).
    by rewrite (mul_comm (sqrt (sqnorm a))).
  - rewrite !cosineSimilarity_mismatch; done.
Qed.

Lemma cosineSimilarity_zero_norm a b :
  float32.eqb (sqnorm a) float32.zero = true
  \/ float32.eqb (sqnorm b) float32.zero = true ->
  cosineSimilarity a b = float32.zero.
Proof.
  intros H. destruct (decide (length a = length b)) as [Hlen|Hlen].
  - rewrite cosineSimilarity_sums by done. unfold cosine_of_sums.
    destruct H as [-> | ->]; [done|by rewrite orb_true_r].
  - by apply cosineSimilarity_mismatch.
Qed.

End CosineFacts.

Section SearchFacts.
Import models storage.

Lemma score_chunks_spec q cs :
  score_chunks q cs
  = map (scored q) (filter (fun c => length (Embedding c) = length q) cs).
Proof.
  unfold score_chunks. induction cs as [|c cs IH]; [done|].
  cbn [omap list_omap]. rewrite filter_cons.
  destruct (decide (length (Embedding c) = length q)) as [Hlen|Hlen].
  - rewrite (proj2 (Nat.eqb_eq _ _) Hlen). simpl. by rewrite IH.
  - rewrite (proj2 (Nat.eqb_neq _ _) Hlen). simpl. apply IH.
Qed.

Lemma SimpleVectorSearch_serving docs q k bookID :
  0 <= k ->
  SimpleVectorSearch (Serving docs) q k bookID
  = Returned (Ok (take (Z.to_nat k)
                       (sort_results (score_chunks q (candidates docs bookID))))).
Proof.
  intros Hk. unfold SimpleVectorSearch.
  assert (Hfind : Find (Serving docs) (if decide (bookID = []) then None else Some bookID)
                  = Ok (Rows (candidates docs bookID))).
  { unfold Find, candidates. by case_decide. }
  rewrite Hfind. cbn [All]. set (rs := sort_results _).
  destruct (k <? len rs) eqn:E.
  - apply Z.ltb_lt in E. rewrite slice_Some by lia.
    by rewrite Z.sub_0_r, drop_0.
  - apply Z.ltb_ge in E. rewrite take_ge; [done|]. unfold len in E. lia.
Qed.

(** The search itself does not guard its limit: 0 gives no result. *)
Lemma SimpleVectorSearch_zero docs q bookID :
  SimpleVectorSearch (Serving docs) q 0 bookID = Returned (Ok []).
Proof. by rewrite SimpleVectorSearch_serving. Qed.

(** A negative limit never gives a result: [results[:limit]] panics. *)
Lemma SimpleVectorSearch_negative s q k bookID rs :
  k < 0 -> SimpleVectorSearch s q k bookID <> Returned (Ok rs).
Proof.
  intros Hk. unfold SimpleVectorSearch. destruct (Find s _) as [cursor|]; [|done].
  destruct (All cursor); [|done].
  set (rs' := sort_results _).
  replace (k <? len rs') with true
    by (symmetry; apply Z.ltb_lt; pose proof (len_nonneg rs'); lia).
  unfold slice. replace (0 <=? k) with false by (symmetry; apply Z.leb_gt; lia).
  by rewrite andb_false_r.
Qed.

End SearchFacts.


Section SearchTheorems.
Import models storage.

(** C1.  The search evaluated where it departs from the claim, and what
    of the claim holds.  For a positive [k] the search over a serving
    store scores the candidates whose vector has the length of the query
    vector, and only those (a candidate of another length is left out,
    not scored as zero), puts them in descending order of their scores
    (no result is followed by one of a greater score) and returns the
    first [k].  The score, however, is not the cosine similarity: for the
    query [1000, 0] over the vectors [1000, 0] and [3, 1] the search
    returns the chunk with [3, 1], where the dot product over the product
    of the L2 norms ([cosine_spec]) is 1 for the chunk that holds the
    query vector itself, and less for the other. *)
Theorem C1_search_sorts_truncates_but_cosine_is_off :
  (forall (docs : list Chunk) (q : list spec_float) (k : Z) (bookID : gostring),
     0 < k ->
     exists sorted,
       SimpleVectorSearch (Serving docs) q k bookID
       = Returned (Ok (take (Z.to_nat k) sorted))
       /\ sorted ≡ₚ map (scored q)
                      (filter (fun c => length (Embedding c) = length q)
                              (candidates docs bookID))
       /\ (forall i j ri rj, (i < j)%nat ->
             sorted !! i = Some ri -> sorted !! j = Some rj ->
             float64.gtb (Score rj) (Score ri) = false)
       /\ (length (take (Z.to_nat k) sorted) <= Z.to_nat k)%nat)
  /\ SimpleVectorSearch (Serving far_docs) far_query 1 []
     = Returned (Ok [scored far_query (ex_chunk "b1" 1 [3; 1])])
  /\ Embedding (ex_chunk "b1" 0 [1000; 0]) = far_query
  /\ cosine_spec far_query far_query = float32.of_int 1
  /\ SFltb (cosine_spec far_query (map float32.of_int [3; 1]))
           (cosine_spec far_query far_query) = true
  /\ cosineSimilarity far_query far_query = S754_finite false 9985768 (-24)
  /\ SFltb (cosineSimilarity far_query far_query)
           (cosineSimilarity far_query (map float32.of_int [3; 1])) = true.
Proof.
  split.
  { intros docs q k bookID Hk.
    exists (sort_results (score_chunks q (candidates docs bookID))).
    split; [apply SimpleVectorSearch_serving; lia|]. split; [|split].
    - rewrite sort_results_perm. by rewrite score_chunks_spec.
    - intros i j ri rj Hij Hi Hj.
      apply (sort_results_desc (score_chunks q (candidates docs bookID)) i j ri rj);
        try done.
      apply lookup_lt_Some in Hi.
      pose proof (Permutation_length
                    (sort_results_perm (score_chunks q (candidates docs bookID)))).
      lia.
    - rewrite length_take. lia. }
  split; [vm_compute; reflexivity|]. split; [reflexivity|].
  split; [vm_compute; reflexivity|]. split; [vm_compute; reflexivity|].
  split; vm_compute; reflexivity.
Qed.

(** C2.  With a non-empty document filter, every result the search returns
    holds a chunk whose [BookID] is the filter, whatever the store, the
    query and [k]; over a serving store and with [k >= 0] the search does
    return, and its results are chunks of the store. *)
Theorem C2_filtered_search_stays_in_book
    (s : MongoStore) (q : list spec_float) (k : Z) (bookID : gostring) :
  bookID <> [] ->
  (forall rs, SimpleVectorSearch s q k bookID = Returned (Ok rs) ->
     Forall (fun r => BookID (SRChunk r) = bookID) rs)
  /\ (forall docs, s = Serving docs -> 0 <= k ->
        exists rs, SimpleVectorSearch s q k bookID = Returned (Ok rs)
                   /\ Forall (fun r => SRChunk r ∈ docs) rs).
Proof.
  intros Hbook.
  assert (Hin : forall docs r,
    r ∈ take (Z.to_nat k) (sort_results (score_chunks q (candidates docs bookID))) ->
    SRChunk r ∈ docs /\ BookID (SRChunk r) = bookID).
  { intros docs r Hr. apply elem_of_take in Hr as (i & Hr & _).
    apply list_elem_of_lookup_2 in Hr.
    rewrite sort_results_perm, score_chunks_spec in Hr.
    apply list_elem_of_fmap in Hr as (c & -> & Hc).
    apply list_elem_of_filter in Hc as [_ Hc]. unfold candidates in Hc.
    rewrite decide_False in Hc by done.
    apply list_elem_of_filter in Hc as [Hb Hc]. done. }
  split.
  - intros rs Hrs. destruct s as [docs|e|e]; [|done|done].
    destruct (decide (0 <= k)) as [Hk|Hk].
    + rewrite SimpleVectorSearch_serving in Hrs by done. injection Hrs as <-.
      apply Forall_forall. intros r Hr. by apply Hin in Hr as [_ Hr].
    + by apply SimpleVectorSearch_negative in Hrs; [|lia].
  - intros docs -> Hk. eexists. split; [by apply SimpleVectorSearch_serving|].
    apply Forall_forall. intros r Hr. by apply Hin in Hr as [Hr _].
Qed.

Lemma C2_filtered_search_witness :
  str "b1" <> [] /\
  (forall rs, SimpleVectorSearch (Serving ex_docs) ex_query 5 (str "b1") = Returned (Ok rs) ->
     Forall (fun r => BookID (SRChunk r) = str "b1") rs)
  /\ (forall docs, Serving ex_docs = Serving docs -> 0 <= 5 ->
        exists rs, SimpleVectorSearch (Serving ex_docs) ex_query 5 (str "b1") = Returned (Ok rs)
                   /\ Forall (fun r => SRChunk r ∈ docs) rs).
Proof.
  split; [done|].
  apply (C2_filtered_search_stays_in_book (Serving ex_docs) ex_query 5 (str "b1")).
  done.
Defined.

End SearchTheorems.

(* ====================================================================== *)
(** * The embedder and the query handler                                   *)
(* ====================================================================== *)


Section EmbedderFacts.
Import embedder.

Lemma valid_order_id : valid_order id.
Proof. by intros m. Qed.

Lemma valid_order_from_second : valid_order from_second.
Proof.
  intros m. unfold from_second, rotate.
  rewrite Permutation_app_comm. by rewrite take_drop.
Qed.

Lemma add_word_length n emb entry : length (add_word n emb entry) = length emb.
Proof. unfold add_word. apply length_alter. Qed.

(** The local embedding always has 128 components. *)
Lemma generateSimpleEmbedding_length rt order text :
  length (generateSimpleEmbedding rt order text) = 128%nat.
Proof.
  unfold generateSimpleEmbedding.
  set (words := strings.Fields _).
  assert (Hfold : forall l emb, length (foldl (add_word (len words)) emb l) = length emb).
  { induction l as [|x l IH]; intros emb; [done|].
    cbn [foldl]. by rewrite IH, add_word_length. }
  case_match; [rewrite length_map|]; by rewrite Hfold, length_replicate.
Qed.

(** The slots written by the goroutines of the batch: whatever the order
    in which they run, slot [i] ends up with the value computed for [i]. *)
Lemma batch_slots {A} (f : nat -> A) (sched : list nat) (slots : list A) i :
  (i < length slots)%nat ->
  foldl (fun embs idx => <[idx := f idx]> embs) slots sched !! i
  = if decide (i ∈ sched) then Some (f i) else slots !! i.
Proof.
  revert slots. induction sched as [|j sched IH]; intros slots Hi.
  - rewrite decide_False; [done|]. apply not_elem_of_nil.
  - cbn [foldl]. rewrite IH by (by rewrite length_insert).
    destruct (decide (i ∈ sched)) as [Hin|Hnin].
    + rewrite decide_True; [done|]. by apply elem_of_cons; right.
    + destruct (decide (i = j)) as [->|Hne].
      * rewrite decide_True by (by apply elem_of_cons; left).
        by apply list_lookup_insert_eq.
      * rewrite decide_False.
        -- by apply list_lookup_insert_ne.
        -- intros [?|?]%elem_of_cons; done.
Qed.

Lemma batch_slots_length {A} (f : nat -> A) (sched : list nat) (slots : list A) :
  length (foldl (fun embs idx => <[idx := f idx]> embs) slots sched) = length slots.
Proof.
  revert slots. induction sched as [|j sched IH]; intros slots; [done|].
  cbn [foldl]. by rewrite IH, length_insert.
Qed.

(** In simple mode a batch of at least one text returns, for every
    schedule of the goroutines, one vector per text, that of text [i] in
    slot [i]. *)
Lemma GenerateEmbeddingsBatch_simple rt orders sched url texts batchSize :
  texts <> [] -> sched ≡ₚ seq 0 (length texts) ->
  GenerateEmbeddingsBatch rt orders sched (NewEmbedder url (str "simple")) texts batchSize
  = Returned (Ok (imap (fun i text => generateSimpleEmbedding rt (orders i) text) texts)).
Proof.
  intros Hne Hsched. unfold GenerateEmbeddingsBatch. cbn [Model].
  rewrite decide_True by done.
  replace (len texts =? 0) with false.
  2:{ symmetry. apply Z.eqb_neq. unfold len. destruct texts; [done|cbn; lia]. }
  do 2 f_equal. apply list_eq. intros i.
  rewrite list_lookup_imap.
  destruct (decide (i < length texts)%nat) as [Hi|Hi].
  - rewrite batch_slots by (by rewrite length_replicate).
    rewrite decide_True.
    + destruct (lookup_lt_is_Some_2 texts i Hi) as [text Ht]. by rewrite Ht.
    + rewrite Hsched. apply elem_of_seq. lia.
  - rewrite !lookup_ge_None_2; [done|lia|].
    rewrite batch_slots_length, length_replicate. lia.
Qed.

(** In simple mode the sequential loop returns the same list, when its
    calls iterate their word maps in the same orders. *)
Lemma embed_from_simple rt orders url i texts :
  embed_from rt orders (NewEmbedder url (str "simple")) i texts
  = Ok (imap (fun j text => generateSimpleEmbedding rt (orders (i + j)%nat) text) texts).
Proof.
  revert i. induction texts as [|text texts IH]; intros i; [done|].
  cbn [embed_from imap]. unfold GenerateEmbedding at 1. cbn [Model].
  rewrite decide_True by done. rewrite IH, Nat.add_0_r. do 2 f_equal.
  apply imap_ext. intros j x _. cbn. f_equal. f_equal. lia.
Qed.

Lemma GenerateEmbeddings_simple rt orders url texts :
  GenerateEmbeddings rt orders (NewEmbedder url (str "simple")) texts
  = Ok (imap (fun i text => generateSimpleEmbedding rt (orders i) text) texts).
Proof. unfold GenerateEmbeddings. by rewrite embed_from_simple. Qed.

End EmbedderFacts.


Section EmbedderTheorems.
Import embedder storage.

(** The embedding of [colliding_text] under two iteration orders of the
    word map: bucket 33 receives 1/7 + 2/7 + 3/7 in one order and
    2/7 + 3/7 + 1/7 in the other, and these float32 sums differ. *)
Lemma colliding_text_embeddings (rt : runtime) :
  generateSimpleEmbedding rt id colliding_text !! 33%nat
  = Some (S754_finite false 16548945 (-24))
  /\ generateSimpleEmbedding rt from_second colliding_text !! 33%nat
     = Some (S754_finite false 16548944 (-24))
  /\ generateSimpleEmbedding rt id colliding_text
     <> generateSimpleEmbedding rt from_second colliding_text.
Proof.
  assert (H1 : generateSimpleEmbedding rt id colliding_text !! 33%nat
               = Some (S754_finite false 16548945 (-24))) by (vm_compute; reflexivity).
  assert (H2 : generateSimpleEmbedding rt from_second colliding_text !! 33%nat
               = Some (S754_finite false 16548944 (-24))) by (vm_compute; reflexivity).
  split; [exact H1|]. split; [exact H2|].
  intros Heq. rewrite Heq, H2 in H1. discriminate H1.
Qed.

(** C6.  The local embedder evaluated where it departs from the claim.
    Two runs on [colliding_text], whose word map the runtime iterates from
    the first entry in one run and from the second in the other, return
    vectors that differ in component 33.  On [sparse_text], which has the
    non-empty token "a", the vector returned has one non-zero component,
    16436215 * 2^-26, below 1/4: its L2 norm is not 1.  (The vector always
    has 128 components: [generateSimpleEmbedding_length].) *)
Theorem C6_local_embedding_order_and_norm (rt : runtime) :
  valid_order id /\ valid_order from_second
  /\ generateSimpleEmbedding rt id colliding_text !! 33%nat
     = Some (S754_finite false 16548945 (-24))
  /\ generateSimpleEmbedding rt from_second colliding_text !! 33%nat
     = Some (S754_finite false 16548944 (-24))
  /\ generateSimpleEmbedding rt id colliding_text
     <> generateSimpleEmbedding rt from_second colliding_text
  /\ generateSimpleEmbedding rt id sparse_text
     = <[97%nat := S754_finite false 16436215 (-26)]> (replicate 128 float32.zero)
  /\ SFltb (S754_finite false 16436215 (-26))
           (float32.div (float32.of_int 1) (float32.of_int 4)) = true.
Proof.
  split; [apply valid_order_id|]. split; [apply valid_order_from_second|].
  destruct (colliding_text_embeddings rt) as (H1 & H2 & Hne).
  split; [exact H1|]. split; [exact H2|]. split; [exact Hne|].
  split; vm_compute; reflexivity.
Qed.

(** C7.  [cosineSimilarity] is symmetric, and is zero whenever one of the
    squared norms it accumulates is zero; but the similarity of the
    vector [1000] with itself is 9985768 * 2^-24, below 0.6, because [sqrt]
    returns about 1296 for 1000000. *)
Theorem C7_cosine_symmetric_zero_but_self_similarity_off :
  (forall a b, cosineSimilarity a b = cosineSimilarity b a)
  /\ (forall a b,
        float32.eqb (sqnorm a) float32.zero = true
        \/ float32.eqb (sqnorm b) float32.zero = true ->
        cosineSimilarity a b = float32.zero)
  /\ sqrt (float32.of_int 1000000) = S754_finite false 10618402 (-13)
  /\ cosineSimilarity [float32.of_int 1000] [float32.of_int 1000]
     = S754_finite false 9985768 (-24)
  /\ SFltb (cosineSimilarity [float32.of_int 1000] [float32.of_int 1000])
           (float32.div (float32.of_int 6) (float32.of_int 10)) = true.
Proof.
  split; [apply cosineSimilarity_comm|]. split; [apply cosineSimilarity_zero_norm|].
  split; [vm_compute; reflexivity|]. split; vm_compute; reflexivity.
Qed.

(** What the same [sqrt] does to the ranking: for the query [1000, 0] the
    search puts the chunk with the vector [3, 1] (score 0.73) before the
    chunk that holds the query vector itself (score 0.60). *)
Lemma sqrt_reorders_search :
  SimpleVectorSearch (Serving far_docs) far_query 1 []
  = Returned (Ok [models.mkSearchResult (ex_chunk "b1" 1 [3; 1])
                    (S754_finite false 6592373219917824 (-53))])
  /\ cosineSimilarity far_query far_query = S754_finite false 9985768 (-24)
  /\ cosineSimilarity far_query (map float32.of_int [3; 1])
     = S754_finite false 12279252 (-24).
Proof.
  split; [vm_compute; reflexivity|]. split; vm_compute; reflexivity.
Qed.

(** C8.  The batch embedding in simple mode, evaluated where it departs
    from the claim: for the empty list of texts it panics (the log line
    after the wait divides by the number of texts), where the sequential
    loop returns the empty list.  For a non-empty list it returns, for
    every schedule of its goroutines, one vector per text, slot [i]
    holding the embedding computed for text [i], which is what the
    sequential loop returns when its calls iterate their word maps in the
    same orders; the vector need not be the one a separate call of the
    single-text embedder returns, because each call iterates its word map
    in an order of its own. *)
Theorem C8_batch_panics_on_no_texts
    (rt : runtime) (orders : nat -> map_order) (sched : list nat)
    (url : gostring) (batchSize : Z) :
  GenerateEmbeddingsBatch rt orders sched (NewEmbedder url (str "simple")) [] batchSize
  = Panicked
  /\ GenerateEmbeddings rt orders (NewEmbedder url (str "simple")) [] = Ok []
  /\ (forall texts, texts <> [] -> sched ≡ₚ seq 0 (length texts) ->
        GenerateEmbeddingsBatch rt orders sched (NewEmbedder url (str "simple"))
                                texts batchSize
        = Returned (Ok (imap (fun i text =>
                                generateSimpleEmbedding rt (orders i) text) texts))
        /\ GenerateEmbeddingsBatch rt orders sched (NewEmbedder url (str "simple"))
                                   texts batchSize
           = Returned (GenerateEmbeddings rt orders
                         (NewEmbedder url (str "simple")) texts))
  /\ GenerateEmbeddingsBatch rt (fun _ => from_second) [0%nat]
       (NewEmbedder url (str "simple")) [colliding_text] batchSize
     <> Returned (Ok [generateSimpleEmbedding rt id colliding_text]).
Proof.
  split; [reflexivity|]. split; [reflexivity|]. split.
  - intros texts Hne Hsched. rewrite GenerateEmbeddings_simple.
    split; by apply GenerateEmbeddingsBatch_simple.
  - rewrite GenerateEmbeddingsBatch_simple; [|discriminate|reflexivity].
    cbn [imap]. cbv beta. intros Heq.
    destruct (colliding_text_embeddings rt) as (_ & _ & Hne).
    congruence.
Qed.

End EmbedderTheorems.

Section QueryTheorems.
Import models storage embedder retriever controller.




(** The request of the witness, which asks for no count, is answered
    with the two chunks of its book. *)
Lemma default_top_k_retrieves_both_chunks :
  exists r1 r2,
    QueryBook_retrieve ex_runtime id ex_config wide_retriever ex_request
    = Retrieved (Returned (Ok [r1; r2]))
    /\ BookID (SRChunk r1) = str "b1" /\ BookID (SRChunk r2) = str "b1".
Proof. eexists _, _. split; [vm_compute; reflexivity|]. split; reflexivity. Qed.

End QueryTheorems.

(* ====================================================================== *)
(** * Further properties of the chunker                                    *)
(* ====================================================================== *)

Section MetricsTheorems.
Import chunk_metrics.

Lemma measure_fold chunks t mn mx :
  exists t' mn' mx',
    foldl measure (t, mn, mx) chunks = (t', mn', mx')
    /\ mn' <= mn /\ mx <= mx'
    /\ Forall (fun chunk => mn' <= len chunk <= mx') chunks
    /\ (mn' = mn \/ exists chunk, chunk ∈ chunks /\ len chunk = mn')
    /\ (mx' = mx \/ exists chunk, chunk ∈ chunks /\ len chunk = mx').
Proof.
  revert t mn mx. induction chunks as [|c chunks IH]; intros t mn mx.
  - exists t, mn, mx. repeat split; try lia; auto.
  - cbn [foldl measure].
    set (mn1 := if len c <? mn then len c else mn).
    set (mx1 := if mx <? len c then len c else mx).
    assert (Hmn1 : mn1 <= mn /\ mn1 <= len c /\ (mn1 = mn \/ mn1 = len c)).
    { unfold mn1. destruct (len c <? mn) eqn:E;
        [apply Z.ltb_lt in E|apply Z.ltb_ge in E]; lia. }
    assert (Hmx1 : mx <= mx1 /\ len c <= mx1 /\ (mx1 = mx \/ mx1 = len c)).
    { unfold mx1. destruct (mx <? len c) eqn:E;
        [apply Z.ltb_lt in E|apply Z.ltb_ge in E]; lia. }
    destruct (IH (t + len c) mn1 mx1) as (t' & mn' & mx' & Hf & H1 & H2 & Hall & Hmin & Hmax).
    exists t', mn', mx'. split; [exact Hf|]. split; [lia|]. split; [lia|].
    split; [|split].
    + constructor; [lia|done].
    + destruct Hmin as [->|(ch & Hin & Hlen)].
      * destruct Hmn1 as (_ & _ & [->| ->]); [by left|].
        right. exists c. split; [apply elem_of_cons; by left|done].
      * right. exists ch. split; [apply elem_of_cons; by right|done].
    + destruct Hmax as [->|(ch & Hin & Hlen)].
      * destruct Hmx1 as (_ & _ & [->| ->]); [by left|].
        right. exists c. split; [apply elem_of_cons; by left|done].
      * right. exists ch. split; [apply elem_of_cons; by right|done].
Qed.

Lemma CalculateMetrics_facts chunks originalText :
  let m := CalculateMetrics chunks originalText in
  TotalChunks m = len chunks
  /\ OriginalSize m = len originalText
  /\ Forall (fun chunk => MinChunkSize m <= len chunk <= MaxChunkSize m) chunks
  /\ (chunks <> [] ->
      (exists chunk, chunk ∈ chunks /\ len chunk = MinChunkSize m)
      /\ (exists chunk, chunk ∈ chunks /\ len chunk = MaxChunkSize m))
  /\ (chunks = [] ->
      MinChunkSize m = 0 /\ MaxChunkSize m = 0 /\ AvgChunkSize m = float64.zero).
Proof.
  destruct chunks as [|first rest].
  { cbn. repeat split; try done. }
  unfold CalculateMetrics.
  destruct (measure_fold (first :: rest) 0 (len first) (len first))
    as (t' & mn' & mx' & Hf & H1 & H2 & Hall & Hmin & Hmax).
  rewrite Hf. cbn [TotalChunks OriginalSize MinChunkSize MaxChunkSize AvgChunkSize].
  split; [done|]. split; [done|]. split; [done|]. split; [|done].
  intros _. split.
  - destruct Hmin as [->|H]; [|done]. exists first. split; [apply elem_of_cons; by left|done].
  - destruct Hmax as [->|H]; [|done]. exists first. split; [apply elem_of_cons; by left|done].
Qed.

(** [CalculateMetrics] counts the chunks and measures the original text;
    its minimum and maximum bound the length of every chunk, and each is
    the length of one of the chunks.  For no chunks at all, every field
    but [OriginalSize] is zero. *)
Theorem CalculateMetrics_min_max (chunks : list gostring) (originalText : gostring) :
  let m := CalculateMetrics chunks originalText in
  TotalChunks m = len chunks
  /\ OriginalSize m = len originalText
  /\ Forall (fun chunk => MinChunkSize m <= len chunk <= MaxChunkSize m) chunks
  /\ (chunks <> [] ->
      (exists chunk, chunk ∈ chunks /\ len chunk = MinChunkSize m)
      /\ (exists chunk, chunk ∈ chunks /\ len chunk = MaxChunkSize m))
  /\ (chunks = [] ->
      MinChunkSize m = 0 /\ MaxChunkSize m = 0 /\ AvgChunkSize m = float64.zero).
Proof. apply CalculateMetrics_facts. Qed.

End MetricsTheorems.

Section BoundaryTheorems.
Import chunker.

Lemma byte_at_range t i : 0 <= byte_at t i < 256.
Proof.
  unfold byte_at. destruct (i <? 0); [lia|].
  destruct (t !! Z.to_nat i) as [c|]; [apply code_range|lia].
Qed.

Lemma index_at_Some t i b :
  index_at t i = Some b -> 0 <= i < len t /\ byte_at t i = b.
Proof.
  unfold index_at, byte_at. destruct (i <? 0) eqn:E; [done|].
  apply Z.ltb_ge in E.
  destruct (t !! Z.to_nat i) as [c|] eqn:El; [|done]. intros [= <-].
  apply lookup_lt_Some in El. unfold len. split; [lia|done].
Qed.

Lemma index_at_in_range t i :
  0 <= i < len t -> index_at t i = Some (byte_at t i).
Proof.
  intros Hi. unfold index_at, byte_at.
  replace (i <? 0) with false by (symmetry; apply Z.ltb_ge; lia).
  destruct (t !! Z.to_nat i) as [c|] eqn:El; [done|].
  apply lookup_ge_None in El. unfold len in Hi. lia.
Qed.

Lemma index_at_outside t i : i < 0 \/ len t <= i -> index_at t i = None.
Proof.
  intros Hi. unfold index_at. destruct (i <? 0) eqn:E; [done|].
  apply Z.ltb_ge in E.
  destruct (t !! Z.to_nat i) as [c|] eqn:El; [|done].
  apply lookup_lt_Some in El. unfold len in Hi. lia.
Qed.

Lemma sentence_at_checked_in_range t i :
  0 <= i < len t -> sentence_at_checked t i = Returned (sentence_at t i).
Proof.
  intros Hi. unfold sentence_at_checked, sentence_at.
  rewrite index_at_in_range by done.
  destruct (existsb _ _); [|done]. cbn [andb].
  destruct (len t <=? i + 1) eqn:E; [done|]. apply Z.leb_gt in E.
  rewrite index_at_in_range by lia. done.
Qed.

Lemma paragraph_at_checked_in_range t i :
  0 <= i < len t -> paragraph_at_checked t i = Returned (paragraph_at t i).
Proof.
  intros Hi. unfold paragraph_at_checked, paragraph_at.
  destruct (i + 1 <? len t) eqn:E; [|done]. apply Z.ltb_lt in E.
  rewrite !index_at_in_range by lia. cbn [andb].
  destruct (byte_at t i =? 10); done.
Qed.

Lemma space_at_checked_in_range t i :
  0 <= i < len t -> space_at_checked t i = Returned (space_at t i).
Proof.
  intros Hi. unfold space_at_checked, space_at.
  by rewrite index_at_in_range.
Qed.

Lemma scan_down_checked_in_range foundc found n i :
  (forall k, i - Z.of_nat n < k <= i -> foundc k = Returned (found k)) ->
  scan_down_checked foundc n i = Returned (scan_down found n i).
Proof.
  revert i. induction n as [|n IH]; intros i H; [done|].
  cbn [scan_down_checked scan_down]. rewrite H by lia.
  destruct (found i); [done|]. apply IH. intros k Hk. apply H. lia.
Qed.

Lemma scan_down_checked_Some foundc n i r :
  scan_down_checked foundc n i = Returned (Some r) ->
  exists k, i - Z.of_nat n < k <= i /\ foundc k = Returned (Some r).
Proof.
  revert i. induction n as [|n IH]; intros i H; [done|].
  cbn [scan_down_checked] in H. destruct (foundc i) as [[r'|]|] eqn:E; [| |done].
  - injection H as ->. exists i. split; [lia|done].
  - apply IH in H as (k & Hk & Hf). exists k. split; [lia|done].
Qed.

Lemma findSentenceBoundary_checked_in_range t start end_ :
  -1 <= start -> end_ <= len t ->
  findSentenceBoundary_checked t start end_
  = Returned (findSentenceBoundary t start end_).
Proof.
  intros Hs He. unfold findSentenceBoundary_checked, findSentenceBoundary.
  destruct (end_ <=? start) eqn:E; [done|]. apply Z.leb_gt in E.
  set (n := Z.to_nat (end_ - 1 - start)).
  assert (Hn : Z.of_nat n = end_ - 1 - start) by lia.
  rewrite (scan_down_checked_in_range _ (sentence_at t))
    by (intros k Hk; apply sentence_at_checked_in_range; lia).
  destruct (scan_down (sentence_at t) n (end_ - 1)); [done|].
  rewrite (scan_down_checked_in_range _ (paragraph_at t))
    by (intros k Hk; apply paragraph_at_checked_in_range; lia).
  destruct (scan_down (paragraph_at t) n (end_ - 1)); [done|].
  rewrite (scan_down_checked_in_range _ (space_at t))
    by (intros k Hk; apply space_at_checked_in_range; lia).
  by destruct (scan_down (space_at t) n (end_ - 1)).
Qed.

Lemma findSentenceBoundary_checked_past_the_text t start end_ :
  start + 1 < end_ -> len t < end_ ->
  findSentenceBoundary_checked t start end_ = Panicked.
Proof.
  intros Hs He. unfold findSentenceBoundary_checked.
  replace (end_ <=? start) with false by (symmetry; apply Z.leb_gt; lia).
  destruct (Z.to_nat (end_ - 1 - start)) as [|n] eqn:En; [lia|].
  cbn [scan_down_checked]. unfold sentence_at_checked at 1.
  by rewrite index_at_outside by lia.
Qed.

Lemma sentence_at_checked_Some t i r :
  sentence_at_checked t i = Returned (Some r) ->
  r = i + 1
  /\ (exists b, index_at t i = Some b /\ b ∈ [46; 33; 63])
  /\ (len t <= r
      \/ exists next, index_at t r = Some next /\ unicode.IsSpace next = true).
Proof.
  unfold sentence_at_checked. destruct (index_at t i) as [b|] eqn:Eb; [|done].
  destruct (existsb _ _) eqn:E1; [|done].
  assert (Hb : b ∈ [46; 33; 63]).
  { apply index_at_Some in Eb as [_ <-].
    pose proof (byte_at_range t i) as Hr.
    unfold sentenceEnders in E1. cbn [existsb] in E1.
    repeat (apply orb_true_iff in E1 as [E1|E1]);
      try (apply Z.eqb_eq in E1; first [lia | rewrite E1]);
      try done.
    - apply elem_of_cons. by left.
    - apply elem_of_cons. right. apply elem_of_cons. by left.
    - do 2 (apply elem_of_cons; right). apply elem_of_cons. by left. }
  destruct (len t <=? i + 1) eqn:E2.
  { apply Z.leb_le in E2. intros [= <-]. split; [done|]. split; [by exists b|].
    by left. }
  destruct (index_at t (i + 1)) as [next|] eqn:En; [|done].
  destruct (unicode.IsSpace next) eqn:Esp; [|done].
  intros [= <-]. split; [done|]. split; [by exists b|]. right. by exists next.
Qed.

(** [findSentenceBoundary] with its index checks.  Called on a range
    inside the text ([-1 <= start], [end <= len(text)]) it returns the
    boundary of [findSentenceBoundary]; called with a range of two or
    more positions that ends past the text it panics at its first read.
    When it returns for a non-empty range, the boundary is the raw end,
    or the position after an ASCII full stop, exclamation or question
    mark of the text that ends the text or is followed by a white-space
    byte, or the position after two newline bytes, or the position after
    a white-space byte.  The full-width marks of [sentenceEnders] never
    match, because the loop compares them with single bytes. *)
Theorem findSentenceBoundary_follows_a_byte (text : gostring) (start end_ : Z) :
  (-1 <= start -> end_ <= len text ->
   findSentenceBoundary_checked text start end_
   = Returned (findSentenceBoundary text start end_))
  /\ (start + 1 < end_ -> len text < end_ ->
      findSentenceBoundary_checked text start end_ = Panicked)
  /\ (forall i r, sentence_at_checked text i = Returned (Some r) ->
        r = i + 1 /\ exists b, index_at text i = Some b /\ b ∈ [46; 33; 63])
  /\ (forall r, start < end_ ->
        findSentenceBoundary_checked text start end_ = Returned r ->
        r = end_
        \/ (start < r - 1 < end_
            /\ (exists b, index_at text (r - 1) = Some b /\ b ∈ [46; 33; 63])
            /\ (len text <= r
                \/ exists next, index_at text r = Some next
                                /\ unicode.IsSpace next = true))
        \/ (start < r - 2 < end_
            /\ index_at text (r - 2) = Some 10 /\ index_at text (r - 1) = Some 10)
        \/ (start < r - 1 < end_
            /\ exists b, index_at text (r - 1) = Some b
                         /\ unicode.IsSpace b = true)).
Proof.
  split; [apply findSentenceBoundary_checked_in_range|].
  split; [apply findSentenceBoundary_checked_past_the_text|].
  split.
  { intros i r H. apply sentence_at_checked_Some in H as (H1 & H2 & _). done. }
  intros r Hlt. unfold findSentenceBoundary_checked.
  replace (end_ <=? start) with false by (symmetry; apply Z.leb_gt; lia).
  set (n := Z.to_nat (end_ - 1 - start)).
  assert (Hn : Z.of_nat n = end_ - 1 - start) by lia.
  destruct (scan_down_checked (sentence_at_checked text) n (end_ - 1))
    as [[r1|]|] eqn:E1; [| |done].
  { intros [= <-]. apply scan_down_checked_Some in E1 as (k & Hk & Hf).
    apply sentence_at_checked_Some in Hf as (-> & H2 & H3).
    right. left. replace (k + 1 - 1) with k by lia. split; [lia|done]. }
  destruct (scan_down_checked (paragraph_at_checked text) n (end_ - 1))
    as [[r2|]|] eqn:E2; [| |done].
  { intros [= <-]. apply scan_down_checked_Some in E2 as (k & Hk & Hf).
    unfold paragraph_at_checked in Hf.
    destruct (k + 1 <? len text); [|done].
    destruct (index_at text k) as [b|] eqn:Eb; [|done].
    destruct (b =? 10) eqn:Eb10; [|done]. apply Z.eqb_eq in Eb10. subst b.
    destruct (index_at text (k + 1)) as [next|] eqn:En; [|done].
    destruct (next =? 10) eqn:En10; [|done]. apply Z.eqb_eq in En10. subst next.
    injection Hf as <-. right. right. left.
    replace (k + 2 - 2) with k by lia. replace (k + 2 - 1) with (k + 1) by lia.
    split; [lia|done]. }
  destruct (scan_down_checked (space_at_checked text) n (end_ - 1))
    as [[r3|]|] eqn:E3; [| |done].
  { intros [= <-]. apply scan_down_checked_Some in E3 as (k & Hk & Hf).
    unfold space_at_checked in Hf.
    destruct (index_at text k) as [b|] eqn:Eb; [|done].
    destruct (unicode.IsSpace b) eqn:Esp; [|done]. injection Hf as <-.
    right. right. right. replace (k + 1 - 1) with k by lia.
    split; [lia|]. by exists b. }
  intros [= <-]. by left.
Qed.

(** The call [ChunkText] makes has [0 <= start] and [end < len(text)]:
    it never panics, and returns the boundary of [findSentenceBoundary]. *)
Lemma findSentenceBoundary_checked_inside t start end_ :
  0 <= start -> end_ < len t ->
  findSentenceBoundary_checked t start end_
  = Returned (findSentenceBoundary t start end_).
Proof. intros Hs He. apply findSentenceBoundary_checked_in_range; lia. Qed.

(** A range that ends past the text: the call panics, where the boundary
    computed without the index checks is the raw end. *)
Lemma findSentenceBoundary_past_abc :
  findSentenceBoundary_checked (str "abc") 0 10 = Panicked
  /\ findSentenceBoundary (str "abc") 0 10 = 10.
Proof. split; vm_compute; reflexivity. Qed.

End BoundaryTheorems.

Section CleanTextNormalForm.
Import utf8 strings chunker.

Lemma Split_absent s sep : sep ∉ s -> Split s sep = [s].
Proof.
  induction s as [|c s IH]; intros Hn; [done|].
  cbn [Split]. rewrite decide_False.
  - rewrite IH; [done|]. intros H. apply Hn. apply elem_of_cons. by right.
  - intros ->. apply Hn. apply elem_of_cons. by left.
Qed.

Lemma Join_cons2 e e' es sep :
  Join (e :: e' :: es) sep = e ++ sep ++ Join (e' :: es) sep.
Proof. done. Qed.

Lemma Join_app a b sep :
  a <> [] -> b <> [] -> Join (a ++ b) sep = Join a sep ++ sep ++ Join b sep.
Proof.
  intros Ha Hb. induction a as [|e a IH]; [done|].
  destruct a as [|e' a].
  - cbn [app]. destruct b as [|e' b]; [done|]. by rewrite Join_cons2.
  - change ((e :: e' :: a) ++ b) with (e :: e' :: (a ++ b)).
    rewrite !Join_cons2. change (e' :: a ++ b) with ((e' :: a) ++ b).
    rewrite IH by done. by rewrite <- !app_assoc.
Qed.

Lemma Join_Join (Fs : list (list gostring)) sep :
  Forall (fun F => F <> []) Fs ->
  Join (map (fun F => Join F sep) Fs) sep = Join (concat Fs) sep.
Proof.
  induction Fs as [|F Fs IH]; intros Hne; [done|].
  apply Forall_cons in Hne as [HF HFs].
  destruct Fs as [|F' Fs].
  - cbn. by rewrite app_nil_r.
  - cbn [map]. rewrite Join_cons2. cbn [map] in IH. rewrite IH by done.
    cbn [concat]. rewrite (Join_app F); [done|done|].
    apply Forall_cons in HFs as [HF' _]. destruct F'; [done|]. done.
Qed.

(** The runes decoded from a part of a string that holds no white space
    are not white space. *)
Lemma spacefree_nonspace s ra rb :
  range s = ra ++ rb -> spacefree (bytes ra) -> Forall nonspace ra.
Proof.
  intros Hr Hsf. apply Forall_forall. intros [r bs] Hin.
  apply list_elem_of_split in Hin as (ra1 & ra2 & ->).
  unfold nonspace. cbn [fst]. destruct (unicode.IsSpace r) eqn:Hsp; [exfalso|done].
  rewrite <- app_assoc in Hr. cbn [app] in Hr.
  apply range_app_inv in Hr as [_ Hr].
  set (u := concat (map snd ((r, bs) :: ra2 ++ rb))) in Hr.
  assert (Hbs : bs <> []).
  { apply (range_rune_nonempty u (r, bs)). rewrite <- Hr. apply elem_of_cons. by left. }
  assert (Hu : u = bs ++ concat (map snd (ra2 ++ rb))) by done.
  assert (Hune : u <> []).
  { rewrite Hu. destruct bs; done. }
  destruct (DecodeRuneInString u) as [r' w'] eqn:E.
  rewrite (range_cons _ r' w') in Hr by done.
  injection Hr as -> Hbs' _.
  destruct (decode_space_enc _ _ _ E Hsp) as [_ He]. rewrite <- Hbs' in He.
  apply (Hsf (bytes ra1) bs (bytes ra2)); [|done].
  unfold bytes. rewrite map_app, concat_app. done.
Qed.

Lemma fields_go_run run rs cur infield :
  Forall nonspace run -> run <> [] ->
  fields_go (run ++ rs) cur infield = fields_go rs (cur ++ bytes run) true.
Proof.
  revert cur infield. induction run as [|[r bs] run IH]; intros cur infield Hns Hne; [done|].
  apply Forall_cons in Hns as [Hr Hns]. unfold nonspace in Hr. cbn [fst] in Hr.
  cbn [app fields_go]. rewrite Hr.
  destruct run as [|x run].
  - cbn [app]. unfold bytes. cbn. by rewrite app_nil_r.
  - rewrite IH by done. unfold bytes. cbn [map concat snd]. by rewrite <- app_assoc.
Qed.

Lemma bytes_nonempty ra : bytes ra <> [] -> ra <> [].
Proof. by destruct ra. Qed.

Lemma Fields_single f : f <> [] -> spacefree f -> Fields f = [f].
Proof.
  intros Hne Hsf. unfold Fields.
  assert (Hns : Forall nonspace (range f)).
  { apply (spacefree_nonspace f (range f) []); [by rewrite app_nil_r|].
    unfold bytes. by rewrite range_bytes. }
  rewrite <- (app_nil_r (range f)).
  rewrite fields_go_run; [|done|].
  - cbn. unfold bytes. by rewrite range_bytes.
  - apply bytes_nonempty. unfold bytes. by rewrite range_bytes.
Qed.

Lemma Fields_cons f rest :
  f <> [] -> spacefree f ->
  Fields (f ++ str " " ++ rest) = f :: Fields rest.
Proof.
  intros Hne Hsf. unfold Fields.
  destruct (range_split f (str " " ++ rest)) as (ra & Hra & Hb).
  { right. exists " "%char, rest. split; [done|]. by vm_compute. }
  rewrite Hra.
  assert (Hns : Forall nonspace ra).
  { apply (spacefree_nonspace _ _ _ Hra). unfold bytes. by rewrite Hb. }
  rewrite fields_go_run; [|done|apply bytes_nonempty; unfold bytes; by rewrite Hb].
  rewrite (range_cons _ 32 1%nat); [|done|by apply decode_ascii].
  cbn [fields_go]. replace (unicode.IsSpace 32) with true by done.
  cbn [app]. unfold bytes. rewrite Hb. done.
Qed.

Lemma Fields_Join words :
  Forall (fun w => w <> [] /\ spacefree w) words ->
  Fields (Join words (str " ")) = words.
Proof.
  induction words as [|f words IH]; intros Hall; [done|].
  apply Forall_cons in Hall as [[Hne Hsf] Hall].
  destruct words as [|g words].
  - cbn [Join]. by apply Fields_single.
  - rewrite Join_cons2, Fields_cons by done. by rewrite IH.
Qed.

(** The fields of a trimmed line, or none for a blank line. *)
Lemma clean_line_fields line :
  clean_line line
  = if decide (Fields (TrimSpace line) = []) then []
    else [Join (Fields (TrimSpace line)) (str " ")].
Proof.
  unfold clean_line. destruct (decide (TrimSpace line = [])) as [E|E].
  - rewrite E. done.
  - rewrite decide_False; [done|].
    apply lead_ok_Fields; [done|]. apply TrimSpace_trimmed.
Qed.

Lemma clean_lines_words lines :
  Join (concat (map clean_line lines)) (str " ")
  = Join (concat (map (fun line => Fields (TrimSpace line)) lines)) (str " ").
Proof.
  set (Fs := filter (fun F : list gostring => F <> [])
                    (map (fun line => Fields (TrimSpace line)) lines)).
  assert (H1 : concat (map clean_line lines)
               = map (fun F => Join F (str " ")) Fs).
  { unfold Fs. induction lines as [|l lines IH]; [done|].
    cbn [map concat]. rewrite clean_line_fields, IH.
    rewrite filter_cons. destruct (decide (Fields (TrimSpace l) = [])) as [E|E];
      destruct (decide (Fields (TrimSpace l) <> [])) as [E'|E']; done. }
  assert (H2 : concat (map (fun line => Fields (TrimSpace line)) lines) = concat Fs).
  { clear H1. unfold Fs. induction lines as [|l lines IH]; [done|].
    cbn [map concat]. rewrite IH, filter_cons.
    destruct (decide (Fields (TrimSpace l) <> [])) as [E|E]; [done|].
    destruct (Fields (TrimSpace l)); [done|]. exfalso. by apply E. }
  rewrite H1, H2. apply Join_Join.
  unfold Fs. apply Forall_forall. intros F HF.
  by apply list_elem_of_filter in HF as [HF _].
Qed.

(** [cleanText] returns the words of the text, in order, joined by single
    spaces: no word is empty, no word holds a white-space rune, and
    [strings.Fields] splits the cleaned text into these words again.
    Cleaning a cleaned text changes nothing. *)
Theorem cleanText_normal_form (text : gostring) :
  (exists words,
      cleanText text = Join words (str " ")
      /\ words = concat (map (fun line => Fields (TrimSpace line))
                             (Split text "010"%char))
      /\ Forall (fun w => w <> [] /\ spacefree w) words
      /\ Fields (cleanText text) = words)
  /\ cleanText (cleanText text) = cleanText text.
Proof.
  assert (Hw : exists words,
      cleanText text = Join words (str " ")
      /\ words = concat (map (fun line => Fields (TrimSpace line))
                             (Split text "010"%char))
      /\ Forall (fun w => w <> [] /\ spacefree w) words
      /\ Fields (cleanText text) = words).
  { eexists. split; [apply clean_lines_words|]. split; [done|].
    assert (Hall : Forall (fun w : gostring => w <> [] /\ spacefree w)
              (concat (map (fun line => Fields (TrimSpace line))
                           (Split text "010"%char)))).
    { apply Forall_forall. intros w Hin. apply list_elem_of_In, in_concat in Hin.
      destruct Hin as (F & HF & Hin). apply list_elem_of_In in HF, Hin.
      apply list_elem_of_fmap in HF as (line & -> & _).
      split; [by eapply Fields_nonempty_field|by eapply Fields_spacefree]. }
    split; [done|]. unfold cleanText at 1. rewrite clean_lines_words.
    by apply Fields_Join. }
  split; [done|].
  destruct Hw as (words & Ht & _ & _ & Hf).
  unfold cleanText at 1. rewrite Split_absent by apply cleanText_no_newline.
  cbn [map concat]. rewrite app_nil_r, clean_line_fields.
  rewrite cleanText_trimmed, Hf.
  destruct (decide (words = [])) as [->|Hne]; [by rewrite Ht|].
  cbn [Join]. by rewrite Ht.
Qed.

End CleanTextNormalForm.

Section ChunkSizeUnit.
Import utf8 strings chunker.

(** [cleanText] is the words of the lines, joined by single spaces. *)
Lemma cleanText_words text :
  cleanText text
  = Join (concat (map (fun line => Fields (TrimSpace line))
                      (Split text "010"%char))) (str " ").
Proof. unfold cleanText. apply clean_lines_words. Qed.

(** A text whose cleaned form is not longer, in bytes, than the chunk
    size is returned cleaned as one chunk, or as no chunk when nothing is
    left of it. *)
Lemma ChunkText_short c text :
  len (cleanText text) <= ChunkSize c ->
  ChunkText c text
  = Some (Returned (if decide (cleanText text = []) then []
                    else [cleanText text])).
Proof.
  intros Hle. unfold ChunkText, ChunkText_run.
  case_decide as Hnil.
  - by rewrite Hnil.
  - replace (len (cleanText text) =? 0) with false.
    + by replace (len (cleanText text) <=? ChunkSize c) with true
        by (symmetry; by apply Z.leb_le).
    + symmetry. apply Z.eqb_neq. unfold len. destruct (cleanText text); [done|].
      cbn [length]. lia.
Qed.

(** An ASCII string has as many characters as bytes. *)
Lemma RuneCountInString_ascii s :
  isASCII s = true -> RuneCountInString s = len s.
Proof.
  unfold RuneCountInString, len. intros H. f_equal.
  induction s as [|c s IH]; [done|].
  cbn [isASCII forallb] in H. apply andb_true_iff in H as [Hc Hs].
  apply Z.ltb_lt in Hc.
  rewrite (range_cons (c :: s) (code c) 1) by (done || by apply decode_ascii).
  cbn [length drop]. rewrite drop_0. f_equal. by apply IH.
Qed.

(** C3.  The chunk size evaluated where [ChunkText] departs from the
    claim, and what of the claim holds.  The cleaned text is the words of
    the lines of the text joined by single spaces; when it is not longer
    than the chunk size, counted in bytes, [ChunkText] returns it as its
    only chunk, and the empty sequence, not an error, when it is empty;
    for a cleaned text of ASCII characters the same holds with the
    length counted in characters.  The length is [len(text)], a number
    of bytes, where the repository speaks of characters: the text of
    three letters e with an acute accent is three characters long, and
    with a chunk size of 5 and an overlap of 1 it is not returned as one
    chunk but cut into three, the first and the last of which end or
    begin inside a letter and are not valid UTF-8. *)
Theorem C3_chunk_size_is_counted_in_bytes :
  (forall (c : Chunker) (text : gostring),
     let cleaned :=
       Join (concat (map (fun line => Fields (TrimSpace line))
                         (Split text "010"%char))) (str " ") in
     cleanText text = cleaned
     /\ (len cleaned <= ChunkSize c ->
         ChunkText c text
         = Some (Returned (if decide (cleaned = []) then [] else [cleaned])))
     /\ (isASCII cleaned = true -> RuneCountInString cleaned <= ChunkSize c ->
         ChunkText c text
         = Some (Returned (if decide (cleaned = []) then [] else [cleaned]))))
  /\ cleanText accented_text = accented_text
  /\ ValidString accented_text = true
  /\ RuneCountInString accented_text = 3
  /\ len accented_text = 6
  /\ ChunkText (NewChunker 5 1) accented_text
     = Some (Returned [["195"; "169"; "195"; "169"; "195"]%char;
                       ["195"; "169"]%char;
                       ["169"]%char])
  /\ ValidString ["195"; "169"; "195"; "169"; "195"]%char = false
  /\ ValidString ["169"]%char = false.
Proof.
  split.
  { intros c text cleaned. subst cleaned. rewrite <- cleanText_words.
    split; [done|]. split; [apply ChunkText_short|].
    intros Hascii Hle. apply ChunkText_short.
    by rewrite <- RuneCountInString_ascii. }
  repeat split; vm_compute; reflexivity.
Qed.

End ChunkSizeUnit.

Section ChunkTextEdges.
Import utf8 strings chunker.

Lemma len_zero_nil {A} (s : list A) : len s = 0 <-> s = [].
Proof.
  unfold len. split; [|by intros ->]. destruct s; [done|cbn [length]; lia].
Qed.

Lemma ChunkText_run_long c text :
  cleanText text <> [] -> ChunkSize c < len (cleanText text) ->
  ChunkText_run c text
  = loop c (cleanText text) (S (Z.to_nat (maxIterations c (cleanText text))))
         (mk_state 0 0 [] []).
Proof.
  intros Hne Hlt. unfold ChunkText_run.
  replace (len (cleanText text) =? 0) with false
    by (symmetry; apply Z.eqb_neq; by rewrite len_zero_nil).
  replace (len (cleanText text) <=? ChunkSize c) with false
    by (symmetry; apply Z.leb_gt; lia).
  by rewrite Nat.add_1_r.
Qed.

Lemma len_pos {A} (s : list A) : s <> [] -> 0 < len s.
Proof. unfold len. destruct s; [done|cbn [length]; lia]. Qed.

Lemma cap_not_reached_at_start c t : (maxIterations c t <? 0 + 1) = false.
Proof. apply Z.ltb_ge. pose proof (maxIterations_ge c t). lia. Qed.

Lemma ChunkText_negative_size c text :
  ChunkSize c < 0 -> cleanText text <> [] -> ChunkText c text = Some Panicked.
Proof.
  intros Hneg Hne. unfold ChunkText.
  assert (Hlen : 0 < len (cleanText text)) by (by apply len_pos).
  rewrite ChunkText_run_long by (done || lia).
  cbn [loop start]. replace (len (cleanText text) <=? 0) with false
    by (symmetry; apply Z.leb_gt; lia).
  unfold loop_body. cbn [iteration start].
  rewrite cap_not_reached_at_start.
  pose proof (window_end_negative c (cleanText text) 0 ltac:(lia) Hneg) as Hw.
  unfold slice.
  replace (0 <=? window_end c (cleanText text) 0) with false
    by (symmetry; apply Z.leb_gt; lia).
  done.
Qed.

Lemma ChunkText_blank c text :
  cleanText text = [] -> ChunkText c text = Some (Returned []).
Proof. intros H. unfold ChunkText, ChunkText_run. by rewrite H. Qed.

(** [ChunkText] panics exactly when the chunk size is negative and the
    cleaned text is not empty: the first window then ends before it
    starts, and [text[start:end]] is out of range. *)
Theorem ChunkText_panics_iff_negative_size (c : Chunker) (text : gostring) :
  ChunkText c text = Some Panicked
  <-> ChunkSize c < 0 /\ cleanText text <> [].
Proof.
  split.
  - intros H. destruct (ChunkText_run_spec c text) as (o & Ho & Hspec).
    unfold ChunkText in H. rewrite Ho in H. destruct o as [st|]; [done|].
    split; [done|]. intros Hnil. unfold ChunkText_run in Ho.
    rewrite Hnil in Ho. done.
  - intros [Hneg Hne]. by apply ChunkText_negative_size.
Qed.

Lemma ChunkText_zero_size c text :
  ChunkSize c = 0 -> ChunkText c text = Some (Returned []).
Proof.
  intros Hsz. unfold ChunkText.
  destruct (decide (cleanText text = [])) as [Hnil|Hne].
  { unfold ChunkText_run. rewrite Hnil. done. }
  assert (Hlen : 0 < len (cleanText text)).
  { by apply len_pos. }
  rewrite ChunkText_run_long by (done || lia).
  set (t := cleanText text) in *.
  cbn [loop start]. replace (len t <=? 0) with false
    by (symmetry; apply Z.leb_gt; lia).
  unfold loop_body. cbn [iteration start chunks windows].
  rewrite cap_not_reached_at_start.
  assert (He : window_end c t 0 = 0).
  { unfold window_end. rewrite Hsz. change (0 + 0) with 0.
    replace (len t <? 0) with false by (symmetry; apply Z.ltb_ge; lia).
    replace (0 <? len t) with true by (symmetry; apply Z.ltb_lt; lia).
    cbv beta iota zeta.
    rewrite findSentenceBoundary_empty by lia. by case_match. }
  rewrite He. rewrite slice_Some by lia.
  change (take (Z.to_nat (0 - 0)) (drop (Z.to_nat 0) t)) with (@nil ascii).
  change (TrimSpace []) with (@nil ascii).
  change (0 <? len (@nil ascii)) with false. cbv iota.
  pose proof (next_start_advances c 0 0) as Hadv.
  replace (0 <=? next_start c 0 0) with true by (symmetry; apply Z.leb_le; lia).
  done.
Qed.

(** With a chunk size of zero [ChunkText] returns no chunk at all,
    whatever the text and the overlap: the first window is empty and the
    loop is left at once. *)
Theorem ChunkText_zero_size_returns_nothing (c : Chunker) (text : gostring) :
  ChunkSize c = 0 -> ChunkText c text = Some (Returned []).
Proof. apply ChunkText_zero_size. Qed.


Lemma ChunkText_zero_size_witness :
  ChunkSize (NewChunker 0 3) = 0
  /\ ChunkText (NewChunker 0 3) (str "The cat sat. The dog ran.")
     = Some (Returned []).
Proof.
  split; [reflexivity|].
  apply (ChunkText_zero_size_returns_nothing (NewChunker 0 3)
           (str "The cat sat. The dog ran.")).
  reflexivity.
Defined.

(** With an overlap of zero or below, a chunk size that is not negative
    and a cleaned text longer than the chunk size, [ChunkText] stops
    after its first window, provided [len(text) - ChunkOverlap] is below
    2^63, so that [end - ChunkOverlap] does not wrap around: [start]
    moves to [end] or beyond, the check [start >= end] leaves the loop,
    and the text after the first window, which is at most [ChunkSize]
    bytes long, is in no chunk.  (A negative chunk size panics, and an
    overlap near the least 64-bit integer wraps [start] around to a
    negative number, which is then set to 0 and forced to [oldStart + 1].) *)
Theorem ChunkText_without_overlap_stops_after_first_window
    (c : Chunker) (text : gostring) :
  let t := cleanText text in
  ChunkOverlap c <= 0 -> 0 <= ChunkSize c < len t ->
  len t - ChunkOverlap c < 2^63 ->
  let e := window_end c t 0 in
  let first := TrimSpace (take (Z.to_nat e) t) in
  0 <= e <= ChunkSize c
  /\ ChunkText c text
     = Some (Returned (if decide (first = []) then [] else [first])).
Proof.
  intros t Hov Hsz Hwrap e first.
  assert (Hne : t <> []).
  { intros H. apply len_zero_nil in H. lia. }
  destruct (window_end_bounds c t 0 ltac:(lia) ltac:(lia)) as [Hb Hb2].
  specialize (Hb2 (cleanText_no_newline text)). fold e in Hb, Hb2.
  split; [lia|].
  unfold ChunkText. rewrite (ChunkText_run_long c text Hne (proj2 Hsz)). fold t.
  cbn [loop start]. replace (len t <=? 0) with false
    by (symmetry; apply Z.leb_gt; lia).
  unfold loop_body. cbn [iteration start chunks windows].
  rewrite cap_not_reached_at_start. fold e.
  rewrite slice_Some by lia. rewrite drop_0, Z.sub_0_r. fold first.
  assert (Hnext : (e <=? next_start c 0 e) = true).
  { apply Z.leb_le. unfold next_start.
    rewrite wrap64_id by lia.
    replace (e - ChunkOverlap c <? 0) with false by (symmetry; apply Z.ltb_ge; lia).
    case_match eqn:E; [apply Z.leb_le in E|apply Z.leb_gt in E]; lia. }
  destruct (decide (first = [])) as [Hf|Hf].
  - rewrite Hf. change (0 <? len (@nil ascii)) with false. cbv iota.
    rewrite Hnext. done.
  - replace (0 <? len first) with true.
    2:{ symmetry. apply Z.ltb_lt. by apply len_pos. }
    rewrite Hnext. done.
Qed.

Lemma ChunkText_without_overlap_witness :
  let c := NewChunker 20 0 in
  let text := str "The cat sat. The dog ran. Birds flew high." in
  let t := cleanText text in
  ChunkOverlap c <= 0 /\ 0 <= ChunkSize c < len t
  /\ len t - ChunkOverlap c < 2^63
  /\ let e := window_end c t 0 in
     let first := TrimSpace (take (Z.to_nat e) t) in
     0 <= e <= ChunkSize c
     /\ ChunkText c text
        = Some (Returned (if decide (first = []) then [] else [first])).
Proof.
  intros c text t.
  split; [by vm_compute|]. split; [by vm_compute|]. split; [by vm_compute|].
  apply (ChunkText_without_overlap_stops_after_first_window c text);
    by vm_compute.
Defined.

(** The bound on the overlap is needed: with the least 64-bit integer as
    overlap, [end - ChunkOverlap] wraps around, [start] is forced to
    [oldStart + 1], and a window opens at every byte of the text. *)
Lemma ChunkText_wrapping_overlap :
  exists chunks,
    ChunkText (NewChunker 20 (- 2^63))
              (str "The cat sat. The dog ran. Birds flew high.")
    = Some (Returned chunks)
    /\ length chunks = 42%nat.
Proof. eexists. split; [vm_compute; reflexivity|reflexivity]. Qed.

End ChunkTextEdges.

Section ChunkTextTail.
Import utf8 strings chunker.

(** The cleaned text, when not empty, has no white space at either end. *)
Lemma cleanText_tight text : cleanText text <> [] -> tight (cleanText text).
Proof.
  intros Hne. unfold cleanText in *. apply Join_tight.
  - intros H. rewrite H in Hne. done.
  - apply Forall_forall. intros l Hl.
    apply list_elem_of_In, in_concat in Hl. destruct Hl as (ls & Hls & Hl).
    apply list_elem_of_In in Hls, Hl.
    apply list_elem_of_fmap in Hls as (line & -> & _).
    pose proof (clean_line_tight line) as Hall.
    by eapply Forall_forall in Hall.
Qed.

(** The last byte of a cleaned text is a chunk of its own: [TrimSpace]
    leaves it as it is. *)
Lemma last_byte_kept t :
  tight t ->
  TrimSpace (drop (length t - 1) t) = drop (length t - 1) t
  /\ length (drop (length t - 1) t) = 1%nat.
Proof.
  intros (Hne & _ & Htrail).
  assert (Hlen : (1 <= length t)%nat) by (destruct t; [done|cbn; lia]).
  assert (H1 : length (drop (length t - 1) t) = 1%nat) by (rewrite length_drop; lia).
  split; [|done].
  destruct (drop (length t - 1) t) as [|c [|? ?]] eqn:Ed; try done.
  assert (Hns : ~ space_enc [c]).
  { apply (Htrail (take (length t - 1) t)). by rewrite <- Ed, take_drop. }
  apply tight_fixed. split; [done|]. split.
  - intros e u Heq He. destruct e as [|c' e].
    + by apply space_enc_nonempty in He.
    + injection Heq as <- Heq. symmetry in Heq. apply app_eq_nil in Heq as [-> _]. done.
  - intros h e Heq He. destruct h as [|c' h].
    + cbn in Heq. by subst e.
    + injection Heq as _ Heq. symmetry in Heq. apply app_eq_nil in Heq as [_ ->].
      by apply space_enc_nonempty in He.
Qed.

Section Run.
Variable c : Chunker.
Variable t : gostring.
Hypothesis Hoverlap : 1 <= ChunkOverlap c.
Hypothesis Hsize : 2 <= ChunkSize c.
Hypothesis Hwrap : len t + ChunkOverlap c < 2^63.
Hypothesis Htight : tight t.

(** A window that does not reach the end of the text is at least two
    bytes long. *)
Lemma window_end_reach s :
  0 <= s < len t ->
  s < window_end c t s <= len t
  /\ (window_end c t s = len t \/ s + 2 <= window_end c t s).
Proof.
  intros Hs. unfold window_end.
  set (raw := if len t <? s + ChunkSize c then len t else s + ChunkSize c).
  assert (Hraw : (raw = len t \/ (raw = s + ChunkSize c /\ raw <= len t))).
  { unfold raw. case_match eqn:E; [apply Z.ltb_lt in E|apply Z.ltb_ge in E]; lia. }
  destruct (raw <? len t) eqn:E; [apply Z.ltb_lt in E|apply Z.ltb_ge in E; lia].
  destruct (findSentenceBoundary_bounds t s raw ltac:(lia)) as (H1 & _ & H3).
  specialize (H3 E). rewrite wrap64_id by lia.
  case_match eqn:Eb; [apply Z.ltb_lt in Eb|]; lia.
Qed.

Lemma next_start_value s e :
  0 <= s < e -> e <= len t ->
  next_start c s e = Z.max (e - ChunkOverlap c) (s + 1)
  /\ (e <= next_start c s e \/ len t <= next_start c s e -> e <= s + 1).
Proof.
  intros Hs He. unfold next_start. rewrite wrap64_id by lia.
  destruct (e - ChunkOverlap c <? 0) eqn:E0;
    [apply Z.ltb_lt in E0|apply Z.ltb_ge in E0];
    case_match eqn:E1; try apply Z.leb_le in E1; try apply Z.leb_gt in E1; lia.
Qed.

(** A run of the body that leaves the loop before the bound on the
    iterations has just emitted the last byte of the text. *)
Lemma loop_body_break_at_end st st' :
  0 <= start st < len t ->
  loop_body c t st = Break st' -> iteration st' <= maxIterations c t ->
  chunks st' = chunks st ++ [drop (length t - 1) t]
  /\ windows st' = windows st ++ [(len t - 1, len t)].
Proof.
  intros Hs Hb Hit. unfold loop_body in Hb.
  destruct (maxIterations c t <? iteration st + 1) eqn:Eg.
  { injection Hb as <-. cbn [iteration] in Hit. apply Z.ltb_lt in Eg. lia. }
  destruct (window_end_reach (start st) Hs) as (He & Hreach).
  set (e := window_end c t (start st)) in *.
  rewrite slice_Some in Hb by lia.
  destruct (next_start_value (start st) e ltac:(lia) ltac:(lia)) as (_ & Hnext).
  set (w := take (Z.to_nat (e - start st)) (drop (Z.to_nat (start st)) t)) in *.
  assert (Hend : (e <=? next_start c (start st) e) = true
                 \/ (len t <=? next_start c (start st) e) = true).
  { destruct (e <=? next_start c (start st) e); [by left|].
    destruct (len t <=? next_start c (start st) e); [by right|].
    exfalso. by destruct (0 <? len (TrimSpace w)). }
  assert (Hle : e <= start st + 1).
  { apply Hnext. destruct Hend as [H|H]; apply Z.leb_le in H; auto. }
  assert (Estart : start st = len t - 1) by lia.
  assert (Ee : e = len t) by lia.
  assert (Hw : w = drop (length t - 1) t).
  { unfold w. rewrite Ee, Estart. unfold len.
    replace (Z.to_nat (Z.of_nat (length t) - 1)) with (length t - 1)%nat by lia.
    apply take_ge. rewrite length_drop. lia. }
  destruct (last_byte_kept t Htight) as (Hkeep & Hone).
  rewrite Hw, Hkeep in Hb.
  replace (0 <? len (drop (length t - 1) t)) with true in Hb
    by (unfold len; rewrite Hone; done).
  rewrite Estart, Ee in Hb.
  destruct Hend as [H|H]; rewrite Ee, ?Estart in H; rewrite H in Hb.
  - by injection Hb as <-.
  - destruct (len t <=? next_start c (len t - 1) (len t)); by injection Hb as <-.
Qed.

Lemma loop_body_Next_in_text st st' :
  loop_body c t st = Next st' -> start st' < len t.
Proof.
  unfold loop_body. case_match; [done|]. case_match; [|done].
  repeat case_match; try done; intros [= <-]; cbn [start];
    match goal with H : (len t <=? _) = false |- _ => apply Z.leb_gt in H end; lia.
Qed.

Lemma loop_tail fuel st st' :
  0 <= start st < len t ->
  loop c t fuel st = Some (Returned st') ->
  iteration st' <= maxIterations c t ->
  last (chunks st') = Some (drop (length t - 1) t)
  /\ last (windows st') = Some (len t - 1, len t).
Proof.
  revert st. induction fuel as [|fuel IH]; intros st Hs H Hit; cbn [loop] in H;
    replace (len t <=? start st) with false in H
      by (symmetry; apply Z.leb_gt; lia); [done|].
  destruct (loop_body c t st) as [st1|st1|] eqn:Eb; [| |done].
  - apply (IH st1); [|done|done].
    pose proof (loop_body_Next _ _ _ _ Eb) as (H1 & _).
    pose proof (loop_body_Next_in_text _ _ Eb). lia.
  - injection H as <-.
    destruct (loop_body_break_at_end _ _ Hs Eb Hit) as (-> & ->).
    by rewrite !last_snoc.
Qed.

(** The loop counts at most one iteration per position of the text. *)
Lemma loop_iterations fuel st st' :
  0 <= start st ->
  loop c t fuel st = Some (Returned st') ->
  iteration st' <= iteration st + Z.max 0 (len t - start st).
Proof.
  revert st. induction fuel as [|fuel IH]; intros st Hs H; cbn [loop] in H;
    destruct (len t <=? start st) eqn:E; try (injection H as <-; lia); [done|].
  apply Z.leb_gt in E.
  pose proof (loop_body_spec c t st ltac:(lia)) as Hspec.
  destruct (loop_body c t st) as [st1|st1|] eqn:Eb; [| |done].
  - pose proof (loop_body_Next _ _ _ _ Eb) as (H1 & H2 & _).
    apply IH in H; lia.
  - injection H as <-. destruct Hspec as [Hi _]. lia.
Qed.

End Run.

(** With an overlap of at least one byte and a text longer than the chunk
    size, a run of [ChunkText] that is not cut short by the bound on the
    iterations ends with a chunk that is the last byte of the text alone:
    once a window has reached the end of the text the loop goes on,
    moving [start] forward, until the window [len-1, len) has been
    emitted.  The bound is not reached when the text is not longer than
    the bound, so not for a text of at most 1000 bytes. *)
Theorem ChunkText_ends_with_the_last_byte (c : Chunker) (text : gostring) :
  let t := cleanText text in
  1 <= ChunkOverlap c -> 2 <= ChunkSize c < len t ->
  len t + ChunkOverlap c < 2^63 ->
  exists st,
    ChunkText_run c text = Some (Returned st)
    /\ ChunkText c text = Some (Returned (chunks st))
    /\ (len t <= maxIterations c t -> iteration st <= maxIterations c t)
    /\ (iteration st <= maxIterations c t ->
        last (chunks st) = Some (drop (length t - 1) t)
        /\ last (windows st) = Some (len t - 1, len t)
        /\ len (drop (length t - 1) t) = 1).
Proof.
  intros t Hov Hsz Hwrap.
  assert (Hne : t <> []).
  { intros H. apply len_zero_nil in H. lia. }
  pose proof (cleanText_tight text Hne) as Htight. fold t in Htight.
  destruct (ChunkText_run_spec c text) as (o & Ho & Hspec).
  destruct o as [st|]; [|lia].
  exists st. split; [done|]. split; [unfold ChunkText; by rewrite Ho|].
  rewrite (ChunkText_run_long c text Hne (proj2 Hsz)) in Ho. fold t in Ho.
  split.
  - intros Hmax. subst t. pose proof (len_nonneg (cleanText text)).
    apply loop_iterations in Ho; cbn [iteration start] in *; lia.
  - intros Hit.
    assert (H0 : 0 <= start (mk_state 0 0 [] []) < len t) by (cbn [start]; lia).
    assert (H2s : 2 <= ChunkSize c) by lia.
    destruct (loop_tail c t Hov H2s Hwrap Htight _ _ _ H0 Ho Hit) as (H1 & H2).
    split; [done|]. split; [done|].
    destruct (last_byte_kept t Htight) as (_ & Hone). unfold len. by rewrite Hone.
Qed.

Lemma ChunkText_ends_with_the_last_byte_witness :
  let c := NewChunker 20 5 in
  let text := str "The cat sat. The dog ran. Birds flew high." in
  let t := cleanText text in
  1 <= ChunkOverlap c /\ 2 <= ChunkSize c < len t
  /\ len t + ChunkOverlap c < 2^63
  /\ exists st,
       ChunkText_run c text = Some (Returned st)
       /\ ChunkText c text = Some (Returned (chunks st))
       /\ (len t <= maxIterations c t -> iteration st <= maxIterations c t)
       /\ (iteration st <= maxIterations c t ->
           last (chunks st) = Some (drop (length t - 1) t)
           /\ last (windows st) = Some (len t - 1, len t)
           /\ len (drop (length t - 1) t) = 1).
Proof.
  intros c text t.
  split; [by vm_compute|]. split; [by vm_compute|]. split; [by vm_compute|].
  apply (ChunkText_ends_with_the_last_byte c text); by vm_compute.
Defined.

End ChunkTextTail.

Section MetricsOfChunks.
Import strings chunker chunk_metrics.



End MetricsOfChunks.


(* ====================================================================== *)
(** * Further properties of the embedder, the sort and the retriever       *)
(* ====================================================================== *)

Section EmbedderExtras.
Import strings embedder.

(** [GetEmbeddingDimension] is 128 for the local model, and whatever the
    model it never reports a dimension of zero without an error. *)
Theorem GetEmbeddingDimension_positive
    (rt : runtime) (order : map_order) (e : Embedder) :
  (Model e = str "simple" -> GetEmbeddingDimension rt order e = Ok 128)
  /\ (forall n, GetEmbeddingDimension rt order e = Ok n -> 0 < n)
  /\ (forall err, GetEmbeddingDimension rt order e = Err err ->
        Model e <> str "simple"
        /\ (ollama rt (BaseURL e) (Model e) (str "test") = Err err
            \/ (ollama rt (BaseURL e) (Model e) (str "test") = Ok []
                /\ err = ErrEmptyEmbedding))).
Proof.
  unfold GetEmbeddingDimension, GenerateEmbedding.
  destruct (decide (Model e = str "simple")) as [Hm|Hm].
  - split; [|split].
    + intros _. f_equal. unfold len. by rewrite generateSimpleEmbedding_length.
    + intros n [= <-]. unfold len. by rewrite generateSimpleEmbedding_length.
    + intros err H. done.
  - split; [done|].
    destruct (ollama rt (BaseURL e) (Model e) (str "test")) as [v|err0] eqn:Eo.
    + destruct (len v =? 0) eqn:El.
      * split; [done|]. intros err [= <-]. split; [done|]. right.
        apply Z.eqb_eq, len_zero_nil in El. by subst v.
      * split; [|done]. intros n [= <-]. apply Z.eqb_neq in El.
        pose proof (len_nonneg v). lia.
    + split; [done|]. intros err [= <-]. split; [done|]. by left.
Qed.

(** The position a word is counted at always lies inside the vector of
    128 components, also for a hash that has wrapped around to a negative
    number; adding a word changes that component and no other. *)
Theorem bucket_in_range (word : gostring) :
  (bucket word < 128)%nat
  /\ forall nwords embedding count i,
       i <> bucket word ->
       add_word nwords embedding (word, count) !! i = embedding !! i.
Proof.
  split.
  - unfold bucket.
    assert (H0 : 0 <= Z.land (hash_word word) 0x7FFFFFFF).
    { apply Z.land_nonneg. right. lia. }
    pose proof (Z.rem_bound_pos _ 128 H0 ltac:(lia)). lia.
  - intros nwords embedding count i Hi. unfold add_word. cbn [fst snd].
    by apply list_lookup_alter_ne.
Qed.

Lemma count_words_none words m :
  Forall (fun w => Trim w cutset = []) words ->
  foldl (fun m word =>
           let word := Trim word cutset in
           if 0 <? len word then incr word m else m) m words = m.
Proof.
  revert m. induction words as [|w words IH]; intros m Hall; [done|].
  apply Forall_cons in Hall as [Hw Hall]. cbn [foldl]. cbv zeta.
  rewrite Hw. change (0 <? len (@nil ascii)) with false. cbv iota. by apply IH.
Qed.

Lemma wordless_embedding rt order text :
  valid_order order ->
  Forall (fun w => Trim w cutset = []) (Fields (ToLower (unicode_lower rt) text)) ->
  generateSimpleEmbedding rt order text = replicate 128 float32.zero.
Proof.
  intros Hord Hall. unfold generateSimpleEmbedding, count_words.
  rewrite count_words_none by done.
  assert (Ho : order [] = []).
  { apply Permutation_nil_r. apply Hord. }
  rewrite Ho. cbn [foldl].
  replace (foldl (fun norm val => float32.add norm (float32.mul val val))
                 float32.zero (replicate 128 float32.zero))
    with float32.zero by (vm_compute; reflexivity).
  reflexivity.
Qed.

(** A text in which no token has a byte left after the punctuation is
    stripped (a blank text, a text of punctuation marks) is embedded as
    the zero vector: no component is set, and the vector is not
    normalised. *)
Theorem wordless_text_embeds_to_zero
    (rt : runtime) (order : map_order) (text : gostring) :
  valid_order order ->
  Forall (fun w => Trim w cutset = []) (Fields (ToLower (unicode_lower rt) text)) ->
  generateSimpleEmbedding rt order text = replicate 128 float32.zero.
Proof. apply wordless_embedding. Qed.

Lemma wordless_text_witness :
  valid_order id
  /\ Forall (fun w => Trim w cutset = [])
            (Fields (ToLower (unicode_lower ex_runtime) (str " ?! ... (?) ")))
  /\ generateSimpleEmbedding ex_runtime id (str " ?! ... (?) ")
     = replicate 128 float32.zero.
Proof.
  assert (H : Forall (fun w => Trim w cutset = [])
            (Fields (ToLower (unicode_lower ex_runtime) (str " ?! ... (?) ")))).
  { vm_compute. repeat constructor. }
  split; [apply valid_order_id|]. split; [exact H|].
  apply (wordless_text_embeds_to_zero ex_runtime id (str " ?! ... (?) "));
    [apply valid_order_id|exact H].
Defined.

Lemma embed_from_spec rt orders e i0 texts :
  match embed_from rt orders e i0 texts with
  | Ok embeddings =>
    length embeddings = length texts
    /\ forall i text, texts !! i = Some text ->
         exists v, embeddings !! i = Some v
                   /\ GenerateEmbedding rt (orders (i0 + i)%nat) e text = Ok v
  | Err err =>
    exists i text e0,
      texts !! i = Some text
      /\ GenerateEmbedding rt (orders (i0 + i)%nat) e text = Err e0
      /\ err = ErrChunk (Z.of_nat (i0 + i)) e0
      /\ forall j text', (j < i)%nat -> texts !! j = Some text' ->
           exists v, GenerateEmbedding rt (orders (i0 + j)%nat) e text' = Ok v
  end.
Proof.
  revert i0. induction texts as [|text texts IH]; intros i0.
  { cbn. split; [done|]. intros i text H. done. }
  cbn [embed_from].
  destruct (GenerateEmbedding rt (orders i0) e text) as [v|e0] eqn:Eg.
  - specialize (IH (S i0)).
    destruct (embed_from rt orders e (S i0) texts) as [embeddings|err].
    + destruct IH as (Hlen & Hall). split; [cbn; by rewrite Hlen|].
      intros [|i] t Hi.
      * injection Hi as <-. exists v. rewrite Nat.add_0_r. done.
      * cbn in Hi. destruct (Hall i t Hi) as (v' & Hv' & Hg).
        exists v'. split; [done|]. by replace (i0 + S i)%nat with (S i0 + i)%nat by lia.
    + destruct IH as (i & t & e1 & Hi & Hg & -> & Hbefore).
      exists (S i), t, e1. split; [done|].
      replace (i0 + S i)%nat with (S i0 + i)%nat by lia.
      split; [done|]. split; [done|].
      intros [|j] t' Hj Ht'.
      * injection Ht' as <-. exists v. by rewrite Nat.add_0_r.
      * cbn in Ht'. replace (i0 + S j)%nat with (S i0 + j)%nat by lia.
        apply (Hbefore j t'); [lia|done].
  - exists 0%nat, text, e0. rewrite Nat.add_0_r. split; [done|]. split; [done|].
    split; [done|]. intros j t' Hj. lia.
Qed.

(** The sequential loop [GenerateEmbeddings] returns one vector per text,
    each the result of [GenerateEmbedding] on that text, or stops at the
    first text whose embedding fails and reports its index.  For a
    remote model the batch function runs the same loop, whatever the
    batch size and for the empty list too. *)
Theorem GenerateEmbeddings_stops_at_first_failure
    (rt : runtime) (orders : nat -> map_order) (e : Embedder)
    (texts : list gostring) :
  match GenerateEmbeddings rt orders e texts with
  | Ok embeddings =>
    length embeddings = length texts
    /\ forall i text, texts !! i = Some text ->
         exists v, embeddings !! i = Some v
                   /\ GenerateEmbedding rt (orders i) e text = Ok v
  | Err err =>
    exists i text e0,
      texts !! i = Some text
      /\ GenerateEmbedding rt (orders i) e text = Err e0
      /\ err = ErrChunk (Z.of_nat i) e0
      /\ forall j text', (j < i)%nat -> texts !! j = Some text' ->
           exists v, GenerateEmbedding rt (orders j) e text' = Ok v
  end
  /\ (Model e <> str "simple" ->
      forall sched batchSize,
        GenerateEmbeddingsBatch rt orders sched e texts batchSize
        = Returned (GenerateEmbeddings rt orders e texts)).
Proof.
  split.
  - unfold GenerateEmbeddings. apply (embed_from_spec rt orders e 0 texts).
  - intros Hm sched batchSize. unfold GenerateEmbeddingsBatch, GenerateEmbeddings.
    by rewrite decide_False.
Qed.

End EmbedderExtras.

Section SortExtras.
Import models storage.

Lemma swap_if_greater_fixed i j rs :
  (i < j)%nat -> desc (S i) rs -> swap_if_greater i j rs = rs.
Proof.
  intros Hij Hd. unfold swap_if_greater.
  destruct (rs !! i) as [ri|] eqn:Hi; [|done].
  destruct (rs !! j) as [rj|] eqn:Hj; [|done].
  by rewrite (Hd i j ri rj ltac:(lia) Hij Hi Hj).
Qed.

Lemma sort_inner_fixed i rs : desc (S i) rs -> sort_inner i rs = rs.
Proof.
  intros Hd. unfold sort_inner.
  assert (Hjs : Forall (fun j => i < j)%nat (seq (S i) (length rs - S i))).
  { apply Forall_forall. intros j Hj. apply elem_of_seq in Hj. lia. }
  revert Hjs. generalize (seq (S i) (length rs - S i)). intros js Hjs.
  induction js as [|j js IH]; [done|].
  apply Forall_cons in Hjs as [Hj Hjs]. cbn [foldl].
  rewrite swap_if_greater_fixed by done. by apply IH.
Qed.

Lemma desc_weaken m n rs : (m <= n)%nat -> desc n rs -> desc m rs.
Proof. intros Hmn Hd i j ri rj Hi. apply Hd. lia. Qed.

Lemma sort_results_fixed rs : desc (length rs) rs -> sort_results rs = rs.
Proof.
  intros Hd. unfold sort_results.
  assert (His : Forall (fun i => S i <= length rs)%nat (seq 0 (length rs - 1))).
  { apply Forall_forall. intros i Hi. apply elem_of_seq in Hi. lia. }
  revert His. generalize (seq 0 (length rs - 1)). intros ks His.
  induction ks as [|i ks IH]; [done|].
  apply Forall_cons in His as [Hi His]. cbn [foldl].
  rewrite sort_inner_fixed by (by eapply desc_weaken). by apply IH.
Qed.

(** The sort of [SimpleVectorSearch] leaves a list alone in which no
    result is followed by a greater score, so a list of equal scores
    keeps the order of the store, and sorting twice is sorting once.  It
    is not a stable sort: a greater score that is moved to the front
    sends the first result behind one it ties with. *)
Theorem sort_results_keeps_descending_input (rs : list SearchResult) :
  (desc (length rs) rs -> sort_results rs = rs)
  /\ sort_results (sort_results rs) = sort_results rs
  /\ (forall a b c,
        float64.gtb (Score c) (Score a) = true ->
        float64.gtb (Score b) (Score a) = false ->
        float64.gtb (Score a) (Score b) = false ->
        sort_results [a; b; c] = [c; b; a]).
Proof.
  split; [apply sort_results_fixed|]. split.
  - apply sort_results_fixed.
    rewrite (Permutation_length (sort_results_perm rs)).
    apply sort_results_desc.
  - intros a b c Hca Hba Hab. unfold sort_results, sort_inner.
    unfold swap_if_greater.
    cbn [length Nat.sub seq foldl lookup list_lookup insert list_insert].
    rewrite Hba.
    cbn [length Nat.sub seq foldl lookup list_lookup insert list_insert].
    rewrite Hca.
    cbn [length Nat.sub seq foldl lookup list_lookup insert list_insert].
    by rewrite Hab.
Qed.

End SortExtras.

Section RetrieveExtras.
Import strings models storage embedder retriever.

Lemma zero_query_scores cs :
  score_chunks (replicate 128 float32.zero) cs
  = map (fun c => mkSearchResult c float64.zero)
        (filter (fun c => length (Embedding c) = 128%nat) cs).
Proof.
  rewrite score_chunks_spec, length_replicate.
  apply map_ext. intros c. unfold scored. f_equal.
  rewrite cosineSimilarity_zero_norm; [done|].
  left. vm_compute. reflexivity.
Qed.

Lemma equal_scores_desc (cs : list Chunk) s n :
  float64.gtb s s = false ->
  desc n (map (fun c => mkSearchResult c s) cs).
Proof.
  intros Hs i j ri rj _ _ Hi Hj.
  rewrite list_lookup_fmap in Hi, Hj.
  destruct (cs !! i); [|done]. destruct (cs !! j); [|done].
  injection Hi as <-. injection Hj as <-. done.
Qed.

(** A question without a word (blank, or punctuation only) is embedded as
    the zero vector, every chunk scores 0, and the retriever returns the
    first [k] chunks of the book that have 128 components, in the order
    of the store. *)
Theorem wordless_query_returns_store_order
    (rt : runtime) (order : map_order) (r : Retriever) (docs : list Chunk)
    (query : gostring) (k : Z) (bookID : gostring) :
  valid_order order ->
  Forall (fun w => Trim w cutset = []) (Fields (ToLower (unicode_lower rt) query)) ->
  store r = Serving docs -> Model (embedder_ r) = str "simple" -> 0 <= k ->
  Retrieve rt order r query k bookID
  = Returned (Ok (take (Z.to_nat k)
       (map (fun c => mkSearchResult c float64.zero)
            (filter (fun c => length (Embedding c) = 128%nat)
                    (candidates docs bookID))))).
Proof.
  intros Hord Hall Hstore Hmodel Hk. unfold Retrieve, GenerateEmbedding.
  rewrite decide_True by done. rewrite Hstore.
  rewrite wordless_embedding by done.
  rewrite SimpleVectorSearch_serving by done.
  rewrite zero_query_scores.
  rewrite sort_results_fixed; [done|]. by apply equal_scores_desc.
Qed.

Lemma wordless_query_witness :
  valid_order id
  /\ Forall (fun w => Trim w cutset = [])
            (Fields (ToLower (unicode_lower ex_runtime) (str "?!")))
  /\ store wide_retriever = Serving wide_docs
  /\ Model (embedder_ wide_retriever) = str "simple" /\ 0 <= 1
  /\ Retrieve ex_runtime id wide_retriever (str "?!") 1 (str "b1")
     = Returned (Ok (take (Z.to_nat 1)
          (map (fun c => mkSearchResult c float64.zero)
               (filter (fun c => length (Embedding c) = 128%nat)
                       (candidates wide_docs (str "b1")))))).
Proof.
  assert (H : Forall (fun w => Trim w cutset = [])
            (Fields (ToLower (unicode_lower ex_runtime) (str "?!")))).
  { vm_compute. repeat constructor. }
  split; [apply valid_order_id|]. split; [exact H|]. split; [reflexivity|].
  split; [reflexivity|]. split; [lia|].
  apply (wordless_query_returns_store_order ex_runtime id wide_retriever wide_docs
           (str "?!") 1 (str "b1")); [apply valid_order_id|exact H|reflexivity|reflexivity|lia].
Defined.

Lemma SimpleVectorSearch_negative_panics docs q k bookID :
  k < 0 -> SimpleVectorSearch (Serving docs) q k bookID = Panicked.
Proof.
  intros Hk. unfold SimpleVectorSearch.
  destruct (Find (Serving docs) _) as [cursor|] eqn:Ef; [|by destruct (decide _)].
  destruct (All cursor) as [chunks|] eqn:Ea.
  2:{ unfold Find in Ef. case_match; injection Ef as <-; done. }
  set (rs' := sort_results _).
  replace (k <? len rs') with true
    by (symmetry; apply Z.ltb_lt; pose proof (len_nonneg rs'); lia).
  unfold slice. replace (0 <=? k) with false by (symmetry; apply Z.leb_gt; lia).
  by rewrite andb_false_r.
Qed.



End RetrieveExtras.


(* ====================================================================== *)
(** * The configuration and the generator                                  *)
(* ====================================================================== *)

Section StrconvFacts.
Import strconv.

Lemma digit_code d : 0 <= d <= 9 -> code (digit d) = 48 + d.
Proof.
  intros Hd. unfold code, digit. rewrite N_ascii_embedding; [lia|].
  lia.
Qed.

Lemma digit_is_digit d : 0 <= d <= 9 -> is_digit (digit d) = true.
Proof.
  intros Hd. unfold is_digit. rewrite digit_code by done.
  apply andb_true_iff. split; apply Z.leb_le; lia.
Qed.

(** The value of a string of digits read from the left, starting at [n]. *)
Lemma parse_digits_app ds rest n :
  Forall (fun ch => is_digit ch = true) ds ->
  parse_digits (ds ++ rest) n
  = parse_digits rest (foldl (fun n ch => n * 10 + (code ch - 48)) n ds).
Proof.
  revert n. induction ds as [|ch ds IH]; intros n Hall; [done|].
  apply Forall_cons in Hall as [Hch Hall]. cbn [app parse_digits foldl].
  rewrite Hch. by apply IH.
Qed.

Lemma parse_digits_fail ds n ch :
  ch ∈ ds -> is_digit ch = false -> parse_digits ds n = None.
Proof.
  revert n. induction ds as [|c0 ds IH]; intros n Hin Hch; [by apply elem_of_nil in Hin|].
  cbn [parse_digits]. destruct (is_digit c0) eqn:E0; [|done].
  apply elem_of_cons in Hin as [->|Hin]; [congruence|]. by apply IH.
Qed.

Lemma format_fuel_spec fuel u acc :
  (1 <= fuel)%nat -> 0 <= u < 10 ^ Z.of_nat fuel ->
  exists ds,
    format_fuel fuel u acc = ds ++ acc /\ ds <> []
    /\ Forall (fun ch => is_digit ch = true) ds
    /\ forall n, foldl (fun n ch => n * 10 + (code ch - 48)) n ds
                 = n * 10 ^ len ds + u.
Proof.
  revert u acc. induction fuel as [|fuel IH]; intros u acc Hfuel Hu; [lia|].
  cbn [format_fuel]. cbv zeta.
  assert (Hmod : 0 <= u mod 10 <= 9) by (pose proof (Z.mod_pos_bound u 10); lia).
  destruct (u <? 10) eqn:E; [apply Z.ltb_lt in E|apply Z.ltb_ge in E].
  - exists [digit (u mod 10)]. split; [done|]. split; [done|]. split.
    + constructor; [by apply digit_is_digit|constructor].
    + intros n. cbn [foldl]. rewrite digit_code by done.
      rewrite Z.mod_small by lia. change (len [digit u]) with 1. lia.
  - assert (Hq : 1 <= u / 10 < 10 ^ Z.of_nat fuel).
    { split; [apply Z.div_le_lower_bound; lia|].
      apply Z.div_lt_upper_bound; [lia|].
      replace (Z.of_nat (S fuel)) with (Z.of_nat fuel + 1) in Hu by lia.
      rewrite Z.pow_add_r in Hu by lia. lia. }
    destruct (IH (u / 10) (digit (u mod 10) :: acc)) as (ds & Hds & Hne & Hall & Hval).
    { destruct fuel; [cbn in Hq; lia|lia]. }
    { split; [apply Z.div_pos; lia|].
      apply Z.div_lt_upper_bound; [lia|].
      replace (Z.of_nat (S fuel)) with (Z.of_nat fuel + 1) in Hu by lia.
      rewrite Z.pow_add_r in Hu by lia. lia. }
    exists (ds ++ [digit (u mod 10)]). split; [by rewrite Hds, <- app_assoc|].
    split; [by destruct ds|]. split.
    + apply Forall_app. split; [done|]. constructor; [by apply digit_is_digit|constructor].
    + intros n. rewrite foldl_app. cbn [foldl]. rewrite Hval, digit_code by done.
      unfold len. rewrite length_app. cbn [length].
      replace (Z.of_nat (length ds + 1)) with (Z.of_nat (length ds) + 1) by lia.
      rewrite Z.pow_add_r by lia. fold (len ds).
      pose proof (Z.div_mod u 10 ltac:(lia)). lia.
Qed.

Lemma digit_not_sign ch :
  is_digit ch = true -> ch <> "-"%char /\ ch <> "+"%char.
Proof. intros H. split; intros ->; by vm_compute in H. Qed.

(** [Atoi] reads back what [Itoa] writes, for every 64-bit integer. *)
Lemma Atoi_Itoa n : - 2^63 <= n < 2^63 -> Atoi (Itoa n) = Some n.
Proof.
  intros Hn. unfold Itoa, formatUint.
  destruct (n <? 0) eqn:E; [apply Z.ltb_lt in E|apply Z.ltb_ge in E].
  - destruct (format_fuel_spec 20 (- n) []) as (ds & Hds & Hne & Hall & Hval).
    { lia. }
    { change (10 ^ Z.of_nat 20) with 100000000000000000000. lia. }
    rewrite Hds, app_nil_r. unfold Atoi.
    rewrite bool_decide_eq_true_2 by done. cbn [orb].
    destruct ds as [|d ds]; [done|].
    rewrite <- (app_nil_r (d :: ds)) at 1.
    rewrite parse_digits_app by done. cbn [parse_digits].
    rewrite Hval, Z.mul_0_l, Z.add_0_l, Z.opp_involutive.
    rewrite (proj2 (Z.leb_le _ _) (proj1 Hn)), (proj2 (Z.ltb_lt _ _) (proj2 Hn)).
    done.
  - destruct (format_fuel_spec 20 n []) as (ds & Hds & Hne & Hall & Hval).
    { lia. }
    { change (10 ^ Z.of_nat 20) with 100000000000000000000. lia. }
    rewrite Hds, app_nil_r. unfold Atoi.
    destruct ds as [|d ds]; [done|].
    apply Forall_cons in Hall as Hd. destruct Hd as [Hd _].
    destruct (digit_not_sign d Hd) as [Hm Hp].
    rewrite !bool_decide_eq_false_2 by done. cbn [orb].
    rewrite <- (app_nil_r (d :: ds)) at 1.
    rewrite parse_digits_app by done. cbn [parse_digits].
    rewrite Hval, Z.mul_0_l, Z.add_0_l.
    rewrite (proj2 (Z.leb_le _ _) (proj1 Hn)), (proj2 (Z.ltb_lt _ _) (proj2 Hn)).
    done.
Qed.

Lemma Itoa_nonempty n : - 2^63 <= n < 2^63 -> Itoa n <> [].
Proof. intros Hn H. pose proof (Atoi_Itoa n Hn) as Ha. rewrite H in Ha. done. Qed.

End StrconvFacts.

Section ConfigTheorems.
Import strconv config.

(** [getEnvInt] accepts every 64-bit integer written in decimal, zero and
    the negative ones too: the value read is the value written, whatever
    the default. *)
Theorem getEnvInt_reads_every_integer
    (env : gostring -> gostring) (key : gostring) (defaultValue n : Z) :
  - 2^63 <= n < 2^63 -> env key = Itoa n ->
  getEnvInt env key defaultValue = n.
Proof.
  intros Hn He. unfold getEnvInt. rewrite He.
  rewrite decide_False by (by apply Itoa_nonempty).
  by rewrite Atoi_Itoa.
Qed.

Lemma getEnvInt_reads_witness :
  - 2^63 <= -7 < 2^63
  /\ (fun _ : gostring => str "-7") (str "CHUNK_SIZE") = Itoa (-7)
  /\ getEnvInt (fun _ => str "-7") (str "CHUNK_SIZE") 500 = -7.
Proof.
  split; [lia|]. split; [reflexivity|].
  apply (getEnvInt_reads_every_integer (fun _ => str "-7") (str "CHUNK_SIZE") 500 (-7));
    [lia|reflexivity].
Defined.

(** [getEnvInt] returns the default for a variable that is not set, for a
    value whose first byte is neither a digit nor a sign, and for a value
    with a byte after the first that is not a digit (a space after the
    number, a decimal point, a unit). *)
Theorem getEnvInt_falls_back_to_default
    (env : gostring -> gostring) (key : gostring) (defaultValue : Z) :
  (env key = [] -> getEnvInt env key defaultValue = defaultValue)
  /\ (forall c0 rest, env key = c0 :: rest ->
        is_digit c0 = false -> c0 <> "-"%char -> c0 <> "+"%char ->
        getEnvInt env key defaultValue = defaultValue)
  /\ (forall c0 rest ch, env key = c0 :: rest ->
        ch ∈ rest -> is_digit ch = false ->
        getEnvInt env key defaultValue = defaultValue)
  /\ (forall c0, env key = [c0] -> is_digit c0 = false ->
        getEnvInt env key defaultValue = defaultValue).
Proof.
  unfold getEnvInt. split; [|split; [|split]].
  - intros ->. done.
  - intros c0 rest -> Hd Hm Hp. rewrite decide_False by done.
    unfold Atoi. rewrite !bool_decide_eq_false_2 by done. cbn [orb].
    rewrite (parse_digits_fail (c0 :: rest) 0 c0); [done| |done].
    apply elem_of_cons. by left.
  - intros c0 rest ch -> Hin Hd. rewrite decide_False by done.
    unfold Atoi. destruct (bool_decide (c0 = "-"%char) || bool_decide (c0 = "+"%char)).
    + destruct rest as [|c1 rest]; [done|].
      by rewrite (parse_digits_fail (c1 :: rest) 0 ch).
    + rewrite (parse_digits_fail (c0 :: rest) 0 ch); [done| |done].
      apply elem_of_cons. by right.
  - intros c0 -> Hd. rewrite decide_False by done.
    unfold Atoi. destruct (bool_decide (c0 = "-"%char) || bool_decide (c0 = "+"%char)); [done|].
    rewrite (parse_digits_fail [c0] 0 c0); [done| |done].
    apply elem_of_cons. by left.
Qed.

End ConfigTheorems.

Section GeneratorTheorems.
Import strings strconv generator.

Lemma write_passages_spec sb i contexts :
  write_passages sb i contexts
  = sb ++ concat (imap (fun j context => passage (i + Z.of_nat j) context) contexts).
Proof.
  revert sb i. induction contexts as [|context contexts IH]; intros sb i.
  { cbn. by rewrite app_nil_r. }
  cbn [write_passages imap concat]. rewrite IH, <- app_assoc, Z.add_0_r.
  do 3 f_equal. apply imap_ext. intros j x _. unfold compose. f_equal. lia.
Qed.

Lemma buildPrompt_closed query contexts :
  buildPrompt query contexts
  = (instruction ++ str "Context:" ++ nl ++ str "---" ++ nl)
    ++ concat (imap (fun i context => passage (Z.of_nat i) context) contexts)
    ++ (str "---" ++ nl ++ nl ++ str "Question: " ++ query ++ nl ++ nl
        ++ str "Answer:").
Proof.
  unfold buildPrompt. rewrite write_passages_spec.
  rewrite <- !app_assoc. reflexivity.
Qed.

(** The prompt is the instruction, the passages between two rules, the
    question and the word "Answer:"; passage [i] of the contexts is
    written as it stands after the label [i+1] in square brackets, and
    the passages follow one another in the order of the contexts. *)
Theorem buildPrompt_layout (query : gostring) (contexts : list gostring) :
  buildPrompt query contexts
  = (instruction ++ str "Context:" ++ nl ++ str "---" ++ nl)
    ++ concat (imap (fun i context => passage (Z.of_nat i) context) contexts)
    ++ (str "---" ++ nl ++ nl ++ str "Question: " ++ query ++ nl ++ nl
        ++ str "Answer:")
  /\ forall i context,
       contexts !! i = Some context ->
       exists pre post,
         buildPrompt query contexts
         = pre ++ (str "[" ++ Itoa (Z.of_nat i + 1) ++ str "] " ++ context
                   ++ nl ++ nl) ++ post
         /\ pre = (instruction ++ str "Context:" ++ nl ++ str "---" ++ nl)
                  ++ concat (imap (fun j context => passage (Z.of_nat j) context)
                                  (take i contexts)).
Proof.
  split; [apply buildPrompt_closed|].
  intros i context Hi. rewrite buildPrompt_closed.
  eexists _, _. split; [|reflexivity].
  rewrite <- (take_drop_middle contexts i context Hi) at 1.
  rewrite imap_app, concat_app. cbn [imap concat].
  rewrite length_take_le by (apply lookup_lt_Some in Hi; lia).
  rewrite Nat.add_0_r. unfold passage at 2.
  rewrite <- !app_assoc. reflexivity.
Qed.

(** The passages are not delimited: one context that holds what looks
    like the start of a second passage gives the same prompt as two
    contexts. *)
Theorem buildPrompt_not_injective (query a b : gostring) :
  buildPrompt query [a ++ nl ++ nl ++ str "[2] " ++ b] = buildPrompt query [a; b]
  /\ [a ++ nl ++ nl ++ str "[2] " ++ b] <> [a; b].
Proof.
  split; [|done]. rewrite !buildPrompt_closed. f_equal. f_equal.
  cbn [imap concat]. unfold passage, compose.
  change (Itoa (Z.of_nat 0 + 1)) with (str "1").
  change (Itoa (Z.of_nat 1 + 1)) with (str "2").
  rewrite <- !app_assoc. reflexivity.
Qed.

(** An answer that [GenerateResponse] returns is the trimmed field
    [response] of a reply with status 200 to the prompt built from the
    question and the contexts.  Only the empty field is refused: a field
    of white space alone is returned as the empty answer, without an
    error. *)
Theorem GenerateResponse_answers_are_trimmed
    (tr : transport) (g : Generator) (query : gostring) (contexts : list gostring) :
  (forall answer,
     GenerateResponse tr g query contexts = inl answer ->
     TrimSpace answer = answer
     /\ exists body response,
          post tr (BaseURL g ++ str "/api/generate") (Model g)
               (buildPrompt query contexts) = inl (200, body)
          /\ decode tr body = inl response /\ response <> []
          /\ answer = TrimSpace response)
  /\ (forall body response,
        post tr (BaseURL g ++ str "/api/generate") (Model g)
             (buildPrompt query contexts) = inl (200, body) ->
        decode tr body = inl response ->
        (response = [] ->
         GenerateResponse tr g query contexts = inr ErrEmptyResponse)
        /\ (response <> [] -> TrimSpace response = [] ->
            GenerateResponse tr g query contexts = inl []))
  /\ (forall code body,
        post tr (BaseURL g ++ str "/api/generate") (Model g)
             (buildPrompt query contexts) = inl (code, body) ->
        code <> 200 ->
        GenerateResponse tr g query contexts = inr (ErrStatus code body)).
Proof.
  unfold GenerateResponse, generate. split; [|split].
  - intros answer.
    destruct (post tr _ _ _) as [[code body]|e] eqn:Ep; [|done].
    destruct (code =? 200) eqn:Ec; [apply Z.eqb_eq in Ec; subst code|done].
    cbn [negb]. destruct (decode tr body) as [response|e] eqn:Ed; [|done].
    destruct (decide (response = [])) as [|Hne]; [done|].
    intros [= <-]. split; [apply TrimSpace_idem|]. by exists body, response.
  - intros body response -> ->. cbn [Z.eqb Pos.eqb negb]. split.
    + intros ->. done.
    + intros Hne Ht. rewrite decide_False by done. by rewrite Ht.
  - intros code body -> Hc. by rewrite (proj2 (Z.eqb_neq _ _) Hc).
Qed.

End GeneratorTheorems.


(* ====================================================================== *)
(** * The handlers                                                         *)
(* ====================================================================== *)

Section UploadTheorems.
Import models storage embedder retriever controllers.

Lemma chunk_docs_simple rt orders env title author i0 (all rest : list gostring) :
  (forall j chunk, rest !! j = Some chunk -> all !! (i0 + j)%nat = Some chunk) ->
  chunk_docs env (oid env 0) title author
    (imap (fun i text => generateSimpleEmbedding rt (orders i) text) all) i0 rest
  = Some (imap (fun j chunk => chunk_doc rt orders env title author (i0 + j) chunk) rest).
Proof.
  revert i0. induction rest as [|chunk rest IH]; intros i0 Hall; [done|].
  cbn [chunk_docs]. rewrite list_lookup_imap.
  pose proof (Hall 0%nat chunk eq_refl) as H0. rewrite Nat.add_0_r in H0.
  rewrite H0. cbn [fmap option_fmap option_map].
  rewrite (IH (S i0)).
  2:{ intros j c Hj. replace (S i0 + j)%nat with (i0 + S j)%nat by lia. by apply Hall. }
  cbn [imap]. f_equal. f_equal.
  - unfold chunk_doc. by rewrite Nat.add_0_r.
  - apply imap_ext. intros j c _. unfold compose. f_equal. lia.
Qed.

Lemma UploadBook_simple rt orders sched env rc title author text chunks :
  text <> [] ->
  chunker.ChunkText (chunker_ rc) text = Some (Returned chunks) -> chunks <> [] ->
  Model (embedder_ rc) = str "simple" ->
  sched ≡ₚ seq 0 (length chunks) ->
  (forall docs, insertMany env docs = None) ->
  UploadBook rt orders sched env rc (Uploaded title author text)
  = Some (Returned
      (StatusOK {| UploadedBookID := oid env 0;
                   UploadedTitle := title;
                   UploadedAuthor := author;
                   UploadedTotalChunks := len chunks;
                   UploadProcessingTimeMs := elapsed env;
                   UploadStatus := str "success" |},
       imap (chunk_doc rt orders env title author) chunks)).
Proof.
  intros Htext Hchunks Hne Hmodel Hsched Hins. unfold UploadBook.
  replace (len text =? 0) with false
    by (symmetry; apply Z.eqb_neq; by rewrite len_zero_nil).
  rewrite Hchunks.
  replace (len chunks =? 0) with false
    by (symmetry; apply Z.eqb_neq; by rewrite len_zero_nil).
  destruct (embedder_ rc) as [url model] eqn:Ee. cbn [Model] in Hmodel. subst model.
  rewrite GenerateEmbeddingsBatch_simple by done.
  rewrite (chunk_docs_simple rt orders env title author 0 chunks chunks) by done.
  unfold InsertChunks.
  replace (len (imap (fun j chunk => chunk_doc rt orders env title author (0 + j) chunk)
                     chunks) =? 0) with false.
  2:{ symmetry. apply Z.eqb_neq. rewrite len_zero_nil. destruct chunks; done. }
  rewrite Hins. reflexivity.
Qed.

(** An upload in local mode that the driver accepts answers 200 with the
    number of chunks and the identifier generated for the book, and
    stores one document per chunk, in order: document [i] holds chunk
    [i], its index, its embedding of 128 components, the title and the
    author; [character_start] is 0 and [character_end] is the length of
    the chunk for every document, so the two do not locate the chunk in
    the book. *)
Theorem UploadBook_stores_one_document_per_chunk
    (rt : runtime) (orders : nat -> map_order) (sched : list nat)
    (env : upload_env) (rc : RAGController)
    (title author text : gostring) (chunks : list gostring) :
  text <> [] ->
  chunker.ChunkText (chunker_ rc) text = Some (Returned chunks) -> chunks <> [] ->
  Model (embedder_ rc) = str "simple" ->
  sched ≡ₚ seq 0 (length chunks) ->
  (forall docs, insertMany env docs = None) ->
  exists resp docs,
    UploadBook rt orders sched env rc (Uploaded title author text)
    = Some (Returned (StatusOK resp, docs))
    /\ UploadedBookID resp = oid env 0
    /\ UploadedTotalChunks resp = len chunks
    /\ length docs = length chunks
    /\ forall i chunk, chunks !! i = Some chunk ->
         exists doc,
           docs !! i = Some doc
           /\ Text doc = chunk /\ ChunkIndex doc = Z.of_nat i
           /\ BookID doc = oid env 0 /\ ID doc = oid env (S i)
           /\ Embedding doc = generateSimpleEmbedding rt (orders i) chunk
           /\ length (Embedding doc) = 128%nat
           /\ BookTitle (Metadata doc) = title
           /\ BookAuthor (Metadata doc) = author
           /\ CharacterStart (Metadata doc) = 0
           /\ CharacterEnd (Metadata doc) = len chunk
           /\ MetaChunkSize (Metadata doc) = len chunk.
Proof.
  intros Htext Hchunks Hne Hmodel Hsched Hins.
  eexists _, _. split; [by apply UploadBook_simple|].
  cbn [UploadedBookID UploadedTotalChunks].
  split; [done|]. split; [done|]. split; [by rewrite length_imap|].
  intros i chunk Hi. eexists. split.
  { rewrite list_lookup_imap, Hi. reflexivity. }
  cbn. repeat split; try done. apply generateSimpleEmbedding_length.
Qed.

End UploadTheorems.

Section UploadTheorems2.
Import models storage embedder retriever controllers.

Lemma UploadBook_witness_hyps :
  chunker.ChunkText (chunker_ ex_controller) (str "The cat sat.")
  = Some (Returned [str "The cat sat."]).
Proof. vm_compute. reflexivity. Qed.

Lemma UploadBook_stores_witness :
  str "The cat sat." <> []
  /\ chunker.ChunkText (chunker_ ex_controller) (str "The cat sat.")
     = Some (Returned [str "The cat sat."])
  /\ [str "The cat sat."] <> []
  /\ Model (embedder_ ex_controller) = str "simple"
  /\ [0%nat] ≡ₚ seq 0 (length [str "The cat sat."])
  /\ (forall docs, insertMany ex_upload_env docs = None)
  /\ exists resp docs,
    UploadBook ex_runtime (fun _ => id) [0%nat] ex_upload_env ex_controller
               (Uploaded (str "T") (str "A") (str "The cat sat."))
    = Some (Returned (StatusOK resp, docs))
    /\ UploadedBookID resp = oid ex_upload_env 0
    /\ UploadedTotalChunks resp = len [str "The cat sat."]
    /\ length docs = length [str "The cat sat."]
    /\ forall i chunk, [str "The cat sat."] !! i = Some chunk ->
         exists doc,
           docs !! i = Some doc
           /\ Text doc = chunk /\ ChunkIndex doc = Z.of_nat i
           /\ BookID doc = oid ex_upload_env 0 /\ ID doc = oid ex_upload_env (S i)
           /\ Embedding doc = generateSimpleEmbedding ex_runtime id chunk
           /\ length (Embedding doc) = 128%nat
           /\ BookTitle (Metadata doc) = str "T"
           /\ BookAuthor (Metadata doc) = str "A"
           /\ CharacterStart (Metadata doc) = 0
           /\ CharacterEnd (Metadata doc) = len chunk
           /\ MetaChunkSize (Metadata doc) = len chunk.
Proof.
  split; [done|]. split; [exact UploadBook_witness_hyps|]. split; [done|].
  split; [reflexivity|]. split; [reflexivity|]. split; [reflexivity|].
  apply (UploadBook_stores_one_document_per_chunk ex_runtime (fun _ => id) [0%nat]
           ex_upload_env ex_controller (str "T") (str "A") (str "The cat sat.")
           [str "The cat sat."]);
    [done|exact UploadBook_witness_hyps|done|reflexivity|reflexivity|reflexivity].
Defined.

Lemma filter_none {A} (P : A -> Prop) `{!forall x, Decision (P x)} (l : list A) :
  Forall (fun x => ~ P x) l -> filter P l = [].
Proof.
  induction l as [|x l IH]; intros HF; [done|].
  apply Forall_cons in HF as [Hx HF]. rewrite filter_cons, decide_False by done.
  by apply IH.
Qed.

Lemma filter_all {A} (P : A -> Prop) `{!forall x, Decision (P x)} (l : list A) :
  Forall P l -> filter P l = l.
Proof.
  induction l as [|x l IH]; intros HF; [done|].
  apply Forall_cons in HF as [Hx HF]. rewrite filter_cons, decide_True by done.
  f_equal. by apply IH.
Qed.

(** The book just uploaded can be searched: over a store that held no
    chunk with the new book identifier, a query for that identifier
    returns [min(k, number of chunks)] results, every one of them a chunk
    of the upload. *)
Theorem uploaded_book_is_searchable
    (rt : runtime) (orders : nat -> map_order) (sched : list nat)
    (env : upload_env) (rc : RAGController)
    (title author text : gostring) (chunks : list gostring) :
  text <> [] ->
  chunker.ChunkText (chunker_ rc) text = Some (Returned chunks) -> chunks <> [] ->
  Model (embedder_ rc) = str "simple" ->
  sched ≡ₚ seq 0 (length chunks) ->
  (forall docs, insertMany env docs = None) ->
  oid env 0 <> [] ->
  forall (old : list Chunk) (order : map_order) (query : gostring) (k : Z),
    Forall (fun d => BookID d <> oid env 0) old -> 0 <= k ->
    exists resp docs rs,
      UploadBook rt orders sched env rc (Uploaded title author text)
      = Some (Returned (StatusOK resp, docs))
      /\ Retrieve rt order (NewRetriever (Serving (old ++ docs)) (embedder_ rc))
                  query k (UploadedBookID resp)
         = Returned (Ok rs)
      /\ length rs = Nat.min (Z.to_nat k) (length chunks)
      /\ Forall (fun r => Text (SRChunk r) ∈ chunks
                          /\ BookID (SRChunk r) = UploadedBookID resp) rs.
Proof.
  intros Htext Hchunks Hne Hmodel Hsched Hins Hid old order query k Hold Hk.
  eexists _, _, _. split; [by apply UploadBook_simple|].
  cbn [UploadedBookID].
  set (docs := imap (chunk_doc rt orders env title author) chunks).
  assert (Hdocs : Forall (fun d => BookID d = oid env 0
                                   /\ length (Embedding d) = 128%nat
                                   /\ Text d ∈ chunks) docs).
  { apply Forall_forall. intros d Hd. apply list_elem_of_lookup in Hd as (i & Hi).
    unfold docs in Hi. rewrite list_lookup_imap in Hi.
    destruct (chunks !! i) as [chunk|] eqn:Ec; [|done]. injection Hi as <-.
    cbn. split; [done|]. split; [apply generateSimpleEmbedding_length|].
    by eapply list_elem_of_lookup_2. }
  assert (Hcand : candidates (old ++ docs) (oid env 0) = docs).
  { unfold candidates. rewrite decide_False by done. rewrite filter_app.
    rewrite filter_none by (eapply Forall_impl; [exact Hold|]; cbn; auto).
    rewrite filter_all; [done|]. eapply Forall_impl; [exact Hdocs|]. cbn. tauto. }
  assert (Hret : Retrieve rt order (NewRetriever (Serving (old ++ docs)) (embedder_ rc))
                   query k (oid env 0)
                 = Returned (Ok (take (Z.to_nat k)
                     (sort_results (map (scored (generateSimpleEmbedding rt order query))
                                        docs))))).
  { unfold Retrieve, GenerateEmbedding. cbn [retriever.embedder_ retriever.store].
    rewrite decide_True by done. rewrite SimpleVectorSearch_serving by done.
    rewrite Hcand, score_chunks_spec.
    rewrite filter_all; [done|]. eapply Forall_impl; [exact Hdocs|]. cbn.
    intros d (_ & Hl & _). by rewrite generateSimpleEmbedding_length. }
  split; [exact Hret|]. split.
  - rewrite length_take, (Permutation_length (sort_results_perm _)), length_map.
    unfold docs. by rewrite length_imap.
  - apply Forall_forall. intros r Hr.
    apply elem_of_take in Hr as (i & Hr & _). apply list_elem_of_lookup_2 in Hr.
    rewrite (sort_results_perm _) in Hr.
    apply list_elem_of_fmap in Hr as (d & -> & Hd). cbn [SRChunk scored].
    eapply Forall_forall in Hd; [|exact Hdocs]. cbn beta in Hd. tauto.
Qed.

Lemma uploaded_book_is_searchable_witness :
  str "The cat sat." <> []
  /\ chunker.ChunkText (chunker_ ex_controller) (str "The cat sat.")
     = Some (Returned [str "The cat sat."])
  /\ [str "The cat sat."] <> []
  /\ Model (embedder_ ex_controller) = str "simple"
  /\ [0%nat] ≡ₚ seq 0 (length [str "The cat sat."])
  /\ (forall docs, insertMany ex_upload_env docs = None)
  /\ oid ex_upload_env 0 <> []
  /\ forall (old : list Chunk) (order : map_order) (query : gostring) (k : Z),
    Forall (fun d => BookID d <> oid ex_upload_env 0) old -> 0 <= k ->
    exists resp docs rs,
      UploadBook ex_runtime (fun _ => id) [0%nat] ex_upload_env ex_controller
                 (Uploaded (str "T") (str "A") (str "The cat sat."))
      = Some (Returned (StatusOK resp, docs))
      /\ Retrieve ex_runtime order
           (NewRetriever (Serving (old ++ docs)) (embedder_ ex_controller))
           query k (UploadedBookID resp)
         = Returned (Ok rs)
      /\ length rs = Nat.min (Z.to_nat k) (length [str "The cat sat."])
      /\ Forall (fun r => Text (SRChunk r) ∈ [str "The cat sat."]
                          /\ BookID (SRChunk r) = UploadedBookID resp) rs.
Proof.
  split; [done|]. split; [exact UploadBook_witness_hyps|]. split; [done|].
  split; [reflexivity|]. split; [reflexivity|]. split; [reflexivity|].
  split; [done|].
  apply (uploaded_book_is_searchable ex_runtime (fun _ => id) [0%nat]
           ex_upload_env ex_controller (str "T") (str "A") (str "The cat sat.")
           [str "The cat sat."]);
    [done|exact UploadBook_witness_hyps|done|reflexivity|reflexivity|reflexivity|done].
Defined.

Lemma cleanText_nonempty text : chunker.cleanText text <> [] -> text <> [].
Proof. intros H ->. by apply H. Qed.

Lemma chunk_docs_length env bookID title author embeddings i chunks docs :
  chunk_docs env bookID title author embeddings i chunks = Some docs ->
  length docs = length chunks.
Proof.
  revert i docs. induction chunks as [|chunk chunks IH]; intros i docs H.
  { by injection H as <-. }
  cbn [chunk_docs] in H. destruct (embeddings !! i); [|done].
  destruct (chunk_docs env bookID title author embeddings (S i) chunks)
    as [docs'|] eqn:E; [|done].
  injection H as <-. cbn [length]. f_equal. by eapply IH.
Qed.

(** What [UploadBook] refuses: the empty file and the file of white space
    alone are answered 400, as is every file when the chunk size is zero;
    with a negative chunk size every file with a word in it makes the
    handler panic.  Whatever the request, the driver is not called on a
    rejection that precedes the insertion; when it is called, it is with
    at least one document, and the answer is 200 when it reports no
    error and 500 "Failed to store chunks" when it reports one.  (How
    many of the documents the driver wrote before it failed is not part
    of the embedding.) *)
Theorem UploadBook_rejections
    (rt : runtime) (orders : nat -> map_order) (sched : list nat)
    (env : upload_env) (rc : RAGController) (title author text : gostring) :
  (text = [] ->
   UploadBook rt orders sched env rc (Uploaded title author text)
   = Some (Returned (StatusBadRequest (str "File is empty"), [])))
  /\ (text <> [] -> chunker.cleanText text = [] ->
      UploadBook rt orders sched env rc (Uploaded title author text)
      = Some (Returned (StatusBadRequest (str "Failed to chunk text"), [])))
  /\ (text <> [] -> chunker.ChunkSize (chunker_ rc) = 0 ->
      UploadBook rt orders sched env rc (Uploaded title author text)
      = Some (Returned (StatusBadRequest (str "Failed to chunk text"), [])))
  /\ (chunker.ChunkSize (chunker_ rc) < 0 -> chunker.cleanText text <> [] ->
      UploadBook rt orders sched env rc (Uploaded title author text) = Some Panicked)
  /\ (forall input resp docs,
        UploadBook rt orders sched env rc input = Some (Returned (resp, docs)) ->
        (docs = [] /\ (forall body, resp <> StatusOK body)
         /\ resp <> StatusInternalServerError (str "Failed to store chunks"))
        \/ (docs <> [] /\ insertMany env docs = None
            /\ exists body, resp = StatusOK body)
        \/ (docs <> [] /\ (exists e, insertMany env docs = Some e)
            /\ resp = StatusInternalServerError (str "Failed to store chunks"))).
Proof.
  split; [|split; [|split; [|split]]].
  - intros ->. done.
  - intros Hne Hblank. unfold UploadBook.
    replace (len text =? 0) with false
      by (symmetry; apply Z.eqb_neq; by rewrite len_zero_nil).
    by rewrite ChunkText_blank.
  - intros Hne Hz. unfold UploadBook.
    replace (len text =? 0) with false
      by (symmetry; apply Z.eqb_neq; by rewrite len_zero_nil).
    by rewrite ChunkText_zero_size.
  - intros Hneg Hne. unfold UploadBook.
    replace (len text =? 0) with false
      by (symmetry; apply Z.eqb_neq; rewrite len_zero_nil; by apply cleanText_nonempty).
    by rewrite ChunkText_negative_size.
  - intros input resp docs H. unfold UploadBook in H.
    destruct input as [| | | |t a txt];
      try (injection H as <- <-; left; split; [done|]; split; [done|];
           intros Heq; discriminate Heq).
    destruct (len txt =? 0);
      [injection H as <- <-; left; split; [done|]; split; done|].
    destruct (chunker.ChunkText (chunker_ rc) txt) as [[chunks|]|]; try done.
    destruct (len chunks =? 0) eqn:Ec;
      [injection H as <- <-; left; split; [done|]; split; done|].
    destruct (GenerateEmbeddingsBatch _ _ _ _ _ _) as [[embs|]|]; try done.
    2:{ injection H as <- <-. left. split; [done|]. split; [done|].
        intros Heq; discriminate Heq. }
    destruct (chunk_docs _ _ _ _ _ _ _) as [cd|] eqn:Ecd; [|done].
    assert (Hcd : cd <> []).
    { apply chunk_docs_length in Ecd. apply Z.eqb_neq in Ec.
      intros ->. apply Ec. apply len_zero_nil.
      by apply nil_length_inv. }
    unfold InsertChunks in H.
    replace (len cd =? 0) with false in H
      by (symmetry; apply Z.eqb_neq; by rewrite len_zero_nil).
    destruct (insertMany env cd) as [e|] eqn:Ei; injection H as <- <-.
    + right. right. split; [done|]. split; [by exists e|done].
    + right. left. split; [done|]. split; [done|]. by eexists.
Qed.

End UploadTheorems2.

Section QueryBookTheorems.
Import models storage embedder retriever controllers.

Lemma getEnvInt_Itoa env key defaultValue n :
  - 2^63 <= n < 2^63 -> env key = strconv.Itoa n ->
  config.getEnvInt env key defaultValue = n.
Proof.
  intros Hn He. unfold config.getEnvInt. rewrite He.
  rewrite decide_False by (by apply Itoa_nonempty).
  by rewrite Atoi_Itoa.
Qed.

Lemma desc_take n k rs : desc n rs -> desc n (take k rs).
Proof.
  intros Hd i j ri rj Hi Hij Hri Hrj.
  apply lookup_take_Some in Hri as [Hri _]. apply lookup_take_Some in Hrj as [Hrj _].
  by apply (Hd i j ri rj).
Qed.

Lemma desc_all n rs : desc (length rs) rs -> desc n rs.
Proof.
  intros Hd i j ri rj Hi Hij Hri Hrj. apply (Hd i j ri rj); [|done|done|done].
  by apply lookup_lt_Some in Hri.
Qed.

(** An answer with status 200 names the book, is trimmed, and cites as
    its sources the results of the retriever, in their order and with
    their scores: at least one and, over a serving store, at most the
    effective top-k, every one a chunk of the requested book, none
    followed by a source with a greater score. *)
Theorem QueryBook_answer_cites_its_sources
    (rt : runtime) (order : map_order) (tr : generator.transport) (elapsed : Z)
    (rc : RAGController) (req : QueryRequest) (resp : QueryResponse) :
  QueryBook rt order tr elapsed rc (Some req) = Returned (StatusOK resp) ->
  ReqBookID req <> []
  /\ strings.TrimSpace (Answer resp) = Answer resp
  /\ QueryProcessingTimeMs resp = elapsed
  /\ exists results,
       Retrieve rt order (retriever_ rc) (Question req)
                (controller.QueryBook_topK (query_config (config_ rc)) req)
                (ReqBookID req)
       = Returned (Ok results)
       /\ results <> []
       /\ Sources resp
          = map (fun result =>
                   {| SourceChunkID := ID (SRChunk result);
                      SourceText := Text (SRChunk result);
                      SourceScore := Score result;
                      SourceMetadata := Metadata (SRChunk result) |}) results
       /\ generator.GenerateResponse tr (generator_ rc) (Question req)
            (map (fun result => Text (SRChunk result)) results)
          = inl (Answer resp)
       /\ forall docs, retriever.store (retriever_ rc) = Serving docs ->
            len results <= controller.QueryBook_topK (query_config (config_ rc)) req
            /\ Forall (fun r => SRChunk r ∈ docs
                                /\ BookID (SRChunk r) = ReqBookID req) results
            /\ desc (length results) results.
Proof.
  unfold QueryBook, controller.QueryBook_retrieve.
  destruct (decide (ReqBookID req = [])) as [|Hbook]; [done|].
  set (topK := controller.QueryBook_topK (query_config (config_ rc)) req).
  destruct (Retrieve rt order (retriever_ rc) (Question req) topK (ReqBookID req))
    as [[results|]|] eqn:Er; [|done|done].
  destruct (len results =? 0) eqn:El; [done|].
  destruct (generator.GenerateResponse tr (generator_ rc) (Question req) _)
    as [answer|] eqn:Eg; [|done].
  intros [= <-]. cbn [Answer Sources QueryProcessingTimeMs].
  split; [done|]. split.
  { unfold generator.GenerateResponse in Eg.
    destruct (generator.generate _ _ _); [|done].
    destruct (decide _); [done|]. injection Eg as <-. apply TrimSpace_idem. }
  split; [done|]. exists results. split; [done|]. split.
  { intros ->. done. }
  split; [done|]. split; [done|].
  intros docs Hstore. unfold Retrieve in Er.
  destruct (GenerateEmbedding rt order (retriever.embedder_ (retriever_ rc)) (Question req))
    as [q|]; [|done].
  rewrite Hstore in Er.
  destruct (decide (topK < 0)) as [Hneg|Hpos].
  { rewrite SimpleVectorSearch_negative_panics in Er by done. done. }
  rewrite SimpleVectorSearch_serving in Er by lia. injection Er as <-.
  split; [|split].
  - unfold len. rewrite length_take. lia.
  - apply Forall_forall. intros r Hr.
    apply elem_of_take in Hr as (i & Hr & _). apply list_elem_of_lookup_2 in Hr.
    rewrite (sort_results_perm _) in Hr. rewrite score_chunks_spec in Hr.
    apply list_elem_of_fmap in Hr as (c & -> & Hc). cbn [SRChunk scored].
    apply list_elem_of_filter in Hc as [_ Hc]. unfold candidates in Hc.
    rewrite decide_False in Hc by done.
    by apply list_elem_of_filter in Hc as [Hb Hc].
  - apply desc_take, desc_all.
    rewrite (Permutation_length (sort_results_perm _)). apply sort_results_desc.
Qed.

End QueryBookTheorems.

Section QueryBookWitness.
Import models storage embedder retriever controllers.

Lemma QueryBook_answer_witness :
  QueryBook ex_runtime id (echo_transport (str "Paris.")) 7 wide_controller
            (Some ex_request)
  = Returned (StatusOK wide_response)
  /\ ReqBookID ex_request <> []
  /\ strings.TrimSpace (Answer wide_response) = Answer wide_response
  /\ QueryProcessingTimeMs wide_response = 7
  /\ exists results,
       Retrieve ex_runtime id (retriever_ wide_controller) (Question ex_request)
                (controller.QueryBook_topK (query_config (config_ wide_controller))
                                           ex_request)
                (ReqBookID ex_request)
       = Returned (Ok results)
       /\ results <> []
       /\ Sources wide_response
          = map (fun result =>
                   {| SourceChunkID := ID (SRChunk result);
                      SourceText := Text (SRChunk result);
                      SourceScore := Score result;
                      SourceMetadata := Metadata (SRChunk result) |}) results
       /\ generator.GenerateResponse (echo_transport (str "Paris."))
            (generator_ wide_controller) (Question ex_request)
            (map (fun result => Text (SRChunk result)) results)
          = inl (Answer wide_response)
       /\ forall docs, retriever.store (retriever_ wide_controller) = Serving docs ->
            len results
            <= controller.QueryBook_topK (query_config (config_ wide_controller))
                                         ex_request
            /\ Forall (fun r => SRChunk r ∈ docs
                                /\ BookID (SRChunk r) = ReqBookID ex_request) results
            /\ desc (length results) results.
Proof.
  assert (H : QueryBook ex_runtime id (echo_transport (str "Paris.")) 7
                wide_controller (Some ex_request)
              = Returned (StatusOK wide_response)) by (vm_compute; reflexivity).
  split; [exact H|].
  apply (QueryBook_answer_cites_its_sources ex_runtime id
           (echo_transport (str "Paris.")) 7 wide_controller ex_request
           wide_response).
  exact H.
Defined.

(** The configuration is taken from the environment as it is.  A
    negative [CHUNK_SIZE] makes every upload of a file with a word in it
    panic, and a [CHUNK_SIZE] of 0 makes every upload fail with status
    400.  With [TOP_K] set to 0 a query that does not ask for a positive
    number of results is answered 404 whatever the book holds, and with a
    negative [TOP_K] it makes the handler panic. *)
Theorem environment_values_are_not_validated
    (env : gostring -> gostring) (store : MongoStore) :
  let rc := NewRAGController (config.Load env) store in
  (forall n, - 2^63 <= n < 2^63 ->
     env (str "CHUNK_SIZE") = strconv.Itoa n ->
     chunker.ChunkSize (chunker_ rc) = n)
  /\ (forall n, - 2^63 <= n < 0 ->
        env (str "CHUNK_SIZE") = strconv.Itoa n ->
        forall rt orders sched uenv title author text,
          chunker.cleanText text <> [] ->
          UploadBook rt orders sched uenv rc (Uploaded title author text)
          = Some Panicked)
  /\ (env (str "CHUNK_SIZE") = str "0" ->
      forall rt orders sched uenv title author text,
        text <> [] ->
        UploadBook rt orders sched uenv rc (Uploaded title author text)
        = Some (Returned (StatusBadRequest (str "Failed to chunk text"), [])))
  /\ (forall n, - 2^63 <= n <= 0 ->
        env (str "TOP_K") = strconv.Itoa n ->
        env (str "OLLAMA_EMBEDDING_MODEL") = [] ->
        forall docs, store = Serving docs ->
        forall rt order tr elapsed req,
          ReqTopK req <= 0 -> ReqBookID req <> [] ->
          QueryBook rt order tr elapsed rc (Some req)
          = if n =? 0
            then Returned (StatusNotFound (str "No relevant chunks found"))
            else Panicked).
Proof.
  intros rc.
  assert (Hsize : forall n, - 2^63 <= n < 2^63 ->
     env (str "CHUNK_SIZE") = strconv.Itoa n ->
     chunker.ChunkSize (chunker_ rc) = n).
  { intros n Hn He. cbn. by apply getEnvInt_Itoa. }
  split; [exact Hsize|]. split; [|split].
  - intros n Hn He rt orders sched uenv title author text Hne.
    unfold UploadBook.
    replace (len text =? 0) with false
      by (symmetry; apply Z.eqb_neq; rewrite len_zero_nil; by apply cleanText_nonempty).
    rewrite ChunkText_negative_size; [done| |done].
    rewrite (Hsize n); [lia|lia|done].
  - intros He rt orders sched uenv title author text Hne.
    unfold UploadBook.
    replace (len text =? 0) with false
      by (symmetry; apply Z.eqb_neq; by rewrite len_zero_nil).
    rewrite ChunkText_zero_size; [done|].
    apply (Hsize 0); [lia|done].
  - intros n Hn He Hm docs -> rt order tr elapsed req Hk Hbook.
    unfold QueryBook, controller.QueryBook_retrieve.
    rewrite decide_False by done.
    assert (Htop : controller.QueryBook_topK (query_config (config_ rc)) req = n).
    { unfold controller.QueryBook_topK. rewrite (proj2 (Z.leb_le _ _) Hk).
      cbn. apply getEnvInt_Itoa; [lia|done]. }
    rewrite Htop. unfold Retrieve, GenerateEmbedding.
    assert (Hmodel : Model (retriever.embedder_ (retriever_ rc)) = str "simple").
    { change (Model (retriever.embedder_ (retriever_ rc)))
        with (config.getEnv env (str "OLLAMA_EMBEDDING_MODEL") (str "simple")).
      unfold config.getEnv. by rewrite Hm. }
    rewrite decide_True by done.
    change (retriever.store (retriever_ rc)) with (Serving docs).
    clear Htop.
    destruct (n =? 0) eqn:E0; [apply Z.eqb_eq in E0; subst n|apply Z.eqb_neq in E0].
    + by rewrite SimpleVectorSearch_zero.
    + by rewrite SimpleVectorSearch_negative_panics by lia.
Qed.

End QueryBookWitness.


(* ====================================================================== *)
(** * The evaluation                                                       *)
(* ====================================================================== *)

Section KeywordTheorems.
Import strings models evaluation.

Lemma checkKeywords_fold lower results keywords found :
  foldl (fun found keyword =>
           if found_in lower keyword results then found ++ [keyword] else found)
        found keywords
  = found ++ filter (fun keyword => found_in lower keyword results = true) keywords.
Proof.
  revert found. induction keywords as [|k keywords IH]; intros found.
  { by rewrite app_nil_r. }
  cbn [foldl]. rewrite IH, filter_cons.
  destruct (found_in lower k results) eqn:E.
  - rewrite decide_True by done. by rewrite <- app_assoc.
  - rewrite decide_False by done. done.
Qed.

Lemma found_in_spec lower keyword results :
  found_in lower keyword results = true
  <-> exists result, result ∈ results
        /\ containsKeyword lower (Text (SRChunk result)) keyword = true.
Proof.
  induction results as [|r results IH]; cbn [found_in].
  { split; [done|]. intros (r & Hr & _). by apply elem_of_nil in Hr. }
  destruct (containsKeyword lower (Text (SRChunk r)) keyword) eqn:E.
  - split; [|done]. intros _. exists r. split; [apply elem_of_cons; by left|done].
  - rewrite IH. split.
    + intros (r' & Hr' & Hc). exists r'. split; [apply elem_of_cons; by right|done].
    + intros (r' & Hr' & Hc). apply elem_of_cons in Hr' as [->|Hr']; [congruence|].
      by exists r'.
Qed.

Lemma HasPrefix_nil s : HasPrefix s [] = true.
Proof. by destruct s. Qed.

Lemma Contains_nil s : Contains s [] = true.
Proof. destruct s; cbn [Contains]; by rewrite HasPrefix_nil. Qed.

(** [checkKeywords] returns the keywords that occur, without regard to
    ASCII case, in the text of at least one result, in the order of the
    list and as often as the list repeats them.  Its length, which
    [Evaluate] reports as the number of relevant chunks, counts keywords
    and not chunks: one result that holds every keyword gives the number
    of keywords.  The empty keyword is found in every result. *)
Theorem checkKeywords_counts_keywords
    (lower : gostring -> gostring) (keywords : list gostring)
    (results : list SearchResult) :
  checkKeywords lower keywords results
  = filter (fun keyword => found_in lower keyword results = true) keywords
  /\ (forall keyword,
        keyword ∈ checkKeywords lower keywords results
        <-> keyword ∈ keywords
            /\ exists result, result ∈ results
                 /\ containsKeyword lower (Text (SRChunk result)) keyword = true)
  /\ (length (checkKeywords lower keywords results) <= length keywords)%nat
  /\ (forall result,
        Forall (fun keyword =>
                  containsKeyword lower (Text (SRChunk result)) keyword = true)
               keywords ->
        checkKeywords lower keywords [result] = keywords)
  /\ (results <> [] -> checkKeywords lower [[]] results = [[]]).
Proof.
  assert (Hf : forall rs, checkKeywords lower keywords rs
               = filter (fun keyword => found_in lower keyword rs = true) keywords).
  { intros rs. unfold checkKeywords. by rewrite checkKeywords_fold. }
  split; [apply Hf|]. split; [|split; [|split]].
  - intros keyword. rewrite Hf, list_elem_of_filter, found_in_spec. tauto.
  - rewrite Hf. apply length_filter.
  - intros result Hall. rewrite Hf.
    induction keywords as [|k keywords IH]; [done|].
    apply Forall_cons in Hall as [Hk Hall]. rewrite filter_cons.
    cbn [found_in]. rewrite Hk. rewrite decide_True by done. f_equal.
    apply IH; [|done]. intros rs. unfold checkKeywords. by rewrite checkKeywords_fold.
  - intros Hne. unfold checkKeywords. cbn [foldl].
    destruct results as [|r results]; [done|]. cbn [found_in].
    unfold containsKeyword.
    replace (ToLower lower []) with (@nil ascii) by done.
    by rewrite Contains_nil.
Qed.

Lemma ratio_zero_numerator d : zero_or_nan (ratio 0 d).
Proof.
  unfold ratio. destruct (0 <? d); [|done].
  change (float64.of_int 0) with (S754_zero false).
  unfold float64.div, SFdiv. by destruct (float64.of_int d).
Qed.

Lemma not_above_zero x y :
  zero_or_nan x -> zero_or_nan y ->
  float64.gtb (float64.add x y) float64.zero = false.
Proof.
  destruct x as [sx| | |], y as [sy| | |]; try done; intros _ _.
  all: try reflexivity.
  destruct sx, sy; reflexivity.
Qed.

Lemma keyword_counts_no_match lower pl gl keywords tp fp fn :
  Forall (fun keyword =>
            Contains pl (ToLower lower keyword)
            && Contains gl (ToLower lower keyword) = false) keywords ->
  exists fp' fn',
    foldl (count_keyword lower pl gl) (tp, fp, fn) keywords = (tp, fp', fn').
Proof.
  revert fp fn. induction keywords as [|k keywords IH]; intros fp fn Hall.
  { by exists fp, fn. }
  apply Forall_cons in Hall as [Hk Hall]. cbn [foldl count_keyword]. cbv zeta.
  rewrite Hk. repeat case_match; by apply IH.
Qed.

(** When no keyword occurs both in the answer and in the ground truth,
    the F-score is exactly [0.0]; so it is for an empty list of keywords,
    whatever the answer, since the ground truth is compared only through
    the keywords. *)
Theorem CalculateFScore_zero_without_common_keyword
    (lower : gostring -> gostring) (predictedAnswer groundTruth : gostring)
    (keywords : list gostring) :
  (Forall (fun keyword =>
             Contains (ToLower lower predictedAnswer) (ToLower lower keyword)
             && Contains (ToLower lower groundTruth) (ToLower lower keyword)
             = false) keywords ->
   CalculateFScore lower predictedAnswer groundTruth keywords = float64.zero)
  /\ CalculateFScore lower predictedAnswer groundTruth [] = float64.zero
  /\ CalculateFScore lower groundTruth groundTruth [] = float64.zero.
Proof.
  assert (H : forall a t ks,
    Forall (fun keyword =>
             Contains (ToLower lower a) (ToLower lower keyword)
             && Contains (ToLower lower t) (ToLower lower keyword)
             = false) ks ->
    CalculateFScore lower a t ks = float64.zero).
  { intros a t ks Hall. unfold CalculateFScore, keyword_counts.
    destruct (keyword_counts_no_match lower _ _ ks 0 0 0 Hall) as (fp & fn & ->).
    rewrite not_above_zero; [done| |]; apply ratio_zero_numerator. }
  split; [apply H|]. split; apply H; constructor.
Qed.

End KeywordTheorems.

Section EvaluateTheorems.
Import models evaluation.

Lemma evaluate_question_spec env e bookID i q acc acc' :
  evaluate_question env e bookID i q acc = Returned acc' ->
  acc' = acc
  \/ exists r,
       results acc' = results acc ++ [r]
       /\ ResultQuestionID r = QuestionID q /\ result_ok r
       /\ successfulQueries acc'
          = successfulQueries acc + (if Success r then 1 else 0)
       /\ totalRetrievedChunks acc' = totalRetrievedChunks acc + RetrievedChunks r
       /\ totalRelevantChunks acc' = totalRelevantChunks acc + RelevantRetrieved r.
Proof.
  unfold evaluate_question.
  destruct (retriever.Retrieve _ _ _ _ _ _) as [[searchResults|]|]; [|auto|done].
  2:{ intros [= <-]. by left. }
  destruct (generator.GenerateResponse _ _ _ _) as [answer|].
  2:{ intros [= <-]. by left. }
  intros [= <-]. right. eexists. cbn [results successfulQueries totalRetrievedChunks
                                       totalRelevantChunks].
  split; [reflexivity|].
  cbn [ResultQuestionID Success RetrievedChunks RelevantRetrieved].
  split; [done|]. split.
  { unfold result_ok. cbn. split; [done|]. split; [done|]. apply len_nonneg. }
  split; [|done]. destruct (0 <? _); lia.
Qed.

Lemma evaluate_from_spec env e bookID i questions acc acc' :
  evaluate_from env e bookID i questions acc = Returned acc' ->
  exists new,
    results acc' = results acc ++ new
    /\ map ResultQuestionID new `sublist_of` map QuestionID questions
    /\ Forall result_ok new
    /\ successfulQueries acc'
       = successfulQueries acc + len (filter (fun r => Success r = true) new)
    /\ totalRetrievedChunks acc'
       = totalRetrievedChunks acc + foldr (fun r n => RetrievedChunks r + n) 0 new
    /\ totalRelevantChunks acc'
       = totalRelevantChunks acc + foldr (fun r n => RelevantRetrieved r + n) 0 new.
Proof.
  revert i acc. induction questions as [|q questions IH]; intros i acc H.
  { injection H as <-. exists []. rewrite app_nil_r. cbn.
    split; [done|]. split; [constructor|]. split; [constructor|].
    change (len (@nil EvaluationResult)) with 0. lia. }
  cbn [evaluate_from] in H.
  destruct (evaluate_question env e bookID i q acc) as [acc1|] eqn:E1; [|done].
  apply IH in H as (new & Hr & Hsub & Hok & Hs & Ht & Hl).
  apply evaluate_question_spec in E1 as [->|(r & Hr1 & Hid & Hok1 & Hs1 & Ht1 & Hl1)].
  - exists new. split; [done|]. split; [|done].
    cbn [map]. by apply sublist_cons.
  - exists (r :: new). rewrite Hr, Hr1, <- app_assoc. split; [done|]. split.
    { cbn [map]. rewrite Hid. by apply sublist_skip. }
    split; [by constructor|]. rewrite Hs, Hs1, Ht, Ht1, Hl, Hl1.
    rewrite filter_cons. cbn [foldr]. split; [|split; lia].
    destruct (Success r).
    + rewrite decide_True by done. unfold len. cbn [length]. lia.
    + rewrite decide_False by done. lia.
Qed.

(** One run of the loop body: a question that does not complete leaves
    the loop variables as they are, one that completes adds its entry. *)
Lemma evaluate_question_completion env e bookID i q acc acc' :
  evaluate_question env e bookID i q acc = Returned acc' ->
  match completion env e bookID i q with
  | None => acc' = acc
  | Some (searchResults, answer) =>
    exists r, results acc' = results acc ++ [r]
              /\ entry_of env i q searchResults answer r
  end.
Proof.
  unfold evaluate_question, completion.
  destruct (retriever.Retrieve _ _ _ _ _ _) as [[searchResults|]|]; [| |done].
  2:{ by intros [= <-]. }
  destruct (generator.GenerateResponse _ _ _ _) as [answer|].
  2:{ by intros [= <-]. }
  intros [= <-]. eexists. cbn [results]. split; [reflexivity|].
  unfold entry_of, result_ok. cbn. repeat split. apply len_nonneg.
Qed.

Lemma evaluate_from_completed env e bookID i questions acc acc' :
  evaluate_from env e bookID i questions acc = Returned acc' ->
  exists new,
    results acc' = results acc ++ new
    /\ Forall2 (fun r d => entry_of env d.1.1.1 d.1.1.2 d.1.2 d.2 r)
               new (completed_from env e bookID i questions).
Proof.
  revert i acc. induction questions as [|q questions IH]; intros i acc H.
  { injection H as <-. exists []. rewrite app_nil_r. split; [done|constructor]. }
  cbn [evaluate_from completed_from] in *.
  destruct (evaluate_question env e bookID i q acc) as [acc1|] eqn:E1; [|done].
  apply IH in H as (new & Hr & Hall).
  apply evaluate_question_completion in E1.
  destruct (completion env e bookID i q) as [[searchResults answer]|].
  - destruct E1 as (r & Hr1 & Hentry). exists (r :: new).
    rewrite Hr, Hr1, <- app_assoc. split; [done|]. by constructor.
  - subst acc1. by exists new.
Qed.

(** The positions listed by [completed_from] are those, from [i] on and
    in increasing order, at which the question completes. *)
Lemma completed_from_elem env e bookID i questions j q searchResults answer :
  (j, q, searchResults, answer) ∈ completed_from env e bookID i questions
  <-> exists k, j = (i + k)%nat /\ questions !! k = Some q
                /\ completion env e bookID j q = Some (searchResults, answer).
Proof.
  revert i. induction questions as [|q0 questions IH]; intros i.
  { cbn. split; [by intros H%elem_of_nil|by intros (k & _ & H & _)]. }
  cbn [completed_from].
  assert (Hrest : (j, q, searchResults, answer)
                    ∈ completed_from env e bookID (S i) questions
                  <-> exists k, j = (i + S k)%nat /\ questions !! k = Some q
                                /\ completion env e bookID j q
                                   = Some (searchResults, answer)).
  { rewrite IH. split; intros (k & Hj & Hq & Hc); exists k;
      (split; [lia|done]). }
  destruct (completion env e bookID i q0) as [[sr0 a0]|] eqn:E0.
  - rewrite elem_of_cons, Hrest. split.
    + intros [[= -> -> -> ->]|(k & Hj & Hq & Hc)].
      * exists 0%nat. rewrite Nat.add_0_r. done.
      * exists (S k). done.
    + intros ([|k] & Hj & Hq & Hc).
      * left. rewrite Nat.add_0_r in Hj. subst j. injection Hq as <-.
        rewrite E0 in Hc. by injection Hc as <- <-.
      * right. by exists k.
  - rewrite Hrest. split.
    + intros (k & Hj & Hq & Hc). by exists (S k).
    + intros ([|k] & Hj & Hq & Hc).
      * rewrite Nat.add_0_r in Hj. subst j. injection Hq as <-. congruence.
      * by exists k.
Qed.

Lemma completed_from_sorted env e bookID i questions :
  StronglySorted lt (map (fun d => d.1.1.1) (completed_from env e bookID i questions))
  /\ Forall (fun d => (i <= d.1.1.1)%nat) (completed_from env e bookID i questions).
Proof.
  revert i. induction questions as [|q questions IH]; intros i.
  { cbn. split; constructor. }
  cbn [completed_from]. destruct (IH (S i)) as [Hs Hge].
  assert (Hge' : Forall (fun d : nat * Question * list SearchResult * gostring =>
                           (i <= d.1.1.1)%nat)
                        (completed_from env e bookID (S i) questions)).
  { eapply Forall_impl; [exact Hge|]. cbn. intros d Hd. lia. }
  destruct (completion env e bookID i q) as [[sr a]|]; [|done].
  cbn [map]. split.
  - constructor; [done|]. apply Forall_fmap. eapply Forall_impl; [exact Hge|].
    cbn. intros d Hd. lia.
  - constructor; [cbn; lia|done].
Qed.

(** With a limit that is not negative the retriever returns, whatever
    the store and the embedder do. *)
Lemma Retrieve_returns rt order r query topK bookID :
  0 <= topK -> exists res, retriever.Retrieve rt order r query topK bookID = Returned res.
Proof.
  intros Hk. unfold retriever.Retrieve.
  destruct (embedder.GenerateEmbedding rt order (retriever.embedder_ r) query)
    as [queryEmbedding|err]; [|by eexists].
  destruct (retriever.store r) as [docs|err|err].
  - rewrite SimpleVectorSearch_serving by done. by eexists.
  - by eexists.
  - by eexists.
Qed.

Lemma evaluate_from_returns env e bookID i questions acc :
  0 <= config.TopK (config_ e) ->
  exists acc', evaluate_from env e bookID i questions acc = Returned acc'.
Proof.
  intros Hk. revert i acc. induction questions as [|q questions IH]; intros i acc.
  { by eexists. }
  cbn [evaluate_from].
  assert (Hq : exists acc1, evaluate_question env e bookID i q acc = Returned acc1).
  { unfold evaluate_question.
    destruct (Retrieve_returns (rt env) (orders env i) (retriever_ e) (QuestionText q)
                (config.TopK (config_ e)) bookID Hk) as [res ->].
    destruct res as [searchResults|err]; [|by eexists].
    destruct (generator.GenerateResponse _ _ _ _); by eexists. }
  destruct Hq as [acc1 ->]. apply IH.
Qed.

(** [Evaluate] with a default top-K that is not negative returns a
    report, and never an error.  The report lists, in the order of the
    questions, exactly the questions for which both the retrieval and the
    generation succeeded, each with its answer and the number of chunks
    retrieved for it; a question for which one of the two calls failed
    has no entry and leaves no other trace.  The total is the number of
    entries, so the accuracy is taken over the questions that completed,
    not over those that were asked; every average is [0.0] when no
    question completed. *)
Theorem Evaluate_reports_completed_questions_only
    (env : eval_env) (e : Evaluator) (questions : list Question)
    (bookID : gostring) :
  0 <= config.TopK (config_ e) ->
  exists report,
    Evaluate env e questions bookID = Returned report
    /\ let m := ReportMetrics report in
       (exists completed : list (nat * Question * list SearchResult * gostring),
          Forall2 (fun r d => entry_of env d.1.1.1 d.1.1.2 d.1.2 d.2 r)
                  (ReportResults report) completed
          /\ StronglySorted lt (map (fun d => d.1.1.1) completed)
          /\ forall i q searchResults answer,
               (i, q, searchResults, answer) ∈ completed
               <-> questions !! i = Some q
                   /\ completion env e bookID i q = Some (searchResults, answer))
       /\ TotalQuestions m = len (ReportResults report)
       /\ TotalQuestions m <= len questions
       /\ SuccessfulQueries m
          = len (filter (fun r => Success r = true) (ReportResults report))
       /\ 0 <= SuccessfulQueries m <= TotalQuestions m
       /\ RetrievalAccuracy m = ratio (SuccessfulQueries m) (TotalQuestions m)
       /\ AvgChunksRetrieved m
          = ratio (foldr (fun r n => RetrievedChunks r + n) 0 (ReportResults report))
                  (TotalQuestions m)
       /\ AvgRelevantChunks m
          = ratio (foldr (fun r n => RelevantRetrieved r + n) 0 (ReportResults report))
                  (TotalQuestions m)
       /\ (ReportResults report = [] ->
           RetrievalAccuracy m = float64.zero /\ AvgResponseTime m = float64.zero
           /\ AvgChunksRetrieved m = float64.zero /\ AvgRelevantChunks m = float64.zero
           /\ AvgFScore m = float64.zero).
Proof.
  intros Hk. unfold Evaluate.
  destruct (evaluate_from_returns env e bookID 0 questions (mk_totals [] 0 0 0 0) Hk)
    as [acc E].
  rewrite E. eexists. split; [reflexivity|]. cbv zeta.
  cbn [ReportMetrics ReportResults TotalQuestions SuccessfulQueries RetrievalAccuracy
       AvgResponseTime AvgChunksRetrieved AvgRelevantChunks AvgFScore].
  pose proof (evaluate_from_completed _ _ _ _ _ _ _ E) as (new' & Hr' & Hall).
  apply evaluate_from_spec in E as (new & Hr & Hsub & Hok & Hs & Ht & Hl).
  cbn [results successfulQueries totalRetrievedChunks totalRelevantChunks app] in *.
  rewrite Hr in Hr'. subst new'.
  rewrite Hr, Hs, Ht, Hl, !Z.add_0_l.
  assert (Hlen : len new <= len questions).
  { apply sublist_length in Hsub. rewrite !length_map in Hsub. unfold len. lia. }
  pose proof (length_filter (fun r => Success r = true) new) as Hfl.
  split.
  { exists (completed_from env e bookID 0 questions). split; [done|].
    split; [apply completed_from_sorted|].
    intros i q sr a. rewrite completed_from_elem. split.
    - intros (k & -> & Hq & Hc). done.
    - intros [Hq Hc]. by exists i. }
  split; [done|]. split; [done|]. split; [done|].
  split; [unfold len; lia|]. split; [done|]. split; [done|].
  split; [done|].
  intros ->. cbn. done.
Qed.

(** The report on [ex_questions]: the second question, on which the
    generation endpoint fails, is not in it. *)
Lemma ex_report_entries :
  Evaluate ex_eval_env ex_evaluator ex_questions (str "b1") = Returned ex_report
  /\ map ResultQuestionID (ReportResults ex_report) = [1; 3]
  /\ TotalQuestions (ReportMetrics ex_report) = 2
  /\ (exists q, ex_questions !! 1%nat = Some q /\ QuestionID q = 2
                /\ completion ex_eval_env ex_evaluator (str "b1") 1 q = None).
Proof.
  split; [vm_compute; reflexivity|]. split; [vm_compute; reflexivity|].
  split; [vm_compute; reflexivity|].
  eexists. split; [reflexivity|]. split; vm_compute; reflexivity.
Qed.

Lemma Evaluate_reports_witness :
  0 <= config.TopK (config_ ex_evaluator)
  /\ exists report,
    Evaluate ex_eval_env ex_evaluator ex_questions (str "b1") = Returned report
    /\ let m := ReportMetrics report in
       (exists completed : list (nat * Question * list SearchResult * gostring),
          Forall2 (fun r d => entry_of ex_eval_env d.1.1.1 d.1.1.2 d.1.2 d.2 r)
                  (ReportResults report) completed
          /\ StronglySorted lt (map (fun d => d.1.1.1) completed)
          /\ forall i q searchResults answer,
               (i, q, searchResults, answer) ∈ completed
               <-> ex_questions !! i = Some q
                   /\ completion ex_eval_env ex_evaluator (str "b1") i q
                      = Some (searchResults, answer))
       /\ TotalQuestions m = len (ReportResults report)
       /\ TotalQuestions m <= len ex_questions
       /\ SuccessfulQueries m
          = len (filter (fun r => Success r = true) (ReportResults report))
       /\ 0 <= SuccessfulQueries m <= TotalQuestions m
       /\ RetrievalAccuracy m = ratio (SuccessfulQueries m) (TotalQuestions m)
       /\ AvgChunksRetrieved m
          = ratio (foldr (fun r n => RetrievedChunks r + n) 0 (ReportResults report))
                  (TotalQuestions m)
       /\ AvgRelevantChunks m
          = ratio (foldr (fun r n => RelevantRetrieved r + n) 0 (ReportResults report))
                  (TotalQuestions m)
       /\ (ReportResults report = [] ->
           RetrievalAccuracy m = float64.zero /\ AvgResponseTime m = float64.zero
           /\ AvgChunksRetrieved m = float64.zero /\ AvgRelevantChunks m = float64.zero
           /\ AvgFScore m = float64.zero).
Proof.
  split; [by vm_compute|].
  apply (Evaluate_reports_completed_questions_only ex_eval_env ex_evaluator
           ex_questions (str "b1")).
  by vm_compute.
Defined.

End EvaluateTheorems.

Section MoreChunkerTheorems.
Import strings chunker.

Lemma increasing_length (l : list Z) lo hi :
  StronglySorted Z.lt l -> Forall (fun x => lo <= x < hi) l ->
  len l <= Z.max 0 (hi - lo).
Proof.
  revert lo. induction l as [|x l IH]; intros lo Hs Hall.
  { unfold len. cbn. lia. }
  apply StronglySorted_inv in Hs as [Hs Hx].
  apply Forall_cons in Hall as [Hx0 Hall].
  specialize (IH (x + 1) Hs).
  assert (Hall' : Forall (fun y => x + 1 <= y < hi) l).
  { apply Forall_forall. intros y Hy.
    eapply Forall_forall in Hx; [|exact Hy]. eapply Forall_forall in Hall; [|exact Hy].
    cbn beta in *. lia. }
  specialize (IH Hall'). unfold len in *. cbn [length]. lia.
Qed.

(** [ChunkText] never returns more chunks than the cleaned text has
    bytes: the chunks are cut from windows that start at different
    positions of the text. *)
Theorem ChunkText_chunk_count (c : Chunker) (text : gostring) (chunks : list gostring) :
  ChunkText c text = Some (Returned chunks) ->
  len chunks <= len (cleanText text).
Proof.
  intros Hc. destruct (ChunkText_run_spec c text) as (o & Ho & Hspec).
  unfold ChunkText in Hc. rewrite Ho in Hc. destruct o as [st|]; [|done].
  injection Hc as <-. destruct Hspec as (Hem & Hsorted & _).
  assert (Hlen : len (chunker.chunks st) = len (map fst (windows st))).
  { unfold len. rewrite length_map. by rewrite (Forall2_length _ _ _ Hem). }
  rewrite Hlen.
  pose proof (increasing_length (map fst (windows st)) 0 (len (cleanText text)) Hsorted)
    as Hinc.
  pose proof (len_nonneg (cleanText text)).
  etrans; [apply Hinc|lia].
  apply Forall_forall. intros x Hx.
  apply list_elem_of_fmap in Hx as (w & -> & Hw).
  apply list_elem_of_lookup in Hw as (i & Hi).
  destruct (Forall2_lookup_r _ _ _ _ _ Hem Hi) as (chunk & _ & Hemit).
  destruct Hemit as (win & Hsl & -> & Hne).
  apply slice_inv in Hsl as (H1 & H2 & H3 & _).
  assert (0 < len win).
  { apply len_pos. intros ->. by apply Hne. }
  lia.
Qed.

Lemma ChunkText_chunk_count_witness :
  ChunkText (NewChunker 5 7) (str "abcdefghijklmnopqrstuvwxyz")
  = Some (Returned (map str
      ["abcde"; "bcdef"; "cdefg"; "defgh"; "efghi"; "fghij"; "ghijk";
       "hijkl"; "ijklm"; "jklmn"; "klmno"; "lmnop"; "mnopq"; "nopqr";
       "opqrs"; "pqrst"; "qrstu"; "rstuv"; "stuvw"; "tuvwx"; "uvwxy";
       "vwxyz"; "wxyz"; "xyz"; "yz"; "z"]%string))
  /\ len (map str
      ["abcde"; "bcdef"; "cdefg"; "defgh"; "efghi"; "fghij"; "ghijk";
       "hijkl"; "ijklm"; "jklmn"; "klmno"; "lmnop"; "mnopq"; "nopqr";
       "opqrs"; "pqrst"; "qrstu"; "rstuv"; "stuvw"; "tuvwx"; "uvwxy";
       "vwxyz"; "wxyz"; "xyz"; "yz"; "z"]%string)
     <= len (cleanText (str "abcdefghijklmnopqrstuvwxyz")).
Proof.
  assert (H : ChunkText (NewChunker 5 7) (str "abcdefghijklmnopqrstuvwxyz")
  = Some (Returned (map str
      ["abcde"; "bcdef"; "cdefg"; "defgh"; "efghi"; "fghij"; "ghijk";
       "hijkl"; "ijklm"; "jklmn"; "klmno"; "lmnop"; "mnopq"; "nopqr";
       "opqrs"; "pqrst"; "qrstu"; "rstuv"; "stuvw"; "tuvwx"; "uvwxy";
       "vwxyz"; "wxyz"; "xyz"; "yz"; "z"]%string))) by (vm_compute; reflexivity).
  split; [exact H|].
  apply (ChunkText_chunk_count (NewChunker 5 7) (str "abcdefghijklmnopqrstuvwxyz")).
  exact H.
Defined.

End MoreChunkerTheorems.

Section DimensionTheorems.
Import models storage embedder retriever controllers.

Lemma no_matching_dimension q docs bookID k :
  0 <= k -> Forall (fun d => length (Embedding d) <> length q) docs ->
  SimpleVectorSearch (Serving docs) q k bookID = Returned (Ok []).
Proof.
  intros Hk Hall. rewrite SimpleVectorSearch_serving by done.
  rewrite score_chunks_spec.
  rewrite filter_none; [cbn; by destruct (Z.to_nat k)|].
  unfold candidates. case_decide; [done|].
  apply Forall_forall. intros d Hd. apply list_elem_of_filter in Hd as [_ Hd].
  by eapply Forall_forall in Hall.
Qed.

(** A question embedded by a remote model into a vector whose dimension
    no stored chunk has is answered 404: every chunk is skipped, the
    search returns nothing, and no error says that the dimensions
    differ.  So it is for a book uploaded under the local model and
    queried under a remote one. *)
Theorem mismatched_dimension_is_answered_404
    (rt : runtime) (order : map_order) (tr : generator.transport) (elapsed : Z)
    (rc : RAGController) (req : QueryRequest) (docs : list Chunk)
    (v : list spec_float) :
  retriever.store (retriever_ rc) = Serving docs ->
  Model (retriever.embedder_ (retriever_ rc)) <> str "simple" ->
  ollama rt (BaseURL (retriever.embedder_ (retriever_ rc)))
            (Model (retriever.embedder_ (retriever_ rc))) (Question req) = Ok v ->
  v <> [] ->
  Forall (fun d => length (Embedding d) <> length v) docs ->
  ReqBookID req <> [] ->
  0 <= controller.QueryBook_topK (query_config (config_ rc)) req ->
  QueryBook rt order tr elapsed rc (Some req)
  = Returned (StatusNotFound (str "No relevant chunks found")).
Proof.
  intros Hstore Hmodel Hv Hne Hall Hbook Hk.
  unfold QueryBook, controller.QueryBook_retrieve. rewrite decide_False by done.
  unfold Retrieve, GenerateEmbedding. rewrite decide_False by done. rewrite Hv.
  replace (len v =? 0) with false
    by (symmetry; apply Z.eqb_neq; by rewrite len_zero_nil).
  rewrite Hstore, no_matching_dimension by done. done.
Qed.

Lemma mismatched_dimension_witness :
  retriever.store (retriever_ remote_controller) = Serving wide_docs
  /\ Model (retriever.embedder_ (retriever_ remote_controller)) <> str "simple"
  /\ ollama remote_runtime
       (BaseURL (retriever.embedder_ (retriever_ remote_controller)))
       (Model (retriever.embedder_ (retriever_ remote_controller)))
       (Question ex_request) = Ok (map float32.of_int [1; 2; 3])
  /\ map float32.of_int [1; 2; 3] <> []
  /\ Forall (fun d => length (Embedding d) <> length (map float32.of_int [1; 2; 3]))
            wide_docs
  /\ ReqBookID ex_request <> []
  /\ 0 <= controller.QueryBook_topK (query_config (config_ remote_controller))
                                    ex_request
  /\ QueryBook remote_runtime id (echo_transport (str "Paris.")) 7
               remote_controller (Some ex_request)
     = Returned (StatusNotFound (str "No relevant chunks found")).
Proof.
  assert (H1 : Model (retriever.embedder_ (retriever_ remote_controller))
               <> str "simple") by (vm_compute; discriminate).
  assert (H2 : Forall (fun d => length (Embedding d)
                                <> length (map float32.of_int [1; 2; 3])) wide_docs).
  { repeat constructor; vm_compute; discriminate. }
  assert (H3 : 0 <= controller.QueryBook_topK
                      (query_config (config_ remote_controller)) ex_request)
    by (vm_compute; discriminate).
  split; [reflexivity|]. split; [exact H1|]. split; [reflexivity|].
  split; [discriminate|]. split; [exact H2|]. split; [discriminate|].
  split; [exact H3|].
  apply (mismatched_dimension_is_answered_404 remote_runtime id
           (echo_transport (str "Paris.")) 7 remote_controller ex_request wide_docs
           (map float32.of_int [1; 2; 3]));
    [reflexivity|exact H1|reflexivity|discriminate|exact H2|discriminate|exact H3].
Defined.

End DimensionTheorems.
